(** * Booking dispatch engine of the MecFinder backend

    A shallow embedding of [src/services/bookingQueue.service.js] (the
    round-robin queue), of the accept/reject socket handlers of
    [src/services/socket.service.js], of the dispatch part of
    [createBooking] and of [startServer] in [src/index.js].

    Every handler is a state transformer over [World]: the MongoDB booking
    collection, the process-local [activeQueues] map, the Redis keys the
    queue writes, the pending [setTimeout] timers and the log of socket
    emissions.  One server process is modelled.  In the first part a
    handler is run to completion as one step; the part "Handlers in
    flight" has the handlers with their [await]s, suspended and resumed by
    the event loop, so that they overlap.  [redisService] rejects when it has
    no client; that is the one exception the handlers can raise here, and
    it propagates as in the source.  Identifiers (booking, mechanic and
    user ids) are the strings [_id.toString()] yields.  Payload fields that
    no handler reads back (service, location, price, messages) are left out
    of the emissions; the fields that identify the booking and the
    addressee are kept. *)

From stdpp Require Import gmap strings list fin_maps.
From Stdlib Require Import QArith.QArith_base.

Open Scope string_scope.
Open Scope list_scope.
Open Scope nat_scope.

#[local] Set Warnings "-clear-no-such-hyp".

(** ** Data model *)

(** [status] enum of [models/Booking.js], plus the value the queue writes on
    exhaustion (update validators are off, so the write goes through). *)
Inductive Status : Type :=
  | PENDING | SEARCHING | ASSIGNED | ACCEPTED | EN_ROUTE | ARRIVED
  | IN_PROGRESS | COMPLETED | CANCELLED | EXPIRED | NO_MECHANIC_AVAILABLE.

#[global] Instance Status_eq_dec : EqDecision Status.
Proof. solve_decision. Defined.

(** The fields of a booking document the dispatch engine reads or writes. *)
Record Booking : Type := mkBooking {
  b_id : string;
  b_userId : string;
  b_mechanicId : option string;
  b_status : Status;
  b_acceptedAt : option nat
}.

(** An element of the [nearbyMechanics] array handed to [startQueue]. *)
Record NearbyMechanic : Type := mkNearby {
  nm_id : string;
  nm_distance : option nat;
  nm_fullName : option string
}.

(** An element of [queueData.mechanics]. *)
Record MechanicEntry : Type := mkEntry {
  m_id : string;
  m_distance : option nat;
  m_name : string
}.

(** [queueData]: one entry of [activeQueues]. [q_timer] is the handle
    returned by [setTimeout], or [None] for [null]. *)
Record QueueData : Type := mkQueue {
  q_bookingId : string;
  q_booking : Booking;
  q_mechanics : list MechanicEntry;
  q_currentIndex : nat;
  q_startedAt : nat;
  q_timer : option nat
}.

(** Value stored under [booking:queue:<bookingId>]. *)
Record Snapshot : Type := mkSnapshot {
  s_mechanics : list MechanicEntry;
  s_currentIndex : nat;
  s_startedAt : nat
}.

(** Value stored under [booking:queue:current:<bookingId>]. *)
Record CurrentOffer : Type := mkCurrent {
  c_mechanicId : string;
  c_sentAt : nat;
  c_expiresAt : nat
}.

(** Value stored under [booking:reject:<bookingId>:<mechanicId>]. *)
Record RejectInfo : Type := mkReject {
  r_reason : string;
  r_rejectedAt : nat
}.

(** Result object of [handleMechanicAccept]. *)
Inductive AcceptResult : Type :=
  | AcceptOk (booking : Booking)
  | AcceptErr (error : string).

(** Socket.io rooms an emission is addressed to; [SocketOf m] is the
    calling socket of mechanic [m] ([socket.emit]). *)
Inductive Room : Type :=
  | UserRoom (u : string)
  | MechanicRoom (m : string)
  | SocketOf (m : string).

(** The events the engine emits, with the payload fields that identify the
    booking and the addressee. *)
Inductive Message : Type :=
  | BookingNew (b : string) (distance : option nat) (timeout : nat)
  | BookingTimeout (b : string) (reason : string)
  | BookingCancelled (b : string) (reason : string)
  | BookingAccepted (b : string) (m : string)
  | BookingNoMechanic (b : string)
  | QueueStatus (b : string) (status : string) (total position : nat)
  | AcceptAck (res : AcceptResult)
  | RejectAck (res : option string).

Definition Emission : Type := Room * Message.

(** The state the handlers act on.  The three Redis maps stand for the key
    families [booking:queue:<id>], [booking:queue:current:<id>] and
    [booking:reject:<id>:<mechanicId>]; each value carries its TTL in
    seconds.  [timers] maps a pending timer handle to the booking whose
    callback it will run. *)
Record World : Type := mkWorld {
  bookings : gmap string Booking;
  activeQueues : gmap string QueueData;
  redisConnected : bool;
  redisQueue : gmap string (Snapshot * nat);
  redisCurrent : gmap string (CurrentOffer * nat);
  redisReject : gmap (string * string) (RejectInfo * nat);
  timers : gmap nat string;
  nextTimer : nat;
  clock : nat;
  emitted : list Emission
}.

Definition TIMEOUT_SECONDS : nat := 10.

(** ** A state monad with exceptions *)

Inductive Result (A : Type) : Type :=
  | Ok (a : A) (w : World)
  | Throw (msg : string) (w : World).
Arguments Ok {A} a w.
Arguments Throw {A} msg w.

Definition M (A : Type) : Type := World → Result A.

Definition ret {A} (a : A) : M A := fun w => Ok a w.

Definition bind {A B} (m : M A) (k : A → M B) : M B :=
  fun w => match m w with
           | Ok a w' => k a w'
           | Throw e w' => Throw e w'
           end.

Definition throw {A} (msg : string) : M A := fun w => Throw msg w.

(** [try { m } catch (error) { h error.message }] *)
Definition tryCatch {A} (m : M A) (h : string → M A) : M A :=
  fun w => match m w with
           | Ok a w' => Ok a w'
           | Throw e w' => h e w'
           end.

Definition world_of {A} (r : Result A) : World :=
  match r with Ok _ w => w | Throw _ w => w end.

Notation "'do' x <- m ; k" := (bind m (fun x => k))
  (at level 10, x name, m at level 100, k at level 200).
Notation "m ;; k" := (bind m (fun _ => k))
  (at level 100, k at level 200, right associativity).

(** ** Primitive effects *)

Section Setters.
Context (w : World).

Definition set_bookings (x : gmap string Booking) : World :=
  mkWorld x (activeQueues w) (redisConnected w) (redisQueue w)
    (redisCurrent w) (redisReject w) (timers w) (nextTimer w) (clock w)
    (emitted w).
Definition set_activeQueues (x : gmap string QueueData) : World :=
  mkWorld (bookings w) x (redisConnected w) (redisQueue w)
    (redisCurrent w) (redisReject w) (timers w) (nextTimer w) (clock w)
    (emitted w).
Definition set_redisConnected (x : bool) : World :=
  mkWorld (bookings w) (activeQueues w) x (redisQueue w)
    (redisCurrent w) (redisReject w) (timers w) (nextTimer w) (clock w)
    (emitted w).
Definition set_redisQueue (x : gmap string (Snapshot * nat)) : World :=
  mkWorld (bookings w) (activeQueues w) (redisConnected w) x
    (redisCurrent w) (redisReject w) (timers w) (nextTimer w) (clock w)
    (emitted w).
Definition set_redisCurrent (x : gmap string (CurrentOffer * nat)) : World :=
  mkWorld (bookings w) (activeQueues w) (redisConnected w) (redisQueue w)
    x (redisReject w) (timers w) (nextTimer w) (clock w) (emitted w).
Definition set_redisReject (x : gmap (string * string) (RejectInfo * nat))
  : World :=
  mkWorld (bookings w) (activeQueues w) (redisConnected w) (redisQueue w)
    (redisCurrent w) x (timers w) (nextTimer w) (clock w) (emitted w).
Definition set_timers (x : gmap nat string) (n : nat) : World :=
  mkWorld (bookings w) (activeQueues w) (redisConnected w) (redisQueue w)
    (redisCurrent w) (redisReject w) x n (clock w) (emitted w).
Definition set_clock (x : nat) : World :=
  mkWorld (bookings w) (activeQueues w) (redisConnected w) (redisQueue w)
    (redisCurrent w) (redisReject w) (timers w) (nextTimer w) x (emitted w).
Definition set_emitted (x : list Emission) : World :=
  mkWorld (bookings w) (activeQueues w) (redisConnected w) (redisQueue w)
    (redisCurrent w) (redisReject w) (timers w) (nextTimer w) (clock w) x.
End Setters.

(** [this.activeQueues.get / set / delete] *)
Definition getQueue (b : string) : M (option QueueData) :=
  fun w => Ok (activeQueues w !! b) w.
Definition setQueue (b : string) (q : QueueData) : M unit :=
  fun w => Ok tt (set_activeQueues w (<[b := q]> (activeQueues w))).
Definition deleteQueue (b : string) : M unit :=
  fun w => Ok tt (set_activeQueues w (delete b (activeQueues w))).

(** [Date.now()] *)
Definition now : M nat := fun w => Ok (clock w) w.

(** [this.io.to(room).emit(event, data)] and [socket.emit(event, data)]:
    fire and forget, appended to the log in order. *)
Definition emit (r : Room) (msg : Message) : M unit :=
  fun w => Ok tt (set_emitted w (emitted w ++ [(r, msg)])).
Definition emitToUser (u : string) (msg : Message) : M unit :=
  emit (UserRoom u) msg.
Definition emitToMechanic (m : string) (msg : Message) : M unit :=
  emit (MechanicRoom m) msg.

(** [setTimeout(callback, TIMEOUT_SECONDS * 1000)] where the callback is
    [skipToNextMechanic(bookingId, 'timeout')]: a fresh handle, pending
    until it fires or is cleared. *)
Definition setTimeout (b : string) : M nat :=
  fun w => Ok (nextTimer w)
              (set_timers w (<[nextTimer w := b]> (timers w)) (S (nextTimer w))).
(** [clearTimeout(handle)]: a cleared or fired handle is ignored. *)
Definition clearTimeout (t : nat) : M unit :=
  fun w => Ok tt (set_timers w (delete t (timers w)) (nextTimer w)).

(** [redisService.set / get / delete]: each one starts with
    [if (!this.client) throw new Error('Redis not connected')]. *)
Definition redisGuard : M unit :=
  fun w => if redisConnected w then Ok tt w else Throw "Redis not connected" w.

Definition redisSetQueue (b : string) (s : Snapshot) (ttl : nat) : M unit :=
  redisGuard ;;
  fun w => Ok tt (set_redisQueue w (<[b := (s, ttl)]> (redisQueue w))).
Definition redisSetCurrent (b : string) (c : CurrentOffer) (ttl : nat)
  : M unit :=
  redisGuard ;;
  fun w => Ok tt (set_redisCurrent w (<[b := (c, ttl)]> (redisCurrent w))).
Definition redisSetReject (b m : string) (r : RejectInfo) (ttl : nat)
  : M unit :=
  redisGuard ;;
  fun w => Ok tt (set_redisReject w (<[(b, m) := (r, ttl)]> (redisReject w))).
Definition redisGetQueue (b : string) : M (option Snapshot) :=
  redisGuard ;;
  fun w => Ok (fst <$> redisQueue w !! b) w.
Definition redisDeleteQueue (b : string) : M unit :=
  redisGuard ;;
  fun w => Ok tt (set_redisQueue w (delete b (redisQueue w))).
Definition redisDeleteCurrent (b : string) : M unit :=
  redisGuard ;;
  fun w => Ok tt (set_redisCurrent w (delete b (redisCurrent w))).

(** [Booking.findById(bookingId)] *)
Definition findById (b : string) : M (option Booking) :=
  fun w => Ok (bookings w !! b) w.

(** The filter of the conditional update, shared by [handleMechanicAccept]
    and the fallback of [handleBookingAccept]:
    [{ status: { $in: ['PENDING', 'SEARCHING'] }, mechanicId: { $eq: null } }]. *)
Definition acceptFilter (bk : Booking) : bool :=
  match b_status bk, b_mechanicId bk with
  | PENDING, None | SEARCHING, None => true
  | _, _ => false
  end.

(** [$set: { mechanicId, status: 'ACCEPTED', acceptedAt: new Date() }] *)
Definition acceptSet (m : string) (t : nat) (bk : Booking) : Booking :=
  mkBooking (b_id bk) (b_userId bk) (Some m) ACCEPTED (Some t).

(** [Booking.findOneAndUpdate({ _id, ...filter }, { $set }, { new: true })]:
    one atomic step of the store; returns the updated document, or [None]
    ([null]) when no document matched, in which case nothing is written. *)
Definition findOneAndUpdateAccept (b m : string) : M (option Booking) :=
  fun w =>
    match bookings w !! b with
    | Some bk =>
        if acceptFilter bk then
          let bk' := acceptSet m (clock w) bk in
          Ok (Some bk') (set_bookings w (<[b := bk']> (bookings w)))
        else Ok None w
    | None => Ok None w
    end.

Definition setStatus (st : Status) (bk : Booking) : Booking :=
  mkBooking (b_id bk) (b_userId bk) (b_mechanicId bk) st (b_acceptedAt bk).

(** [Booking.findByIdAndUpdate(bookingId, { $set: { status } })]: no filter
    besides the id. *)
Definition findByIdAndUpdateStatus (b : string) (st : Status) : M unit :=
  fun w => Ok tt (set_bookings w (alter (setStatus st) b (bookings w))).

(** ** The booking queue service ([bookingQueue.service.js]) *)

Module BookingQueueService.

(** [nearbyMechanics.map(m => ({ id: m._id.toString(),
    distance: m.distance || null, name: m.fullName || 'Mechanic' }))];
    [0] and the empty string are falsy. *)
Definition toEntry (m : NearbyMechanic) : MechanicEntry :=
  mkEntry (nm_id m)
    (match nm_distance m with Some 0 => None | d => d end)
    (match nm_fullName m with
     | Some n => if decide (n = "") then "Mechanic" else n
     | None => "Mechanic"
     end).

(** [queueData.timer = t] and [queueData.currentIndex = i]: the object in
    the map is mutated, here a new record replaces it. *)
Definition with_timer (q : QueueData) (t : option nat) : QueueData :=
  mkQueue (q_bookingId q) (q_booking q) (q_mechanics q) (q_currentIndex q)
    (q_startedAt q) t.

Definition with_index (q : QueueData) (i : nat) : QueueData :=
  mkQueue (q_bookingId q) (q_booking q) (q_mechanics q) i
    (q_startedAt q) (q_timer q).

(** [queueData.mechanics[queueData.currentIndex]]; [None] is [undefined]. *)
Definition currentMechanic (q : QueueData) : option MechanicEntry :=
  q_mechanics q !! q_currentIndex q.

(** [if (queueData.timer) clearTimeout(queueData.timer)] *)
Definition clearTimerOf (q : QueueData) : M unit :=
  match q_timer q with
  | Some t => clearTimeout t
  | None => ret tt
  end.

(** [notifyUserQueueStatus(userId, data)] (lines 346-348). *)
Definition notifyUserQueueStatus (u : string) (msg : Message) : M unit :=
  emitToUser u msg.

(** [{ mechanics, currentIndex, startedAt }], what is stored in Redis. *)
Definition toSnapshot (q : QueueData) : Snapshot :=
  mkSnapshot (q_mechanics q) (q_currentIndex q) (q_startedAt q).

(** [saveQueueToRedis] (lines 353-363), TTL 600 seconds; the [try]/[catch]
    logs the error and carries on. *)
Definition saveQueueToRedis (bookingId : string) (queueData : QueueData)
  : M unit :=
  tryCatch (redisSetQueue bookingId (toSnapshot queueData) 600)
           (fun _ => ret tt).

(** [cleanupQueue] (lines 330-341). *)
Definition cleanupQueue (bookingId : string) : M unit :=
  do queueData <- getQueue bookingId;
  match queueData with
  | Some q => clearTimerOf q
  | None => ret tt
  end ;;
  deleteQueue bookingId ;;
  redisDeleteQueue bookingId ;;
  redisDeleteCurrent bookingId.

(** [handleNoMechanicsAvailable] (lines 300-325). *)
Definition handleNoMechanicsAvailable (booking : Booking) : M unit :=
  let bookingId := b_id booking in
  findByIdAndUpdateStatus bookingId NO_MECHANIC_AVAILABLE ;;
  emitToUser (b_userId booking) (BookingNoMechanic bookingId) ;;
  cleanupQueue bookingId.

(** [startTimeout] (lines 146-162). *)
Definition startTimeout (bookingId : string) : M unit :=
  do queueData <- getQueue bookingId;
  match queueData with
  | None => ret tt
  | Some q =>
      clearTimerOf q ;;
      do t <- setTimeout bookingId;
      setQueue bookingId (with_timer q (Some t))
  end.

(** [sendToNextMechanic] (lines 76-141).  Past the exhaustion test
    [mechanics[currentIndex]] is defined; the [None] branch is the
    [TypeError] that reading [currentMechanic.id] would raise otherwise. *)
Definition sendToNextMechanic (bookingId : string) : M unit :=
  do queueData <- getQueue bookingId;
  match queueData with
  | None => ret tt
  | Some q =>
      let booking := q_booking q in
      if decide (List.length (q_mechanics q) ≤ q_currentIndex q) then
        handleNoMechanicsAvailable booking
      else
        match currentMechanic q with
        | None => throw "TypeError"
        | Some cur =>
            emitToMechanic (m_id cur)
              (BookingNew (b_id booking) (m_distance cur) TIMEOUT_SECONDS) ;;
            do t <- now;
            redisSetCurrent bookingId
              (mkCurrent (m_id cur) t (t + TIMEOUT_SECONDS * 1000))
              (TIMEOUT_SECONDS + 5) ;;
            startTimeout bookingId ;;
            notifyUserQueueStatus (b_userId booking)
              (QueueStatus bookingId "REQUESTING" (List.length (q_mechanics q))
                 (q_currentIndex q + 1))
        end
  end.

(** [reason === 'timeout' ? 'Time expired' : 'Moved to next mechanic'] *)
Definition withdrawReason (reason : string) : string :=
  if decide (reason = "timeout") then "Time expired"
  else "Moved to next mechanic".

(** [skipToNextMechanic] (lines 194-222). *)
Definition skipToNextMechanic (bookingId reason : string) : M unit :=
  do queueData <- getQueue bookingId;
  match queueData with
  | None => ret tt
  | Some q =>
      clearTimerOf q ;;
      match currentMechanic q with
      | Some cur =>
          emitToMechanic (m_id cur)
            (BookingTimeout bookingId (withdrawReason reason))
      | None => ret tt
      end ;;
      let q' := with_index (with_timer q None) (q_currentIndex q + 1) in
      setQueue bookingId q' ;;
      saveQueueToRedis bookingId q' ;;
      sendToNextMechanic bookingId
  end.

(** [currentMechanic?.id !== mechanicId] *)
Definition notCurrent (q : QueueData) (mechanicId : string) : bool :=
  bool_decide (m_id <$> currentMechanic q ≠ Some mechanicId).

(** [handleMechanicReject] (lines 167-189); [reason] is [None] when the
    caller passes [undefined], and then defaults to ['rejected']. *)
Definition handleMechanicReject (bookingId mechanicId : string)
    (reason : option string) : M unit :=
  let reason := default "rejected" reason in
  do queueData <- getQueue bookingId;
  match queueData with
  | None => ret tt
  | Some q =>
      if notCurrent q mechanicId then ret tt
      else
        do t <- now;
        redisSetReject bookingId mechanicId (mkReject reason t) 3600 ;;
        skipToNextMechanic bookingId reason
  end.

(** [for (let i = currentIndex + 1; i < mechanics.length; i++)
       emitToMechanic(mechanics[i].id, 'booking:cancelled', ...)] *)
Fixpoint notifyOthers (bookingId : string) (rest : list MechanicEntry)
  : M unit :=
  match rest with
  | [] => ret tt
  | m :: rest' =>
      emitToMechanic (m_id m)
        (BookingCancelled bookingId "Accepted by another mechanic") ;;
      notifyOthers bookingId rest'
  end.

(** [handleMechanicAccept] (lines 227-295).  The [$push] to
    [statusHistory] is not part of the record modelled here: the booking
    schema declares no such path. *)
Definition handleMechanicAccept (bookingId mechanicId : string)
  : M AcceptResult :=
  do queueData <- getQueue bookingId;
  match queueData with
  | None => ret (AcceptErr "Queue not found")
  | Some q =>
      if notCurrent q mechanicId then ret (AcceptErr "Not your turn to accept")
      else
        clearTimerOf q ;;
        do booking <- findOneAndUpdateAccept bookingId mechanicId;
        match booking with
        | None => ret (AcceptErr "Booking no longer available")
        | Some bk =>
            emitToUser (b_userId (q_booking q))
              (BookingAccepted bookingId mechanicId) ;;
            notifyOthers bookingId
              (drop (q_currentIndex q + 1) (q_mechanics q)) ;;
            cleanupQueue bookingId ;;
            ret (AcceptOk bk)
        end
  end.

(** [startQueue] (lines 30-71). *)
Definition startQueue (booking : Booking) (nearbyMechanics : list NearbyMechanic)
  : M unit :=
  let bookingId := b_id booking in
  if decide (List.length nearbyMechanics = 0) then
    handleNoMechanicsAvailable booking
  else
    do t <- now;
    let queueData :=
      mkQueue bookingId booking (map toEntry nearbyMechanics) 0 t None in
    setQueue bookingId queueData ;;
    saveQueueToRedis bookingId queueData ;;
    sendToNextMechanic bookingId ;;
    notifyUserQueueStatus (b_userId booking)
      (QueueStatus bookingId "SEARCHING" (List.length nearbyMechanics) 1).

(** One iteration of the loop over the scanned [booking:queue:*] keys (the
    [:current:] keys are skipped by the source and live in their own map
    here). *)
Definition restoreOne (bookingId : string) : M unit :=
  do queueData <- redisGetQueue bookingId;
  do booking <- findById bookingId;
  match booking, queueData with
  | Some bk, Some s =>
      if decide (b_status bk = SEARCHING) then
        setQueue bookingId
          (mkQueue bookingId bk (s_mechanics s) (s_currentIndex s)
             (s_startedAt s) None) ;;
        sendToNextMechanic bookingId
      else ret tt
  | _, _ => ret tt
  end.

(** The loop of [restoreQueues] over the scanned keys. *)
Fixpoint restoreAll (keys : list string) : M unit :=
  match keys with
  | [] => ret tt
  | k :: keys' => restoreOne k ;; restoreAll keys'
  end.

(** The keys a full [SCAN] with [MATCH 'booking:queue:*'] returns. *)
Definition scanQueueKeys : M (list string) :=
  redisGuard ;;
  fun w => Ok ((map_to_list (redisQueue w)).*1) w.

(** [restoreQueues] (lines 368-404): the whole pass sits in one
    [try]/[catch]. *)
Definition restoreQueues : M unit :=
  tryCatch (do keys <- scanQueueKeys; restoreAll keys) (fun _ => ret tt).

End BookingQueueService.

(** ** The socket handlers ([socket.service.js]) *)

Module SocketService.
Import BookingQueueService.

(** [handleBookingAccept] (lines 239-286); [socket.userId] is
    [mechanicId], [data.bookingId] is [bookingId].  The [else] branch runs
    for every unsuccessful result of [handleMechanicAccept]. *)
Definition handleBookingAccept (mechanicId bookingId : string) : M unit :=
  tryCatch
    (do result <- handleMechanicAccept bookingId mechanicId;
     match result with
     | AcceptOk bk => emit (SocketOf mechanicId) (AcceptAck (AcceptOk bk))
     | AcceptErr _ =>
         do booking <- findOneAndUpdateAccept bookingId mechanicId;
         match booking with
         | None =>
             emit (SocketOf mechanicId)
               (AcceptAck (AcceptErr "Booking no longer available"))
         | Some bk =>
             emitToUser (b_userId bk) (BookingAccepted (b_id bk) mechanicId) ;;
             emit (SocketOf mechanicId) (AcceptAck (AcceptOk bk))
         end
     end)
    (fun e => emit (SocketOf mechanicId) (AcceptAck (AcceptErr e))).

(** [handleBookingReject] (lines 291-308). *)
Definition handleBookingReject (mechanicId bookingId : string)
    (reason : option string) : M unit :=
  tryCatch
    (handleMechanicReject bookingId mechanicId reason ;;
     emit (SocketOf mechanicId) (RejectAck None))
    (fun e => emit (SocketOf mechanicId) (RejectAck (Some e))).

End SocketService.

(** ** Booking creation and server start *)

Module BookingController.
Import BookingQueueService.

(** [Booking.create({ userId, status: 'SEARCHING', ... })]: [bookingId] is
    the [_id] the store assigns; the unique index on [_id] refuses an id
    already in the collection. *)
Definition createDocument (bookingId userId : string) : M Booking :=
  fun w =>
    match bookings w !! bookingId with
    | Some _ => Throw "E11000 duplicate key error" w
    | None =>
        let booking := mkBooking bookingId userId None SEARCHING None in
        Ok booking (set_bookings w (<[bookingId := booking]> (bookings w)))
    end.

(** The dispatch part of [createBooking]; [nearbyMechanics] is the result
    of [findNearbyMechanics]. *)
Definition createBooking (bookingId userId : string)
    (nearbyMechanics : list NearbyMechanic) : M unit :=
  do booking <- createDocument bookingId userId;
  if decide (0 < List.length nearbyMechanics) then
    startQueue booking nearbyMechanics
  else
    handleNoMechanicsAvailable booking.

End BookingController.

(** What outlives a server process: the booking collection and Redis. *)
Record Stores : Type := mkStores {
  st_bookings : gmap string Booking;
  st_redisQueue : gmap string (Snapshot * nat);
  st_redisCurrent : gmap string (CurrentOffer * nat);
  st_redisReject : gmap (string * string) (RejectInfo * nat)
}.

(** [startServer] of [index.js]: connect to MongoDB, connect to Redis
    ([redisUp] tells whether that worked; a failure is logged and ignored),
    initialise Socket.io, listen.  The process starts with the empty
    [activeQueues] of the [BookingQueueService] constructor, no pending
    timer and nothing emitted; no method of the queue service is called. *)
Definition startServer (s : Stores) (redisUp : bool) (time : nat) : World :=
  mkWorld (st_bookings s) ∅ redisUp (st_redisQueue s) (st_redisCurrent s)
    (st_redisReject s) ∅ 0 time [].

(** ** Events and runs *)

(** What reaches the engine while the server runs. *)
Inductive Event : Type :=
  | CreateBooking (bookingId userId : string) (nearby : list NearbyMechanic)
  | SocketAccept (mechanicId bookingId : string)
  | SocketReject (mechanicId bookingId : string) (reason : option string)
  | TimerFires (t : nat)
  | RedisLink (up : bool)
  | Tick (dt : nat).

(** A pending timer fires once and is gone; a cleared handle never fires. *)
Definition timerCallback (t : nat) : M unit :=
  fun w =>
    match timers w !! t with
    | Some b =>
        BookingQueueService.skipToNextMechanic b "timeout"
          (set_timers w (delete t (timers w)) (nextTimer w))
    | None => Ok tt w
    end.

(** The handler an event runs. *)
Definition handler (ev : Event) : M unit :=
  match ev with
  | CreateBooking b u nearby => BookingController.createBooking b u nearby
  | SocketAccept m b => SocketService.handleBookingAccept m b
  | SocketReject m b reason => SocketService.handleBookingReject m b reason
  | TimerFires t => timerCallback t
  | RedisLink up => fun w => Ok tt (set_redisConnected w up)
  | Tick dt => fun w => Ok tt (set_clock w (clock w + dt))
  end.

(** The state after the handler of [ev] has run; a rejection of the
    handler's promise leaves the effects made before it. *)
Definition fire (ev : Event) (w : World) : World := world_of (handler ev w).

(** The state after a sequence of events. *)
Fixpoint run (evs : list Event) (w : World) : World :=
  match evs with
  | [] => w
  | ev :: evs' => run evs' (fire ev w)
  end.

(** What a process leaves behind when it stops. *)
Definition persisted (w : World) : Stores :=
  mkStores (bookings w) (redisQueue w) (redisCurrent w) (redisReject w).

(** [cancelBooking] of the booking controller: the user cancels; the queue
    service is not told. *)
Definition userCancels (b : string) (w : World) : World :=
  set_bookings w (alter (setStatus CANCELLED) b (bookings w)).

(** * Notions used in the statements *)

(** ** Relations respected by handlers *)

(** [m] takes every state to one that is [R]-related to it, whether it
    returns or throws. *)
Definition respects {A} (R : relation World) (m : M A) : Prop :=
  ∀ w, R w (world_of (m w)).

(** A relation on the booking collection, read on states. *)
Definition onBookings (R : relation (gmap string Booking)) : relation World :=
  fun w w' => R (bookings w) (bookings w').

(** The field [f] is the same before and after. *)
Definition eqOn {X} (f : World → X) : relation World :=
  fun w w' => f w' = f w.

(** ** Acceptance *)

#[global] Instance Booking_eq_dec : EqDecision Booking.
Proof. solve_decision. Defined.

(** An accept attempt succeeds when one of its conditional updates
    matches, that is, when it changes the booking document. *)
Definition acceptSucceeds (m b : string) (w : World) : Prop :=
  bookings (fire (SocketAccept m b) w) !! b ≠ bookings w !! b.

(** Number of successful accept attempts for [b] along a run. *)
Fixpoint acceptances (b : string) (evs : list Event) (w : World) : nat :=
  match evs with
  | [] => 0
  | ev :: evs' =>
      match ev with
      | SocketAccept m b' =>
          if decide (b' = b ∧ acceptSucceeds m b w) then 1 else 0
      | _ => 0
      end + acceptances b evs' (fire ev w)
  end.

(** The assignee of a booking, once set, is kept. *)
Definition keepsAssignee : relation (gmap string Booking) :=
  fun bks bks' =>
    ∀ b bk m, bks !! b = Some bk → b_mechanicId bk = Some m →
              ∃ bk', bks' !! b = Some bk' ∧ b_mechanicId bk' = Some m.

(** ** Status writes *)

(** A status change the engine can make: into ACCEPTED from PENDING or
    SEARCHING, or into NO_MECHANIC_AVAILABLE. *)
Definition statusStep (s s' : Status) : Prop :=
  s' = s ∨
  ((s = PENDING ∨ s = SEARCHING) ∧ s' = ACCEPTED) ∨
  s' = NO_MECHANIC_AVAILABLE.

(** Documents are never removed, and their status moves by [statusStep]. *)
Definition statusWrites : relation (gmap string Booking) :=
  fun bks bks' =>
    ∀ b bk, bks !! b = Some bk →
            ∃ bk', bks' !! b = Some bk' ∧
                   statusStep (b_status bk) (b_status bk').

(** ** Timers *)

(** Handles are never reused: every pending timer is older than the next
    handle [setTimeout] will return. *)
Definition timersFresh (w : World) : Prop :=
  map_Forall (fun t _ => t < nextTimer w) (timers w).

(** ** Offers, holders and the queue invariant *)

(** Who holds an offer for booking [b] after the emissions [log]: a
    mechanic holds it from [booking:new] until the offer is withdrawn
    ([booking:timeout], [booking:cancelled]) or taken ([booking:accepted]
    names the mechanic). *)
Definition offerStep (b : string) (h : gset string) (e : Emission)
  : gset string :=
  match e with
  | (MechanicRoom m, BookingNew b' _ _) =>
      if decide (b' = b) then h ∪ {[m]} else h
  | (MechanicRoom m, BookingTimeout b' _) =>
      if decide (b' = b) then h ∖ {[m]} else h
  | (MechanicRoom m, BookingCancelled b' _) =>
      if decide (b' = b) then h ∖ {[m]} else h
  | (UserRoom _, BookingAccepted b' m) =>
      if decide (b' = b) then h ∖ {[m]} else h
  | _ => h
  end.

(** The holders after the whole log, starting from nobody. *)
Definition holders (log : list Emission) (b : string) : gset string :=
  foldl (offerStep b) ∅ log.

(** The offers in a list of emissions: (mechanic, booking) of every
    [booking:new] sent to a mechanic room. *)
Definition offers (log : list Emission) : list (string * string) :=
  omap (fun e => match e with
                 | (MechanicRoom m, BookingNew b _ _) => Some (m, b)
                 | _ => None
                 end) log.

(** [e] is a [booking:new] sent to a mechanic room. *)
Definition isOffer (e : Emission) : bool :=
  match e with
  | (MechanicRoom _, BookingNew _ _ _) => true
  | _ => false
  end.

(** The current candidate of [b], as a set: empty when [b] has no queue. *)
Definition curset (aq : gmap string QueueData) (b : string) : gset string :=
  match aq !! b ≫= BookingQueueService.currentMechanic with
  | Some cur => {[ m_id cur ]}
  | None => ∅
  end.

(** [queueData.currentIndex] of the queue of [b], if it has one. *)
Definition cursor (w : World) (b : string) : option nat :=
  q_currentIndex <$> activeQueues w !! b.

(** Every prefix of the log has at most one holder per booking. *)
Definition exclusive (log : list Emission) : Prop :=
  ∀ k b, size (holders (take k log) b) ≤ 1.

(** What holds of the queues between two events: the index of a queue is
    inside its candidate list, a queue is stored under the id of its
    booking, that booking is in the collection, and only the current
    candidate can hold an offer. *)
Record Inv (w : World) : Prop := mkInv {
  inv_index : ∀ b q, activeQueues w !! b = Some q →
                     q_currentIndex q < length (q_mechanics q);
  inv_key : ∀ b q, activeQueues w !! b = Some q → b_id (q_booking q) = b;
  inv_known : ∀ b q, activeQueues w !! b = Some q → is_Some (bookings w !! b);
  inv_holders : ∀ b, holders (emitted w) b ⊆ curset (activeQueues w) b
}.

(** The shapes a handler's effect on the queues and the log can take:
    nothing offered and no queue touched ([Quiet]); the current candidate
    of [b] withdrawn and the next one offered ([Advance]); the last
    candidate withdrawn and the queue removed ([Exhaust]); the current
    candidate accepted and the queue removed ([Accepted]); a queue created
    for a new booking and its first candidate offered ([Created]). *)
Inductive Effect (w w' : World) : Prop :=
  | Quiet l :
      activeQueues w' = activeQueues w →
      emitted w' = emitted w ++ l →
      Forall (fun e => isOffer e = false) l →
      Effect w w'
  | Advance b q cur next t reason dist l :
      activeQueues w !! b = Some q →
      BookingQueueService.currentMechanic q = Some cur →
      q_mechanics q !! (q_currentIndex q + 1) = Some next →
      activeQueues w' =
        <[b := mkQueue (q_bookingId q) (q_booking q) (q_mechanics q)
                 (q_currentIndex q + 1) (q_startedAt q) t]> (activeQueues w) →
      emitted w' =
        emitted w ++
          (MechanicRoom (m_id cur), BookingTimeout b reason)
          :: (MechanicRoom (m_id next), BookingNew b dist TIMEOUT_SECONDS)
          :: l →
      Forall (fun e => isOffer e = false) l →
      Effect w w'
  | Exhaust b q cur reason l :
      activeQueues w !! b = Some q →
      BookingQueueService.currentMechanic q = Some cur →
      length (q_mechanics q) ≤ q_currentIndex q + 1 →
      activeQueues w' = delete b (activeQueues w) →
      emitted w' =
        emitted w ++ (MechanicRoom (m_id cur), BookingTimeout b reason) :: l →
      Forall (fun e => isOffer e = false) l →
      Effect w w'
  | Accepted b q cur u l :
      activeQueues w !! b = Some q →
      BookingQueueService.currentMechanic q = Some cur →
      activeQueues w' = delete b (activeQueues w) →
      emitted w' =
        emitted w ++ (UserRoom u, BookingAccepted b (m_id cur)) :: l →
      Forall (fun e => isOffer e = false) l →
      Effect w w'
  | Created b q cur dist l :
      bookings w !! b = None →
      is_Some (bookings w' !! b) →
      activeQueues w' = <[b := q]> (activeQueues w) →
      q_currentIndex q = 0 →
      BookingQueueService.currentMechanic q = Some cur →
      b_id (q_booking q) = b →
      emitted w' =
        emitted w ++
          (MechanicRoom (m_id cur), BookingNew b dist TIMEOUT_SECONDS) :: l →
      Forall (fun e => isOffer e = false) l →
      Effect w w'.

(** The notice [handleMechanicAccept] sends to a candidate further down the
    queue. *)
Definition cancelledNotice (b : string) (m : MechanicEntry) : Emission :=
  (MechanicRoom (m_id m), BookingCancelled b "Accepted by another mechanic").

(** Number of events of a run at which the index of [b]'s queue changes or
    the queue goes away. *)
Fixpoint moves (b : string) (evs : list Event) (w : World) : nat :=
  match evs with
  | [] => 0
  | ev :: evs' =>
      (if decide (cursor (fire ev w) b = cursor w b) then 0 else 1)
      + moves b evs' (fire ev w)
  end.

(** Candidates not yet passed over. *)
Definition remaining (w : World) (b : string) : nat :=
  match activeQueues w !! b with
  | Some q => length (q_mechanics q) - q_currentIndex q
  | None => 0
  end.

(** ** Example worlds *)

(** Nearby mechanics, as [findNearbyMechanics] returns them. *)
Definition annA : NearbyMechanic := mkNearby "A" (Some 3) (Some "Ann").

Definition bobB : NearbyMechanic := mkNearby "B" None None.

Definition calC : NearbyMechanic := mkNearby "C" (Some 7) (Some "Cal").

(** A fresh server on empty stores, Redis connected. *)
Definition world0 : World := startServer (mkStores ∅ ∅ ∅ ∅) true 100.

(** After booking [bk1] of user [u1] was created with candidates A, B. *)
Definition world1 : World := fire (CreateBooking "bk1" "u1" [annA; bobB]) world0.

(** The document of [bk1] as created, and its queue in [world1]. *)
Definition booking1 : Booking := mkBooking "bk1" "u1" None SEARCHING None.


(** The queue of [bk1] after A let the offer time out: B is current and
    timer 1 is pending. *)
Definition world2 : World := fire (TimerFires 0) world1.

(** [world1] after the user cancelled [bk1]. *)
Definition world1_cancelled : World := userCancels "bk1" world1.

(** A new process started on the stores left while [bk1] was offered to B
    (snapshot at index 1, booking still SEARCHING). *)
Definition world2_restarted : World := startServer (persisted world2) true 200.

(** A server whose collection holds one PENDING booking and no queue. *)
Definition world_pending : World :=
  startServer
    (mkStores {[ "bk9" := mkBooking "bk9" "u9" None PENDING None ]} ∅ ∅ ∅)
    true 0.


Definition run_accepted : World :=
  run [CreateBooking "bk1" "u1" [annA; bobB]; SocketAccept "A" "bk1"]
    (startServer (mkStores ∅ ∅ ∅ ∅) true 100).

(** * More of the program

    What follows covers code the dispatch engine above leaves out: the
    remaining method of the queue service, the handlers that move a booking
    through its life once a mechanic has it, and the socket hub. *)

(** ** [getQueueStatus] *)



(** ** Notions for the further properties of the queue *)

(** The handler returns: its promise is not rejected. *)
Definition returns {A} (r : Result A) : Prop :=
  match r with Ok _ _ => True | Throw _ _ => False end.






(** The TTL [saveQueueToRedis] gives a snapshot (line 359), in seconds. *)
Definition SNAPSHOT_TTL_SECONDS : nat := 600.

(** What [saveQueueToRedis] stores for a queue. *)
Definition persistedEntry (q : QueueData) : Snapshot * nat :=
  (BookingQueueService.toSnapshot q, 600).

(** Redis holds the snapshot of every active queue and nothing else under
    [booking:queue:*]. *)
Definition mirrored (w : World) : Prop :=
  redisConnected w = true ∧
  redisQueue w = persistedEntry <$> activeQueues w.

(** No event of the run is the loss of the Redis client. *)
Definition linkStaysUp (evs : list Event) : Prop :=
  Forall (fun ev => ev ≠ RedisLink false) evs.


(** The queue of booking [b] stands at index [k] of [ms], with the pending
    timer [t]; Redis has a client. *)
Record standsAt (w : World) (b u : string) (ms : list MechanicEntry)
    (k t : nat) : Prop := mkStands {
  sa_queue : ∃ q, activeQueues w !! b = Some q ∧
               q_mechanics q = ms ∧ q_currentIndex q = k ∧
               q_timer q = Some t ∧ b_id (q_booking q) = b ∧
               b_userId (q_booking q) = u;
  sa_timer : timers w !! t = Some b;
  sa_next : nextTimer w = S t;
  sa_link : redisConnected w = true
}.

(** The offers a queue has made when it stands at index [k]: one to each of
    the first [k + 1] candidates, in order. *)
Definition offersUpTo (b : string) (ms : list MechanicEntry) (k : nat)
  : list (string * string) :=
  (fun m => (m_id m, b)) <$> take (S k) ms.

(** The handles of the first [k] timers armed after [t], in order. *)
Definition timeouts (t k : nat) : list Event := TimerFires <$> seq t k.

(** ** More example states *)



(** * The booking after dispatch

    The handlers that move a booking through its life once a mechanic has
    it: [handleBookingStatusUpdate] of [socket.service.js], [cancelBooking],
    [updateJobStatus] and [rejectJob] of the booking controller, and the
    [updateStatus] method and [duration] virtual of [models/Booking.js].
    Identifiers are valid ObjectIds, [save] and [Notification.create]
    succeed, and every [new Date()] of one handler reads the same time. *)

Module Lifecycle.

(** [paymentStatus] enum of [models/Booking.js]. *)
Inductive PaymentStatus : Type :=
  | PAYMENT_PENDING | PAID | PARTIALLY_PAID | REFUNDED | FAILED.

#[global] Instance PaymentStatus_eq_dec : EqDecision PaymentStatus.
Proof. solve_decision. Defined.

(** [cancelledBy] enum. *)
Inductive Actor : Type := BY_USER | BY_MECHANIC | BY_SYSTEM | BY_ADMIN.

(** The fields of a booking document these handlers read or write; [job]
    holds [_id], [userId], [mechanicId], [status] and [acceptedAt].  Dates
    are milliseconds since the epoch; [None] is [undefined]. *)
Record Doc : Type := mkDoc {
  job : Booking;
  verificationOtp : option string;
  paymentStatus : PaymentStatus;
  walletAmount : option Q;
  searchStartedAt : option nat;
  assignedAt : option nat;
  enRouteAt : option nat;
  arrivedAt : option nat;
  startedAt : option nat;
  completedAt : option nat;
  cancelledAt : option nat;
  otpVerifiedAt : option nat;
  actualDuration : option Z;
  cancellationReason : option string;
  cancelledBy : option Actor;
  mechanicNotes : option string
}.

(** A notification document, as [sendBookingNotification] and
    [sendJobNotification] create it. *)
Inductive Notice : Type :=
  | BookingNotice (userId title body bookingId : string)
  | JobNotice (mechanicId title body bookingId priority : string).

(** What is sent over the sockets: [booking:status] with its message and
    [showOtp] flag ([None] where the payload has none),
    [booking:status:ack] with the new status or the error, and
    [booking:collect_payment]. *)
Inductive Push : Type :=
  | StatusPush (bookingId status message : string) (showOtp : option bool)
  | StatusAck (result : string + string)
  | CollectPayment (bookingId : string).

(** A call of [walletController.creditRefund(userId, amount, bookingId,
    description)]. *)
Record Refund : Type := mkRefund {
  rf_userId : string;
  rf_amount : Q;
  rf_bookingId : string;
  rf_description : string
}.

(** The response of an HTTP handler: status code and message. *)
Record Reply : Type := mkReply {
  code : nat;
  message : string
}.

(** The booking collection, the clock, the notifications created, what was
    emitted and the refunds asked of the wallet. *)
Record Site : Type := mkSite {
  docs : gmap string Doc;
  today : nat;
  notices : list Notice;
  pushed : list (Room * Push);
  refunds : list Refund
}.

(** ** [utils/apiResponse.js] *)

Definition success (msg : string) : Reply := mkReply 200 msg.
Definition badRequest (msg : string) : Reply := mkReply 400 msg.
Definition notFound (msg : string) : Reply := mkReply 404 msg.

(** ** [models/Booking.js] *)

(** The string a status is stored as. *)
Definition statusName (s : Status) : string :=
  match s with
  | PENDING => "PENDING" | SEARCHING => "SEARCHING" | ASSIGNED => "ASSIGNED"
  | ACCEPTED => "ACCEPTED" | EN_ROUTE => "EN_ROUTE" | ARRIVED => "ARRIVED"
  | IN_PROGRESS => "IN_PROGRESS" | COMPLETED => "COMPLETED"
  | CANCELLED => "CANCELLED" | EXPIRED => "EXPIRED"
  | NO_MECHANIC_AVAILABLE => "NO_MECHANIC_AVAILABLE"
  end.

Definition status (d : Doc) : Status := b_status (job d).

Section DocSetters.
Context (d : Doc).

Definition with_job (x : Booking) : Doc :=
  mkDoc x (verificationOtp d) (paymentStatus d) (walletAmount d)
    (searchStartedAt d) (assignedAt d) (enRouteAt d) (arrivedAt d)
    (startedAt d) (completedAt d) (cancelledAt d) (otpVerifiedAt d)
    (actualDuration d) (cancellationReason d) (cancelledBy d)
    (mechanicNotes d).
Definition with_paymentStatus (x : PaymentStatus) : Doc :=
  mkDoc (job d) (verificationOtp d) x (walletAmount d)
    (searchStartedAt d) (assignedAt d) (enRouteAt d) (arrivedAt d)
    (startedAt d) (completedAt d) (cancelledAt d) (otpVerifiedAt d)
    (actualDuration d) (cancellationReason d) (cancelledBy d)
    (mechanicNotes d).
Definition with_searchStartedAt (x : option nat) : Doc :=
  mkDoc (job d) (verificationOtp d) (paymentStatus d) (walletAmount d)
    x (assignedAt d) (enRouteAt d) (arrivedAt d)
    (startedAt d) (completedAt d) (cancelledAt d) (otpVerifiedAt d)
    (actualDuration d) (cancellationReason d) (cancelledBy d)
    (mechanicNotes d).
Definition with_assignedAt (x : option nat) : Doc :=
  mkDoc (job d) (verificationOtp d) (paymentStatus d) (walletAmount d)
    (searchStartedAt d) x (enRouteAt d) (arrivedAt d)
    (startedAt d) (completedAt d) (cancelledAt d) (otpVerifiedAt d)
    (actualDuration d) (cancellationReason d) (cancelledBy d)
    (mechanicNotes d).
Definition with_enRouteAt (x : option nat) : Doc :=
  mkDoc (job d) (verificationOtp d) (paymentStatus d) (walletAmount d)
    (searchStartedAt d) (assignedAt d) x (arrivedAt d)
    (startedAt d) (completedAt d) (cancelledAt d) (otpVerifiedAt d)
    (actualDuration d) (cancellationReason d) (cancelledBy d)
    (mechanicNotes d).
Definition with_arrivedAt (x : option nat) : Doc :=
  mkDoc (job d) (verificationOtp d) (paymentStatus d) (walletAmount d)
    (searchStartedAt d) (assignedAt d) (enRouteAt d) x
    (startedAt d) (completedAt d) (cancelledAt d) (otpVerifiedAt d)
    (actualDuration d) (cancellationReason d) (cancelledBy d)
    (mechanicNotes d).
Definition with_startedAt (x : option nat) : Doc :=
  mkDoc (job d) (verificationOtp d) (paymentStatus d) (walletAmount d)
    (searchStartedAt d) (assignedAt d) (enRouteAt d) (arrivedAt d)
    x (completedAt d) (cancelledAt d) (otpVerifiedAt d)
    (actualDuration d) (cancellationReason d) (cancelledBy d)
    (mechanicNotes d).
Definition with_completedAt (x : option nat) : Doc :=
  mkDoc (job d) (verificationOtp d) (paymentStatus d) (walletAmount d)
    (searchStartedAt d) (assignedAt d) (enRouteAt d) (arrivedAt d)
    (startedAt d) x (cancelledAt d) (otpVerifiedAt d)
    (actualDuration d) (cancellationReason d) (cancelledBy d)
    (mechanicNotes d).
Definition with_otpVerifiedAt (x : option nat) : Doc :=
  mkDoc (job d) (verificationOtp d) (paymentStatus d) (walletAmount d)
    (searchStartedAt d) (assignedAt d) (enRouteAt d) (arrivedAt d)
    (startedAt d) (completedAt d) (cancelledAt d) x
    (actualDuration d) (cancellationReason d) (cancelledBy d)
    (mechanicNotes d).
Definition with_actualDuration (x : option Z) : Doc :=
  mkDoc (job d) (verificationOtp d) (paymentStatus d) (walletAmount d)
    (searchStartedAt d) (assignedAt d) (enRouteAt d) (arrivedAt d)
    (startedAt d) (completedAt d) (cancelledAt d) (otpVerifiedAt d)
    x (cancellationReason d) (cancelledBy d) (mechanicNotes d).
Definition with_cancellation (t : option nat) (reason : option string)
    (by_ : option Actor) : Doc :=
  mkDoc (job d) (verificationOtp d) (paymentStatus d) (walletAmount d)
    (searchStartedAt d) (assignedAt d) (enRouteAt d) (arrivedAt d)
    (startedAt d) (completedAt d) t (otpVerifiedAt d)
    (actualDuration d) reason by_ (mechanicNotes d).
Definition with_mechanicNotes (x : option string) : Doc :=
  mkDoc (job d) (verificationOtp d) (paymentStatus d) (walletAmount d)
    (searchStartedAt d) (assignedAt d) (enRouteAt d) (arrivedAt d)
    (startedAt d) (completedAt d) (cancelledAt d) (otpVerifiedAt d)
    (actualDuration d) (cancellationReason d) (cancelledBy d) x.
End DocSetters.

(** [this.status = s] *)
Definition with_status (d : Doc) (s : Status) : Doc :=
  with_job d (setStatus s (job d)).

(** [this.mechanicId = null] *)
Definition without_mechanic (d : Doc) : Doc :=
  with_job d
    (mkBooking (b_id (job d)) (b_userId (job d)) None (b_status (job d))
       (b_acceptedAt (job d))).

(** [this.acceptedAt = t] *)
Definition with_acceptedAt (d : Doc) (t : option nat) : Doc :=
  with_job d
    (mkBooking (b_id (job d)) (b_userId (job d)) (b_mechanicId (job d))
       (b_status (job d)) t).

(** [Math.round(x / 60000)] for an integer number of milliseconds [x]: the
    nearest integer, a half going up. *)
Definition roundMinutes (x : Z) : Z := ((x + 30000) / 60000)%Z.

(** The [duration] virtual (lines 204-209). *)
Definition duration (d : Doc) : option Z :=
  match completedAt d, startedAt d with
  | Some c, Some s => Some (roundMinutes (Z.of_nat c - Z.of_nat s))
  | _, _ => None
  end.

(** [additionalData] of [updateStatus]; the default is [{}]. *)
Record Cancellation : Type := mkCancellation {
  cn_reason : option string;
  cn_cancelledBy : option Actor
}.

Definition noData : Cancellation := mkCancellation None None.

(** [updateStatus] (lines 212-249), up to the [save]: the status, and the
    timestamp that goes with it. *)
Definition updateStatus (newStatus : Status) (additionalData : Cancellation)
    (now : nat) (d : Doc) : Doc :=
  let d := with_status d newStatus in
  match newStatus with
  | SEARCHING => with_searchStartedAt d (Some now)
  | ASSIGNED => with_assignedAt d (Some now)
  | ACCEPTED => with_acceptedAt d (Some now)
  | EN_ROUTE => with_enRouteAt d (Some now)
  | ARRIVED => with_arrivedAt d (Some now)
  | IN_PROGRESS => with_startedAt d (Some now)
  | COMPLETED =>
      let d := with_completedAt d (Some now) in
      match startedAt d with
      | Some s =>
          with_actualDuration d
            (Some (roundMinutes (Z.of_nat now - Z.of_nat s)))
      | None => d
      end
  | CANCELLED =>
      with_cancellation d (Some now) (cn_reason additionalData)
        (cn_cancelledBy additionalData)
  | _ => d
  end.

(** ** Primitive effects *)

Section SiteSetters.
Context (s : Site).
Definition set_docs (x : gmap string Doc) : Site :=
  mkSite x (today s) (notices s) (pushed s) (refunds s).
Definition set_today (x : nat) : Site :=
  mkSite (docs s) x (notices s) (pushed s) (refunds s).
Definition set_notices (x : list Notice) : Site :=
  mkSite (docs s) (today s) x (pushed s) (refunds s).
Definition set_pushed (x : list (Room * Push)) : Site :=
  mkSite (docs s) (today s) (notices s) x (refunds s).
Definition set_refunds (x : list Refund) : Site :=
  mkSite (docs s) (today s) (notices s) (pushed s) x.
End SiteSetters.

(** [booking.save()] *)
Definition save (d : Doc) (s : Site) : Site :=
  set_docs s (<[b_id (job d) := d]> (docs s)).

(** [socketService.emitToUser], [emitToMechanic] and [socket.emit]. *)
Definition push (r : Room) (p : Push) (s : Site) : Site :=
  set_pushed s (pushed s ++ [(r, p)]).

(** [Notification.create] *)
Definition notify (n : Notice) (s : Site) : Site :=
  set_notices s (notices s ++ [n]).

(** [walletController.creditRefund] *)
Definition creditRefund (r : Refund) (s : Site) : Site :=
  set_refunds s (refunds s ++ [r]).

(** [Booking.findOne({ _id, userId })] *)
Definition findForUser (id userId : string) (s : Site) : option Doc :=
  match docs s !! id with
  | Some d => if decide (b_userId (job d) = userId) then Some d else None
  | None => None
  end.

(** [Booking.findOne({ _id, mechanicId })] *)
Definition findForMechanic (id mechanicId : string) (s : Site) : option Doc :=
  match docs s !! id with
  | Some d =>
      if decide (b_mechanicId (job d) = Some mechanicId) then Some d else None
  | None => None
  end.

(** [list.includes(status)] on status names, with the status found. *)
Definition named (allowed : list Status) (status : string) : option Status :=
  find (fun s => bool_decide (statusName s = status)) allowed.

(** ** [handleBookingStatusUpdate] of [socket.service.js] *)

Module StatusSocket.

(** [validTransitions] (lines 325-330); [None] is [undefined]. *)
Definition validTransitions (from : Status) : option (list Status) :=
  match from with
  | ACCEPTED => Some [EN_ROUTE; CANCELLED]
  | EN_ROUTE => Some [ARRIVED; CANCELLED]
  | ARRIVED => Some [IN_PROGRESS; CANCELLED]
  | IN_PROGRESS => Some [COMPLETED; CANCELLED]
  | _ => None
  end.

(** [getStatusMessage] (lines 484-494). *)
Definition getStatusMessage (status : string) : string :=
  if decide (status = "ACCEPTED") then "Your booking has been accepted!"
  else if decide (status = "EN_ROUTE") then
    "Mechanic is on the way to your location"
  else if decide (status = "ARRIVED") then
    "Mechanic has arrived at your location"
  else if decide (status = "IN_PROGRESS") then
    "Work has started on your vehicle"
  else if decide (status = "COMPLETED") then "Service completed successfully!"
  else if decide (status = "CANCELLED") then "Booking has been cancelled"
  else "Booking status updated".

(** The timestamp written with the status (lines 341-344). *)
Definition stamp (st : Status) (now : nat) (d : Doc) : Doc :=
  match st with
  | EN_ROUTE => with_enRouteAt d (Some now)
  | ARRIVED => with_arrivedAt d (Some now)
  | IN_PROGRESS => with_startedAt d (Some now)
  | COMPLETED => with_completedAt d (Some now)
  | _ => d
  end.

(** A value in a template literal: a string as it is, [undefined] by its
    name. *)
Definition interpolated (value : option string) : string :=
  match value with
  | Some v => v
  | None => "undefined"
  end.

(** [handleBookingStatusUpdate] (lines 313-360). [sender] is
    [socket.userId]; [status] is the string received, [None] when the
    packet has no [status], so that the variable is [undefined]; [notes] is
    [None] when the value received is falsy. *)
Definition handleBookingStatusUpdate (sender bookingId : string)
    (status notes : option string) (s : Site) : Site :=
  match docs s !! bookingId with
  | None => push (SocketOf sender) (StatusAck (inr "Booking not found")) s
  | Some booking =>
      match validTransitions (Lifecycle.status booking) ≫=
            (fun allowed => status ≫= named allowed) with
      | None =>
          push (SocketOf sender)
            (StatusAck
               (inr ("Cannot transition from " +:+
                     statusName (Lifecycle.status booking) +:+ " to " +:+
                     interpolated status)))
            s
      | Some st =>
          let status := interpolated status in
          let booking := stamp st (today s) (with_status booking st) in
          let booking :=
            match notes with
            | Some n => with_mechanicNotes booking (Some n)
            | None => booking
            end in
          let s := save booking s in
          let s :=
            push (UserRoom (b_userId (job booking)))
              (StatusPush (b_id (job booking)) status
                 (getStatusMessage status) None) s in
          push (SocketOf sender) (StatusAck (inl status)) s
      end
  end.

End StatusSocket.

(** ** The booking controller *)

Module BookingController.

(** [cancellableStatuses] (line 201). *)
Definition cancellableStatuses : list Status :=
  [PENDING; SEARCHING; ASSIGNED; ACCEPTED].

(** [booking.paymentStatus === 'PAID' &&
     booking.paymentDetails?.walletAmount > 0] *)
Definition refundDue (d : Doc) : option Q :=
  match walletAmount d with
  | Some a =>
      if decide (paymentStatus d = PAID) then
        if Qlt_le_dec 0 a then Some a else None
      else None
  | None => None
  end.

(** [cancelBooking] (lines 189-233); [userId] is [req.user.id]. *)
Definition cancelBooking (userId id : string) (reason : option string)
    (s : Site) : Reply * Site :=
  match findForUser id userId s with
  | None => (notFound "Booking not found", s)
  | Some booking =>
      if bool_decide (status booking ∈ cancellableStatuses) then
        let booking :=
          updateStatus CANCELLED (mkCancellation reason (Some BY_USER))
            (today s) booking in
        let s := save booking s in
        let s :=
          match refundDue booking with
          | Some a =>
              creditRefund
                (mkRefund userId a (b_id (job booking))
                   "Booking cancellation refund") s
          | None => s
          end in
        let s :=
          match b_mechanicId (job booking) with
          | Some m =>
              notify
                (JobNotice m "Booking Cancelled"
                   "Customer has cancelled the booking" (b_id (job booking))
                   "NORMAL") s
          | None => s
          end in
        (success "Booking cancelled successfully", s)
      else
        (badRequest "Booking cannot be cancelled at this stage", s)
  end.

(** [validTransitions] of [updateJobStatus] (lines 385-391). *)
Definition validTransitions (from : Status) : option (list Status) :=
  match from with
  | ASSIGNED => Some [EN_ROUTE; ARRIVED; CANCELLED]
  | ACCEPTED => Some [EN_ROUTE; ARRIVED; IN_PROGRESS; CANCELLED]
  | EN_ROUTE => Some [ARRIVED; IN_PROGRESS; CANCELLED]
  | ARRIVED => Some [IN_PROGRESS; CANCELLED]
  | IN_PROGRESS => Some [COMPLETED]
  | _ => None
  end.

(** [notificationMessages] (lines 426-431): title and body. *)
Definition notificationMessages (st : Status) : option (string * string) :=
  match st with
  | EN_ROUTE =>
      Some ("Mechanic On The Way", "The mechanic is heading to your location")
  | ARRIVED =>
      Some ("Mechanic Arrived",
            "The mechanic has arrived. Share the OTP to start service.")
  | IN_PROGRESS =>
      Some ("Work Started",
            "The mechanic has verified OTP and started working on your vehicle")
  | COMPLETED =>
      Some ("Service Completed",
            "Your service has been completed. Please proceed with payment.")
  | _ => None
  end.

(** A stored string that is not falsy. *)
Definition truthy (x : option string) : option string :=
  match x with
  | Some "" => None
  | x => x
  end.

Section Otp.
(** [String.prototype.trim]. *)
Variable trim : string → string.

(** The OTP check of lines 399-416: the error, or the document with
    [otpVerifiedAt] and [startedAt] set.  [otp] is [None] for a falsy value
    and [Some (String(otp))] otherwise. *)
Definition verifyOtp (otp : option string) (now : nat) (booking : Doc)
  : string + Doc :=
  match truthy (verificationOtp booking) with
  | None => inl "No verification OTP found for this booking"
  | Some stored =>
      match otp with
      | None => inl "OTP is required to start service"
      | Some provided =>
          if decide (trim provided = trim stored) then
            inr (with_startedAt (with_otpVerifiedAt booking (Some now))
                   (Some now))
          else
            inl "Invalid OTP. Please ask customer for the correct 4-digit OTP."
      end
  end.

(** The timestamps of lines 419-421. *)
Definition stamp (st : Status) (now : nat) (d : Doc) : Doc :=
  match st with
  | EN_ROUTE => with_enRouteAt d (Some now)
  | ARRIVED => with_arrivedAt d (Some now)
  | COMPLETED => with_completedAt d (Some now)
  | _ => d
  end.

(** What follows the checks (lines 418-465). *)
Definition applyStatus (status : string) (st : Status) (booking : Doc)
    (s : Site) : Reply * Site :=
  let booking := stamp st (today s) booking in
  let booking := updateStatus st noData (today s) booking in
  let s := save booking s in
  let s :=
    match notificationMessages st with
    | Some (title, body) =>
        notify
          (BookingNotice (b_userId (job booking)) title body
             (b_id (job booking))) s
    | None => s
    end in
  let s :=
    push (UserRoom (b_userId (job booking)))
      (StatusPush (b_id (job booking)) status
         (match notificationMessages st with
          | Some (_, body) => body
          | None => "Status changed to " +:+ status
          end)
         (Some (bool_decide (st = ARRIVED)))) s in
  let s :=
    if decide (st = COMPLETED) then
      let booking := with_paymentStatus booking PAYMENT_PENDING in
      let s := save booking s in
      match b_mechanicId (job booking) with
      | Some m => push (MechanicRoom m) (CollectPayment (b_id (job booking))) s
      | None => push (MechanicRoom "undefined")
                  (CollectPayment (b_id (job booking))) s
      end
    else s in
  (success ("Status updated to " +:+ status), s).

(** [updateJobStatus] (lines 363-466); [mechanicId] is [req.mechanic.id],
    [status] is the value received ([""] for a falsy one). *)
Definition updateJobStatus (mechanicId id status : string)
    (otp : option string) (s : Site) : Reply * Site :=
  if decide (status = "") then (badRequest "Status is required", s)
  else
    match findForMechanic id mechanicId s with
    | None => (notFound "Job not found", s)
    | Some booking =>
        match validTransitions (Lifecycle.status booking) ≫=
              (fun allowed => named allowed status) with
        | None =>
            (badRequest
               ("Cannot change status from " +:+
                statusName (Lifecycle.status booking) +:+ " to " +:+ status),
             s)
        | Some st =>
            if decide (st = IN_PROGRESS) then
              match verifyOtp otp (today s) booking with
              | inl err => (badRequest err, s)
              | inr booking => applyStatus status st booking s
              end
            else applyStatus status st booking s
        end
    end.

End Otp.

(** [rejectJob] (lines 600-622). *)
Definition rejectJob (mechanicId id : string) (s : Site) : Reply * Site :=
  match findForMechanic id mechanicId s with
  | Some booking =>
      if decide (status booking = ASSIGNED) then
        let booking := with_status (without_mechanic booking) SEARCHING in
        let booking := with_searchStartedAt booking (Some (today s)) in
        (success "Job rejected", save booking s)
      else (notFound "Job not found or already processed", s)
  | None => (notFound "Job not found or already processed", s)
  end.

End BookingController.

End Lifecycle.

(** ** Runs of the lifecycle handlers *)

Module LifecycleRuns.
Import Lifecycle.

(** What reaches these handlers. *)
Inductive Action : Type :=
  | Cancel (userId id : string) (reason : option string)
  | UpdateJob (mechanicId id status : string) (otp : option string)
  | RejectJob (mechanicId id : string)
  | SocketStatus (sender id : string) (status notes : option string)
  | Wait (dt : nat).

Section Runs.
Variable trim : string → string.

(** The state after the handler of one action. *)
Definition act (a : Action) (s : Site) : Site :=
  match a with
  | Cancel u id reason => (BookingController.cancelBooking u id reason s).2
  | UpdateJob m id st otp =>
      (BookingController.updateJobStatus trim m id st otp s).2
  | RejectJob m id => (BookingController.rejectJob m id s).2
  | SocketStatus sender id st notes =>
      StatusSocket.handleBookingStatusUpdate sender id st notes s
  | Wait dt => set_today s (today s + dt)
  end.

Fixpoint acts (l : list Action) (s : Site) : Site :=
  match l with
  | [] => s
  | a :: l' => acts l' (act a s)
  end.

End Runs.

(** Every document is stored under its [_id]. *)
Definition keyed (s : Site) : Prop :=
  ∀ id d, docs s !! id = Some d → b_id (job d) = id.

(** How far a booking has come. *)
Definition stage (st : Status) : nat :=
  match st with
  | PENDING => 0 | ASSIGNED => 1 | SEARCHING => 2 | ACCEPTED => 3
  | EN_ROUTE => 4 | ARRIVED => 5 | IN_PROGRESS => 6 | COMPLETED => 7
  | CANCELLED => 8 | EXPIRED => 8 | NO_MECHANIC_AVAILABLE => 8
  end.

(** The status of the booking [id], if there is one. *)
Definition statusOf (s : Site) (id : string) : option Status :=
  status <$> docs s !! id.

(** Number of actions of a run at which the status of [id] changes. *)
Fixpoint changes (trim : string → string) (id : string) (l : list Action)
    (s : Site) : nat :=
  match l with
  | [] => 0
  | a :: l' =>
      (if decide (statusOf (act trim a s) id = statusOf s id) then 0 else 1)
      + changes trim id l' (act trim a s)
  end.

(** The refunds asked for booking [id]. *)
Definition refundsOf (s : Site) (id : string) : list Refund :=
  filter (fun r => rf_bookingId r = id) (refunds s).

(** The two shapes of a handler's effect on the collection: none, or one
    document that was not yet COMPLETED replaced by one further on in its
    life, with at most one refund, asked when it is cancelled. *)
Inductive Moved (s s' : Site) : Prop :=
  | Unmoved :
      docs s' = docs s → refunds s' = refunds s → Moved s s'
  | Forward k d d' rs :
      docs s !! k = Some d → b_id (job d') = k →
      stage (status d) < stage (status d') →
      stage (status d) < 7 →
      docs s' = <[k := d']> (docs s) →
      refunds s' = refunds s ++ rs →
      (rs = [] ∨
       status d' = CANCELLED ∧ ∃ u a desc, rs = [mkRefund u a k desc]) →
      Moved s s'.

(** The pairs of the table of [handleBookingStatusUpdate]. *)
Definition socketMoves : list (Status * Status) :=
  [(ACCEPTED, EN_ROUTE); (ACCEPTED, CANCELLED); (EN_ROUTE, ARRIVED);
   (EN_ROUTE, CANCELLED); (ARRIVED, IN_PROGRESS); (ARRIVED, CANCELLED);
   (IN_PROGRESS, COMPLETED); (IN_PROGRESS, CANCELLED)].

(** The document [applyStatus] leaves in the collection. *)
Definition applied (st : Status) (now : nat) (d : Doc) : Doc :=
  let d' := updateStatus st noData now (BookingController.stamp st now d) in
  if decide (st = COMPLETED) then with_paymentStatus d' PAYMENT_PENDING else d'.

(** ** Example bookings *)

(** A paid booking accepted by mechanic A, and one whose work started at
    [400]. *)
Definition doc1 : Doc :=
  mkDoc (mkBooking "bk1" "u1" (Some "A") ACCEPTED (Some 150)) (Some "4821")
    PAID (Some (5 # 1)%Q) None None None None None None None None None None
    None None.

Definition doc2 : Doc :=
  mkDoc (mkBooking "bk2" "u2" (Some "B") IN_PROGRESS (Some 150)) (Some "7700")
    PAYMENT_PENDING None None None None None (Some 400) None None
    (Some 400) None None None None.

Definition site1 : Site :=
  mkSite {[ "bk1" := doc1 ]} 1000 [] [] [].

Definition site2 : Site :=
  mkSite {[ "bk2" := doc2 ]} 4000 [] [] [].

End LifecycleRuns.

(** * The socket hub

    The connection handler of [socket.service.js] with its two caches
    [userSockets] and [mechanicSockets], [handleUserTracking],
    [handleMechanicLocation], [handleDisconnect], [broadcastNewBooking],
    [sendNotification] and [notifyPaymentReceived], on one server.  A room
    is its name; a socket is in the rooms it has joined, and
    [io.to(room).emit] reaches the connected sockets that are in the
    room. *)

Module Hub.

(** The payload of [mechanic:location]. *)
Record Position : Type := mkPosition {
  latitude : Q;
  longitude : Q;
  heading : Q;
  speed : Q
}.

(** What a socket receives: [booking:new], [payment:received],
    [mechanic:location], [user:track:ack] and [notification], with the
    payload fields that tell them apart. *)
Inductive Delivery : Type :=
  | NewBooking (bookingId : string) (distance : option nat)
  | PaymentReceived (bookingId : string) (amount : Q)
  | MechanicLocation (mechanicId : string) (p : Position)
  | TrackAck (tracking : bool)
  | Notification (title : string).

(** A connected socket: [socket.userId] and [socket.userType] as the
    middleware set them, the rooms it is in and what was emitted to it. *)
Record Socket : Type := mkSocket {
  userId : string;
  userType : string;
  rooms : gset string;
  inbox : list Delivery
}.

(** [io.sockets.sockets], the two caches, [redisService.isConnected] and
    the [lastLocation] of the mechanic documents ([None]: not set). *)
Record State : Type := mkState {
  sockets : gmap string Socket;
  userSockets : gmap string string;
  mechanicSockets : gmap string string;
  isConnected : bool;
  lastLocation : gmap string (option (Q * Q))
}.

Section Setters.
Context (h : State).
Definition set_sockets (x : gmap string Socket) : State :=
  mkState x (userSockets h) (mechanicSockets h) (isConnected h)
    (lastLocation h).
Definition set_userSockets (x : gmap string string) : State :=
  mkState (sockets h) x (mechanicSockets h) (isConnected h) (lastLocation h).
Definition set_mechanicSockets (x : gmap string string) : State :=
  mkState (sockets h) (userSockets h) x (isConnected h) (lastLocation h).
Definition set_isConnected (x : bool) : State :=
  mkState (sockets h) (userSockets h) (mechanicSockets h) x (lastLocation h).
Definition set_lastLocation (x : gmap string (option (Q * Q))) : State :=
  mkState (sockets h) (userSockets h) (mechanicSockets h) (isConnected h) x.
End Setters.

(** ** socket.io *)

Definition deliver (e : Delivery) (k : Socket) : Socket :=
  mkSocket (userId k) (userType k) (rooms k) (inbox k ++ [e]).

Definition joined (room : string) (k : Socket) : Socket :=
  mkSocket (userId k) (userType k) ({[ room ]} ∪ rooms k) (inbox k).

Definition left (room : string) (k : Socket) : Socket :=
  mkSocket (userId k) (userType k) (rooms k ∖ {[ room ]}) (inbox k).

(** [socket.emit], [socket.join] and [socket.leave] on the socket [id]. *)
Definition onSocket (id : string) (f : Socket → Socket) (h : State) : State :=
  set_sockets h (alter f id (sockets h)).

(** [io.to(room).emit(...)] *)
Definition emitTo (room : string) (e : Delivery) (h : State) : State :=
  set_sockets h
    ((fun k => if decide (room ∈ rooms k) then deliver e k else k)
       <$> sockets h).

(** ** [socket.service.js] *)

(** The ['connection'] handler (lines 109-123) for the socket [id], which
    socket.io has registered in its own room. *)
Definition onConnection (id uid utype : string) (h : State) : State :=
  let h := set_sockets h (<[id := mkSocket uid utype {[ id ]} []]> (sockets h)) in
  let h :=
    if decide (utype = "MECHANIC") then
      let h := set_mechanicSockets h (<[uid := id]> (mechanicSockets h)) in
      onSocket id (joined ("mechanic:" +:+ uid)) h
    else
      let h := set_userSockets h (<[uid := id]> (userSockets h)) in
      onSocket id (joined ("user:" +:+ uid)) h in
  onSocket id (joined uid) h.

(** [handleDisconnect] (lines 380-388). *)
Definition handleDisconnect (socket : Socket) (h : State) : State :=
  if decide (userType socket = "MECHANIC") then
    set_mechanicSockets h (delete (userId socket) (mechanicSockets h))
  else
    set_userSockets h (delete (userId socket) (userSockets h)).

(** [handleUserTracking] (lines 365-375). *)
Definition handleUserTracking (id mechanicId action : string) (h : State)
  : State :=
  if decide (action = "start") then
    let h := onSocket id (joined ("tracking:" +:+ mechanicId)) h in
    onSocket id (deliver (TrackAck true)) h
  else
    let h := onSocket id (left ("tracking:" +:+ mechanicId)) h in
    onSocket id (deliver (TrackAck false)) h.

(** [handleMechanicLocation] (lines 167-204).  [redisService] has no
    [updateMechanicLocation]: with [isConnected] the call throws a
    TypeError, which the [catch] of line 201 logs.
    [Mechanic.findByIdAndUpdate] changes a document that exists. *)
Definition handleMechanicLocation (socket : Socket) (p : Position)
    (h : State) : State :=
  let mechanicId := userId socket in
  if isConnected h then h
  else
    let h :=
      set_lastLocation h
        (alter (fun _ => Some (latitude p, longitude p)) mechanicId
           (lastLocation h)) in
    emitTo ("tracking:" +:+ mechanicId) (MechanicLocation mechanicId p) h.

(** [emitToUser] and [emitToMechanic] (lines 393-402). *)
Definition emitToUser (uid : string) (e : Delivery) (h : State) : State :=
  emitTo ("user:" +:+ uid) e h.

Definition emitToMechanic (mechanicId : string) (e : Delivery) (h : State)
  : State :=
  emitTo ("mechanic:" +:+ mechanicId) e h.

(** A cached socket id that is not falsy. *)
Definition cached (cache : gmap string string) (key : string)
  : option string :=
  match cache !! key with
  | Some "" => None
  | x => x
  end.

(** One iteration of the loop of [broadcastNewBooking] (lines 426-452). *)
Definition sendNew (bookingId : string) (h : State)
    (mechanic : NearbyMechanic) : State :=
  let mechanicId := nm_id mechanic in
  let dataWithDistance :=
    NewBooking bookingId
      (match nm_distance mechanic with Some 0 => None | d => d end) in
  match cached (mechanicSockets h) mechanicId with
  | Some socketId =>
      match sockets h !! socketId with
      | Some _ =>
          let h := onSocket socketId (joined ("booking:" +:+ bookingId)) h in
          onSocket socketId (deliver dataWithDistance) h
      | None => h
      end
  | None => emitTo ("mechanic:" +:+ mechanicId) dataWithDistance h
  end.

(** [broadcastNewBooking] (lines 407-453). *)
Definition broadcastNewBooking (bookingId : string)
    (nearbyMechanics : list NearbyMechanic) (h : State) : State :=
  fold_left (sendNew bookingId) nearbyMechanics h.

(** [sendNotification] (lines 458-461). *)
Definition sendNotification (uid utype title : string) (h : State) : State :=
  let room :=
    if decide (utype = "MECHANIC") then "mechanic:" +:+ uid
    else "user:" +:+ uid in
  emitTo room (Notification title) h.

(** [notifyPaymentReceived] (lines 466-479); [mechanicId] is [None] for
    [undefined]. *)
Definition notifyPaymentReceived (mechanicId : option string)
    (bookingId : string) (amount : Q) (h : State) : State :=
  match mechanicId with
  | None => h
  | Some m =>
      if decide (m = "") then h
      else
        let h :=
          match cached (mechanicSockets h) m with
          | Some socketId =>
              match sockets h !! socketId with
              | Some _ =>
                  onSocket socketId
                    (deliver (PaymentReceived bookingId amount)) h
              | None => h
              end
          | None => h
          end in
        emitTo ("mechanic:" +:+ m) (PaymentReceived bookingId amount) h
  end.

(** ** Runs *)

(** What happens to the hub.  A connection gets from socket.io an id that is
    not empty and that no connected socket has; a socket that is gone sends
    nothing. *)
Inductive Happening : Type :=
  | Connect (id uid utype : string)
  | Disconnect (id : string)
  | Track (id mechanicId action : string)
  | Location (id : string) (p : Position)
  | Broadcast (bookingId : string) (nearby : list NearbyMechanic)
  | PaymentNotice (mechanicId : option string) (bookingId : string)
      (amount : Q)
  | Notify (uid utype title : string)
  | Redis (up : bool).

Definition happen (e : Happening) (h : State) : State :=
  match e with
  | Connect id uid utype =>
      if decide (id = "") then h
      else
        match sockets h !! id with
        | Some _ => h
        | None => onConnection id uid utype h
        end
  | Disconnect id =>
      match sockets h !! id with
      | Some socket =>
          handleDisconnect socket (set_sockets h (delete id (sockets h)))
      | None => h
      end
  | Track id mechanicId action =>
      match sockets h !! id with
      | Some _ => handleUserTracking id mechanicId action h
      | None => h
      end
  | Location id p =>
      match sockets h !! id with
      | Some socket => handleMechanicLocation socket p h
      | None => h
      end
  | Broadcast bookingId nearby => broadcastNewBooking bookingId nearby h
  | PaymentNotice mechanicId bookingId amount =>
      notifyPaymentReceived mechanicId bookingId amount h
  | Notify uid utype title => sendNotification uid utype title h
  | Redis up => set_isConnected h up
  end.

Definition happens (l : list Happening) (h : State) : State :=
  fold_left (fun h e => happen e h) l h.

(** The hub of a server that has started; the mechanic documents are
    [located]. *)
Definition started (up : bool) (located : gmap string (option (Q * Q)))
  : State :=
  mkState ∅ ∅ ∅ up located.

End Hub.

(** ** Notions for the properties of the hub *)

Module HubFacts.
Import Hub.

(** The room a socket joins for its user when it connects. *)
Definition homeRoom (k : Socket) : string :=
  if decide (userType k = "MECHANIC") then "mechanic:" +:+ userId k
  else "user:" +:+ userId k.

(** The caches name connected sockets of the right user and kind, and every
    connected socket is in its home room. *)
Record Sound (h : State) : Prop := mkSound {
  sound_mechanic : ∀ m id, mechanicSockets h !! m = Some id →
    id ≠ "" ∧ ∃ k, sockets h !! id = Some k ∧ userId k = m ∧
                   userType k = "MECHANIC";
  sound_user : ∀ u id, userSockets h !! u = Some id →
    id ≠ "" ∧ ∃ k, sockets h !! id = Some k ∧ userId k = u ∧
                   userType k ≠ "MECHANIC";
  sound_home : ∀ id k, sockets h !! id = Some k → homeRoom k ∈ rooms k
}.

(** A socket that stays connected: the same user and type, an inbox that
    has only grown, and still in its home room if it was. *)
Definition steady (k k' : Socket) : Prop :=
  userId k' = userId k ∧ userType k' = userType k ∧
  (∃ l, inbox k' = inbox k ++ l) ∧
  (homeRoom k ∈ rooms k → homeRoom k ∈ rooms k').

Definition Steady (h h' : State) : Prop :=
  userSockets h' = userSockets h ∧ mechanicSockets h' = mechanicSockets h ∧
  ∀ id, match sockets h !! id, sockets h' !! id with
        | Some k, Some k' => steady k k'
        | None, None => True
        | _, _ => False
        end.

(** The distance sent with [booking:new]. *)
Definition sentDistance (nm : NearbyMechanic) : option nat :=
  match nm_distance nm with Some 0 => None | d => d end.

(** Mechanic A and user u1 are connected, on the sockets s1 and s2. *)
Definition hub1 : State :=
  happens [Connect "s1" "A" "MECHANIC"; Connect "s2" "u1" "USER"]
    (started false ∅).

Definition socket1 : Socket :=
  joined "A" (joined "mechanic:A" (mkSocket "A" "MECHANIC" {[ "s1" ]} [])).

Definition socket2 : Socket :=
  joined "u1" (joined "user:u1" (mkSocket "u1" "USER" {[ "s2" ]} [])).

End HubFacts.

(** * Handlers in flight

    The handlers of the dispatch engine again, with their [await]s.  An
    [async] function runs until its next [await] without interruption;
    there it is suspended, and other handlers of the same process run
    before it goes on.  The code between two suspensions is a step of the
    state monad above; a handler is a sequence of such steps.  Every
    [await] of the source is a suspension: of a call of [redisService] or
    of Mongoose, one; of a method of the queue service, those of the method
    and one more when it has settled.  The Redis client is there, and its
    commands and those of MongoDB succeed; a command takes effect when it
    is issued, and its answer is awaited. *)

Module Concurrent.

(** The state the handlers share, and the [queueData] objects that have
    left [activeQueues], as they were then: a handler that holds such an
    object still reads it.  Objects are named by their booking: only
    [createBooking] calls [startQueue], on the document it has just
    created, so a booking gets one object at most. *)
Record Memory : Type := mkMemory {
  world : World;
  detached : gmap string QueueData
}.

(** A handler in flight: what it does until its next suspension. *)
Inductive Async (A : Type) : Type :=
  | Run (body : Memory → Outcome A)
with Outcome (A : Type) : Type :=
  | Returned (a : A) (s : Memory)
  | Thrown (msg : string) (s : Memory)
  | Awaiting (rest : Async A) (s : Memory).
Arguments Run {A} body.
Arguments Returned {A} a s.
Arguments Thrown {A} msg s.
Arguments Awaiting {A} rest s.

Definition step {A} (x : Async A) : Memory → Outcome A :=
  match x with Run body => body end.

(** [return a] and [throw new Error(msg)] *)
Definition resolve {A} (a : A) : Async A := Run (fun s => Returned a s).
Definition reject {A} (msg : string) : Async A := Run (fun s => Thrown msg s).

(** [x] and then [k], with no suspension in between. *)
Fixpoint andThen {A B} (x : Async A) (k : A → Async B) : Async B :=
  match x with
  | Run body =>
      Run (fun s =>
             match body s with
             | Returned a s' => step (k a) s'
             | Thrown msg s' => Thrown msg s'
             | Awaiting rest s' => Awaiting (andThen rest k) s'
             end)
  end.

(** Code without [await]: a step of the state monad. *)
Definition sync {A} (m : M A) : Async A :=
  Run (fun s =>
         match m (world s) with
         | Ok a w => Returned a (mkMemory w (detached s))
         | Throw msg w => Thrown msg (mkMemory w (detached s))
         end).

(** [await x]: [x] runs up to its own first suspension at once; when it has
    settled, the caller is suspended once more before it gets the value or
    the exception. *)
Fixpoint await {A} (x : Async A) : Async A :=
  match x with
  | Run body =>
      Run (fun s =>
             match body s with
             | Returned a s' => Awaiting (resolve a) s'
             | Thrown msg s' => Awaiting (reject msg) s'
             | Awaiting rest s' => Awaiting (await rest) s'
             end)
  end.

(** [try { x } catch (error) { h error.message }] *)
Fixpoint attempt {A} (x : Async A) (h : string → Async A) : Async A :=
  match x with
  | Run body =>
      Run (fun s =>
             match body s with
             | Returned a s' => Returned a s'
             | Thrown msg s' => step (h msg) s'
             | Awaiting rest s' => Awaiting (attempt rest h) s'
             end)
  end.

Declare Scope async_scope.
Delimit Scope async_scope with async.
Bind Scope async_scope with Async.
Notation "'do' x <- m ; k" := (andThen m (fun x => k))
  (at level 10, x name, m at level 100, k at level 200) : async_scope.
Notation "m ;; k" := (andThen m (fun _ => k))
  (at level 100, k at level 200, right associativity) : async_scope.
#[local] Open Scope async_scope.

Declare Scope step_scope.
Delimit Scope step_scope with M.
Notation "'do' x <- m ; k" := (bind m (fun x => k))
  (at level 10, x name, m at level 100, k at level 200) : step_scope.
Notation "m ;; k" := (bind m (fun _ => k))
  (at level 100, k at level 200, right associativity) : step_scope.

(** [this.activeQueues.delete(bookingId)] *)
Definition removeQueue (bookingId : string) : Async unit :=
  Run (fun s =>
         Returned tt
           (mkMemory
              (set_activeQueues (world s)
                 (delete bookingId (activeQueues (world s))))
              (match activeQueues (world s) !! bookingId with
               | Some q => <[bookingId := q]> (detached s)
               | None => detached s
               end))).

(** The object a handler got from [activeQueues.get(bookingId)] earlier on,
    as it is now. *)
Definition objectOf (bookingId : string) : Async (option QueueData) :=
  Run (fun s =>
         Returned
           (match activeQueues (world s) !! bookingId with
            | Some q => Some q
            | None => detached s !! bookingId
            end) s).

(** ** [bookingQueue.service.js] *)

(** [saveQueueToRedis] (lines 353-363); the value stored is built when the
    function is called. *)
Definition saveQueueToRedis (bookingId : string) (queueData : QueueData)
  : Async unit :=
  attempt
    (await (sync (redisSetQueue bookingId
                    (BookingQueueService.toSnapshot queueData) 600)))
    (fun _ => resolve tt).

(** [cleanupQueue] (lines 330-341). *)
Definition cleanupQueue (bookingId : string) : Async unit :=
  do queueData <- sync (getQueue bookingId);
  sync (match queueData with
        | Some q => BookingQueueService.clearTimerOf q
        | None => ret tt
        end) ;;
  removeQueue bookingId ;;
  await (sync (redisDeleteQueue bookingId)) ;;
  await (sync (redisDeleteCurrent bookingId)).

(** [handleNoMechanicsAvailable] (lines 300-325). *)
Definition handleNoMechanicsAvailable (booking : Booking) : Async unit :=
  let bookingId := b_id booking in
  await (sync (findByIdAndUpdateStatus bookingId NO_MECHANIC_AVAILABLE)) ;;
  sync (emitToUser (b_userId booking) (BookingNoMechanic bookingId)) ;;
  await (cleanupQueue bookingId).

(** [sendToNextMechanic] (lines 76-141); [mechanics], [currentIndex] and
    [booking] are read once, at line 83. *)
Definition sendToNextMechanic (bookingId : string) : Async unit :=
  do queueData <- sync (getQueue bookingId);
  match queueData with
  | None => resolve tt
  | Some q =>
      let booking := q_booking q in
      if decide (length (q_mechanics q) ≤ q_currentIndex q) then
        await (handleNoMechanicsAvailable booking)
      else
        match BookingQueueService.currentMechanic q with
        | None => reject "TypeError"
        | Some cur =>
            sync (emitToMechanic (m_id cur)
                    (BookingNew (b_id booking) (m_distance cur)
                       TIMEOUT_SECONDS)) ;;
            do t <- sync now;
            await (sync (redisSetCurrent bookingId
                           (mkCurrent (m_id cur) t
                              (t + TIMEOUT_SECONDS * 1000))
                           (TIMEOUT_SECONDS + 5))) ;;
            sync (BookingQueueService.startTimeout bookingId) ;;
            sync (BookingQueueService.notifyUserQueueStatus
                    (b_userId booking)
                    (QueueStatus bookingId "REQUESTING"
                       (length (q_mechanics q)) (q_currentIndex q + 1)))
        end
  end.

(** [skipToNextMechanic] (lines 194-222). *)
Definition skipToNextMechanic (bookingId reason : string) : Async unit :=
  do queueData <- sync (getQueue bookingId);
  match queueData with
  | None => resolve tt
  | Some q =>
      let q' :=
        BookingQueueService.with_index
          (BookingQueueService.with_timer q None) (q_currentIndex q + 1) in
      sync (BookingQueueService.clearTimerOf q ;;
            match BookingQueueService.currentMechanic q with
            | Some cur =>
                emitToMechanic (m_id cur)
                  (BookingTimeout bookingId
                     (BookingQueueService.withdrawReason reason))
            | None => ret tt
            end ;;
            setQueue bookingId q')%M ;;
      await (saveQueueToRedis bookingId q') ;;
      await (sendToNextMechanic bookingId)
  end.

(** [handleMechanicReject] (lines 167-189). *)
Definition handleMechanicReject (bookingId mechanicId : string)
    (reason : option string) : Async unit :=
  let reason := default "rejected" reason in
  do queueData <- sync (getQueue bookingId);
  match queueData with
  | None => resolve tt
  | Some q =>
      if BookingQueueService.notCurrent q mechanicId then resolve tt
      else
        do t <- sync now;
        await (sync (redisSetReject bookingId mechanicId
                       (mkReject reason t) 3600)) ;;
        await (skipToNextMechanic bookingId reason)
  end.

(** [handleMechanicAccept] (lines 227-295).  After the [await] of line 247
    the loop of line 284 reads [queueData.currentIndex] again. *)
Definition handleMechanicAccept (bookingId mechanicId : string)
  : Async AcceptResult :=
  do queueData <- sync (getQueue bookingId);
  match queueData with
  | None => resolve (AcceptErr "Queue not found")
  | Some q =>
      if BookingQueueService.notCurrent q mechanicId then
        resolve (AcceptErr "Not your turn to accept")
      else
        sync (BookingQueueService.clearTimerOf q) ;;
        do booking <- await (sync (findOneAndUpdateAccept bookingId mechanicId));
        match booking with
        | None => resolve (AcceptErr "Booking no longer available")
        | Some bk =>
            sync (emitToUser (b_userId (q_booking q))
                    (BookingAccepted bookingId mechanicId)) ;;
            do object <- objectOf bookingId;
            sync (BookingQueueService.notifyOthers bookingId
                    (drop (q_currentIndex (default q object) + 1)
                       (q_mechanics q))) ;;
            await (cleanupQueue bookingId) ;;
            resolve (AcceptOk bk)
        end
  end.

(** [startQueue] (lines 30-71). *)
Definition startQueue (booking : Booking)
    (nearbyMechanics : list NearbyMechanic) : Async unit :=
  let bookingId := b_id booking in
  if decide (length nearbyMechanics = 0) then
    await (handleNoMechanicsAvailable booking)
  else
    do t <- sync now;
    let queueData :=
      mkQueue bookingId booking
        (map BookingQueueService.toEntry nearbyMechanics) 0 t None in
    sync (setQueue bookingId queueData) ;;
    await (saveQueueToRedis bookingId queueData) ;;
    await (sendToNextMechanic bookingId) ;;
    sync (BookingQueueService.notifyUserQueueStatus (b_userId booking)
            (QueueStatus bookingId "SEARCHING" (length nearbyMechanics) 1)).

(** ** [socket.service.js] and the booking controller *)

(** [handleBookingAccept] (lines 239-286). *)
Definition handleBookingAccept (mechanicId bookingId : string) : Async unit :=
  attempt
    (do result <- await (handleMechanicAccept bookingId mechanicId);
     match result with
     | AcceptOk bk =>
         sync (emit (SocketOf mechanicId) (AcceptAck (AcceptOk bk)))
     | AcceptErr _ =>
         do booking <- await (sync (findOneAndUpdateAccept bookingId mechanicId));
         match booking with
         | None =>
             sync (emit (SocketOf mechanicId)
                     (AcceptAck (AcceptErr "Booking no longer available")))
         | Some bk =>
             sync (emitToUser (b_userId bk)
                     (BookingAccepted (b_id bk) mechanicId) ;;
                   emit (SocketOf mechanicId) (AcceptAck (AcceptOk bk)))%M
         end
     end)
    (fun e => sync (emit (SocketOf mechanicId) (AcceptAck (AcceptErr e)))).

(** [handleBookingReject] (lines 291-308). *)
Definition handleBookingReject (mechanicId bookingId : string)
    (reason : option string) : Async unit :=
  attempt
    (await (handleMechanicReject bookingId mechanicId reason) ;;
     sync (emit (SocketOf mechanicId) (RejectAck None)))
    (fun e => sync (emit (SocketOf mechanicId) (RejectAck (Some e)))).

(** The dispatch part of [createBooking]: [Booking.create],
    [findNearbyMechanics], whose result is [nearbyMechanics], and the
    queue. *)
Definition createBooking (bookingId userId : string)
    (nearbyMechanics : list NearbyMechanic) : Async unit :=
  do booking <- await (sync (BookingController.createDocument bookingId userId));
  await (resolve tt) ;;
  if decide (0 < length nearbyMechanics) then
    await (startQueue booking nearbyMechanics)
  else
    await (handleNoMechanicsAvailable booking).

(** The callback of [startTimeout] (lines 156-159), run when the timer [t]
    fires. *)
Definition timeoutCallback (t : nat) : Async unit :=
  Run (fun s =>
         match timers (world s) !! t with
         | Some b =>
             step (await (skipToNextMechanic b "timeout"))
               (mkMemory
                  (set_timers (world s) (delete t (timers (world s)))
                     (nextTimer (world s)))
                  (detached s))
         | None => Returned tt s
         end).

(** ** The event loop *)

(** What starts a handler. *)
Inductive Packet : Type :=
  | Create (bookingId userId : string) (nearby : list NearbyMechanic)
  | Accept (mechanicId bookingId : string)
  | Reject (mechanicId bookingId : string) (reason : option string)
  | Timer (t : nat).

Definition handlerOf (p : Packet) : Async unit :=
  match p with
  | Create b u nearby => createBooking b u nearby
  | Accept m b => handleBookingAccept m b
  | Reject m b reason => handleBookingReject m b reason
  | Timer t => timeoutCallback t
  end.

(** The process: the memory, and the handlers started so far in the order
    they started, [None] for one that has returned or thrown. *)
Record Process : Type := mkProcess {
  memory : Memory;
  tasks : list (option (Async unit))
}.

(** What is left of a handler after a turn.  One that has returned is
    over, and so is one that an exception has left: the socket handlers
    catch theirs, [createBooking] answers with the error, and the callback
    of a timer has no [catch]. *)
Definition settle (o : Outcome unit) : Memory * option (Async unit) :=
  match o with
  | Returned _ s => (s, None)
  | Thrown _ s => (s, None)
  | Awaiting rest s => (s, Some rest)
  end.

(** One turn of the event loop: a packet arrives or a timer fires, and its
    handler runs up to its first suspension; or the suspended handler
    number [i] goes on up to its next one; or time passes. *)
Inductive Turn : Type :=
  | Arrives (p : Packet)
  | Resumes (i : nat)
  | Passes (dt : nat).

Definition turn (p : Process) (t : Turn) : Process :=
  match t with
  | Arrives pk =>
      let r := settle (step (handlerOf pk) (memory p)) in
      mkProcess r.1 (tasks p ++ [r.2])
  | Resumes i =>
      match tasks p !! i with
      | Some (Some x) =>
          let r := settle (step x (memory p)) in
          mkProcess r.1 (<[i := r.2]> (tasks p))
      | _ => p
      end
  | Passes dt =>
      mkProcess
        (mkMemory (set_clock (world (memory p)) (clock (world (memory p)) + dt))
           (detached (memory p)))
        (tasks p)
  end.

Definition turns (l : list Turn) (p : Process) : Process := foldl turn p l.

(** The process of a server that has started. *)
Definition started (s : Stores) (time : nat) : Process :=
  mkProcess (mkMemory (startServer s true time) ∅) [].

(** Which handlers are suspended. *)
Definition inFlight (p : Process) : list bool :=
  (fun t => bool_decide (is_Some t)) <$> tasks p.

(** The state of the process. *)
Definition state (p : Process) : World := world (memory p).

(** ** One handler at a time *)

(** The handler [x] from [s] when nothing else runs: it goes on as soon as
    it is suspended. *)
Fixpoint alone {A} (x : Async A) (s : Memory) : Outcome A :=
  match x with
  | Run body =>
      match body s with
      | Awaiting rest s' => alone rest s'
      | o => o
      end
  end.

(** The event of the first part that starts the same handler. *)
Definition eventOf (p : Packet) : Event :=
  match p with
  | Create b u nearby => CreateBooking b u nearby
  | Accept m b => SocketAccept m b
  | Reject m b reason => SocketReject m b reason
  | Timer t => TimerFires t
  end.

(** The outcome [o] of a handler in flight is the result [r] of the handler
    run as one step: the same value or exception, the same state. *)
Definition agree {A} (o : Outcome A) (r : Result A) : Prop :=
  match o, r with
  | Returned a s, Ok a' w => a = a' ∧ world s = w
  | Thrown e s, Throw e' w => e = e' ∧ world s = w
  | _, _ => False
  end.

(** From a state in [P], [x] run alone does what the step [m] does. *)
Definition refines {A} (P : World → Prop) (x : Async A) (m : M A) : Prop :=
  ∀ s, P (world s) → agree (alone x s) (m (world s)).

(** [q] is the queue of [b]. *)
Definition holds (b : string) (q : QueueData) (w : World) : Prop :=
  activeQueues w !! b = Some q.

(** ** Example runs *)

(** A fresh server on empty stores has created [bk1] of user [u1] with the
    candidates [nearby]; the handler has returned. *)
Definition created (nearby : list NearbyMechanic) : Process :=
  turns (Arrives (Create "bk1" "u1" nearby) :: replicate 7 (Resumes 0))
    (started (mkStores ∅ ∅ ∅ ∅) 100).

End Concurrent.

(** * Proofs *)

(** ** Relations every step of a handler respects *)

Section Respects.
Variable R : relation World.
Hypothesis R_refl : ∀ w, R w w.
Hypothesis R_trans : ∀ w1 w2 w3, R w1 w2 → R w2 w3 → R w1 w3.

Lemma respects_ret {A} (a : A) : respects R (ret a).
Proof. intros w. apply R_refl. Qed.

Lemma respects_throw {A} (e : string) : respects R (@throw A e).
Proof. intros w. apply R_refl. Qed.

Lemma respects_bind {A B} (m : M A) (k : A → M B) :
  respects R m → (∀ a, respects R (k a)) → respects R (bind m k).
Proof.
  intros Hm Hk w. unfold bind. specialize (Hm w).
  destruct (m w) as [a w'|e w']; simpl in *; [|done].
  eapply R_trans; [exact Hm | apply Hk].
Qed.

Lemma respects_tryCatch {A} (m : M A) (h : string → M A) :
  respects R m → (∀ e, respects R (h e)) → respects R (tryCatch m h).
Proof.
  intros Hm Hh w. unfold tryCatch. specialize (Hm w).
  destruct (m w) as [a w'|e w']; simpl in *; [done|].
  eapply R_trans; [exact Hm | apply Hh].
Qed.

End Respects.

(** *** Relations on the booking collection

    The collection is written in three places only: the conditional update
    of an acceptance, the status write of [handleNoMechanicsAvailable] and
    the creation of a document.  A preorder that relates the collection
    before and after each of these relates it before and after any run. *)

Section BookingWrites.

Import BookingQueueService SocketService BookingController.

Variable R : relation (gmap string Booking).

Hypothesis R_refl : ∀ bks, R bks bks.

Hypothesis R_trans : ∀ x y z, R x y → R y z → R x z.

Hypothesis R_accept : ∀ bks b bk m t,
  bks !! b = Some bk → acceptFilter bk = true →
  R bks (<[b := acceptSet m t bk]> bks).

Hypothesis R_exhaust : ∀ bks b,
  R bks (alter (setStatus NO_MECHANIC_AVAILABLE) b bks).

Hypothesis R_create : ∀ bks b u,
  bks !! b = None → R bks (<[b := mkBooking b u None SEARCHING None]> bks).

Local Abbreviation ok := (respects (onBookings R)).

Lemma ok_same {A} (m : M A) :
  (∀ w, bookings (world_of (m w)) = bookings w) → ok m.
Proof. intros H w. unfold onBookings. rewrite H. apply R_refl. Qed.

Lemma ok_bind {A B} (m : M A) (k : A → M B) :
  ok m → (∀ a, ok (k a)) → ok (bind m k).
Proof.
  apply respects_bind. intros w1 w2 w3. apply R_trans.
Qed.

Lemma ok_tryCatch {A} (m : M A) (h : string → M A) :
  ok m → (∀ e, ok (h e)) → ok (tryCatch m h).
Proof.
  apply respects_tryCatch. intros w1 w2 w3. apply R_trans.
Qed.

Lemma ok_ret {A} (a : A) : ok (ret a).
Proof. by apply ok_same. Qed.

Lemma ok_throw {A} e : ok (@throw A e).
Proof. by apply ok_same. Qed.

Lemma ok_getQueue b : ok (getQueue b).
Proof. by apply ok_same. Qed.

Lemma ok_setQueue b q : ok (setQueue b q).
Proof. by apply ok_same. Qed.

Lemma ok_deleteQueue b : ok (deleteQueue b).
Proof. by apply ok_same. Qed.

Lemma ok_now : ok now.
Proof. by apply ok_same. Qed.

Lemma ok_emit r msg : ok (emit r msg).
Proof. by apply ok_same. Qed.

Lemma ok_setTimeout b : ok (setTimeout b).
Proof. by apply ok_same. Qed.

Lemma ok_clearTimeout t : ok (clearTimeout t).
Proof. by apply ok_same. Qed.

Lemma ok_findById b : ok (findById b).
Proof. by apply ok_same. Qed.

Lemma ok_redisSetQueue b s ttl : ok (redisSetQueue b s ttl).
Proof.
  apply ok_same. intros w.
  unfold redisSetQueue, bind, redisGuard. by destruct (redisConnected w).
Qed.

Lemma ok_redisSetCurrent b c ttl : ok (redisSetCurrent b c ttl).
Proof.
  apply ok_same. intros w.
  unfold redisSetCurrent, bind, redisGuard. by destruct (redisConnected w).
Qed.

Lemma ok_redisSetReject b m r ttl : ok (redisSetReject b m r ttl).
Proof.
  apply ok_same. intros w.
  unfold redisSetReject, bind, redisGuard. by destruct (redisConnected w).
Qed.

Lemma ok_redisGetQueue b : ok (redisGetQueue b).
Proof.
  apply ok_same. intros w.
  unfold redisGetQueue, bind, redisGuard. by destruct (redisConnected w).
Qed.

Lemma ok_redisDeleteQueue b : ok (redisDeleteQueue b).
Proof.
  apply ok_same. intros w.
  unfold redisDeleteQueue, bind, redisGuard. by destruct (redisConnected w).
Qed.

Lemma ok_redisDeleteCurrent b : ok (redisDeleteCurrent b).
Proof.
  apply ok_same. intros w.
  unfold redisDeleteCurrent, bind, redisGuard. by destruct (redisConnected w).
Qed.

Lemma ok_findOneAndUpdateAccept b m : ok (findOneAndUpdateAccept b m).
Proof.
  intros w. unfold onBookings, findOneAndUpdateAccept.
  destruct (bookings w !! b) as [bk|] eqn:Hb; simpl; [|apply R_refl].
  destruct (acceptFilter bk) eqn:Hf; simpl; [|apply R_refl].
  by apply R_accept.
Qed.

Lemma ok_findByIdAndUpdateStatus b :
  ok (findByIdAndUpdateStatus b NO_MECHANIC_AVAILABLE).
Proof. intros w. apply R_exhaust. Qed.

Lemma ok_createDocument b u : ok (createDocument b u).
Proof.
  intros w. unfold onBookings, createDocument.
  destruct (bookings w !! b) eqn:Hb; simpl; [apply R_refl|].
  by apply R_create.
Qed.

Hint Resolve ok_ret ok_throw ok_getQueue ok_setQueue ok_deleteQueue ok_now
  ok_emit ok_setTimeout ok_clearTimeout ok_findById ok_redisSetQueue
  ok_redisSetCurrent ok_redisSetReject ok_redisGetQueue ok_redisDeleteQueue
  ok_redisDeleteCurrent ok_findOneAndUpdateAccept
  ok_findByIdAndUpdateStatus ok_createDocument : core.

(** Decompose a handler along its binds and branches. *)
Ltac walk :=
  repeat first
    [ assumption
    | solve [auto]
    | apply ok_bind; [|intros ?]
    | apply ok_tryCatch; [|intros ?]
    | match goal with
      | |- respects _ (match ?x with _ => _ end) => destruct x
      end ].

Lemma ok_clearTimerOf q : ok (clearTimerOf q).
Proof. unfold clearTimerOf. walk. Qed.

Lemma ok_saveQueueToRedis b q : ok (saveQueueToRedis b q).
Proof. unfold saveQueueToRedis. walk. Qed.

Lemma ok_cleanupQueue b : ok (cleanupQueue b).
Proof. pose proof ok_clearTimerOf. unfold cleanupQueue. walk. Qed.

Lemma ok_handleNoMechanicsAvailable bk : ok (handleNoMechanicsAvailable bk).
Proof.
  pose proof ok_cleanupQueue.
  unfold handleNoMechanicsAvailable, emitToUser. walk.
Qed.

Lemma ok_startTimeout b : ok (startTimeout b).
Proof. pose proof ok_clearTimerOf. unfold startTimeout. walk. Qed.

Lemma ok_sendToNextMechanic b : ok (sendToNextMechanic b).
Proof.
  pose proof ok_handleNoMechanicsAvailable. pose proof ok_startTimeout.
  unfold sendToNextMechanic, notifyUserQueueStatus, emitToUser,
    emitToMechanic.
  walk.
Qed.

Lemma ok_skipToNextMechanic b reason : ok (skipToNextMechanic b reason).
Proof.
  pose proof ok_clearTimerOf. pose proof ok_saveQueueToRedis.
  pose proof ok_sendToNextMechanic.
  unfold skipToNextMechanic, emitToMechanic. walk.
Qed.

Lemma ok_handleMechanicReject b m reason :
  ok (handleMechanicReject b m reason).
Proof.
  pose proof ok_skipToNextMechanic. unfold handleMechanicReject. walk.
Qed.

Lemma ok_notifyOthers b rest : ok (notifyOthers b rest).
Proof.
  induction rest as [|m rest IH]; simpl; unfold emitToMechanic; walk.
Qed.

Lemma ok_handleMechanicAccept b m : ok (handleMechanicAccept b m).
Proof.
  pose proof ok_clearTimerOf. pose proof ok_notifyOthers.
  pose proof ok_cleanupQueue.
  unfold handleMechanicAccept, emitToUser. walk.
Qed.

Lemma ok_startQueue bk nearby : ok (startQueue bk nearby).
Proof.
  pose proof ok_handleNoMechanicsAvailable. pose proof ok_saveQueueToRedis.
  pose proof ok_sendToNextMechanic.
  unfold startQueue, notifyUserQueueStatus, emitToUser. walk.
Qed.

Lemma ok_handleBookingAccept m b : ok (handleBookingAccept m b).
Proof.
  pose proof ok_handleMechanicAccept.
  unfold handleBookingAccept, emitToUser. walk.
Qed.

Lemma ok_handleBookingReject m b reason :
  ok (handleBookingReject m b reason).
Proof.
  pose proof ok_handleMechanicReject. unfold handleBookingReject. walk.
Qed.

Lemma ok_createBooking b u nearby : ok (createBooking b u nearby).
Proof.
  pose proof ok_startQueue. pose proof ok_handleNoMechanicsAvailable.
  unfold createBooking. walk.
Qed.

Lemma ok_timerCallback t : ok (timerCallback t).
Proof.
  intros w. unfold timerCallback.
  destruct (timers w !! t) as [b|]; [|apply R_refl].
  apply (ok_skipToNextMechanic b "timeout"
           (set_timers w (delete t (timers w)) (nextTimer w))).
Qed.

Lemma ok_handler ev : ok (handler ev).
Proof.
  destruct ev; simpl;
    auto using ok_createBooking, ok_handleBookingAccept,
      ok_handleBookingReject, ok_timerCallback, ok_same.
Qed.

Lemma fire_onBookings ev w : R (bookings w) (bookings (fire ev w)).
Proof. apply ok_handler. Qed.

Lemma run_onBookings evs w : R (bookings w) (bookings (run evs w)).
Proof.
  revert w. induction evs as [|ev evs IH]; intros w; simpl; [apply R_refl|].
  eapply R_trans; [apply fire_onBookings | apply IH].
Qed.

End BookingWrites.

(** ** Fields a handler leaves alone *)

Lemma eqOn_trans {X} (f : World → X) w1 w2 w3 :
  eqOn f w1 w2 → eqOn f w2 w3 → eqOn f w1 w3.
Proof. unfold eqOn. congruence. Qed.

Ltac frame_prim :=
  let w := fresh "w" in
  intros w; unfold eqOn, redisGuard; simpl; try done;
  destruct (redisConnected w); done.

Ltac frame :=
  repeat first
    [ assumption
    | solve [frame_prim]
    | apply respects_bind; [apply eqOn_trans| |intros ?]
    | apply respects_tryCatch; [apply eqOn_trans| |intros ?]
    | match goal with
      | |- respects _ (match ?x with _ => _ end) => destruct x
      end ].

(** Case analysis on an innermost scrutinee of the goal; a hypothesis that
    already gives its value is used instead. *)
Ltac split_match :=
  match goal with
  | |- context [match ?x with _ => _ end] =>
      lazymatch x with
      | context [match _ with _ => _ end] => fail
      | decide ?P =>
          first [ rewrite (decide_True (P:=P)) by (done || lia)
                | rewrite (decide_False (P:=P)) by (done || lia)
                | destruct x eqn:? ]
      | _ => first [ match goal with H : x = _ |- _ => rewrite H end
                   | destruct x eqn:? ]
      end
  end.

(** From [m w = Ok a w'] or [m w = Throw e w'] and a frame lemma for [m],
    the value of the field in [w']. *)
Ltac framed L :=
  match goal with
  | H : ?m ?W = _ |- _ =>
      let F := fresh "F" in
      eassert (respects _ m) as F by (apply L);
      specialize (F W); unfold eqOn in F; rewrite H in F; simpl in F; clear H
  end.

Module Frames.

Import BookingQueueService.

Lemma cleanupQueue_bookings b : respects (eqOn bookings) (cleanupQueue b).
Proof. unfold cleanupQueue, clearTimerOf. frame. Qed.

Lemma cleanupQueue_emitted b : respects (eqOn emitted) (cleanupQueue b).
Proof. unfold cleanupQueue, clearTimerOf. frame. Qed.

Lemma notifyOthers_bookings b rest :
  respects (eqOn bookings) (notifyOthers b rest).
Proof. induction rest; simpl; frame. Qed.

Lemma notifyOthers_activeQueues b rest :
  respects (eqOn activeQueues) (notifyOthers b rest).
Proof. induction rest; simpl; frame. Qed.

Lemma saveQueueToRedis_bookings b q :
  respects (eqOn bookings) (saveQueueToRedis b q).
Proof. unfold saveQueueToRedis. frame. Qed.

Lemma saveQueueToRedis_activeQueues b q :
  respects (eqOn activeQueues) (saveQueueToRedis b q).
Proof. unfold saveQueueToRedis. frame. Qed.

Lemma saveQueueToRedis_emitted b q :
  respects (eqOn emitted) (saveQueueToRedis b q).
Proof. unfold saveQueueToRedis. frame. Qed.

End Frames.

(** ** Symbolic execution of handlers *)

Ltac unfold_handlers :=
  unfold fire, handler, BookingController.createBooking,
    BookingController.createDocument, BookingQueueService.startQueue,
    SocketService.handleBookingAccept, SocketService.handleBookingReject,
    BookingQueueService.handleMechanicAccept,
    BookingQueueService.handleMechanicReject,
    BookingQueueService.skipToNextMechanic,
    BookingQueueService.sendToNextMechanic, BookingQueueService.startTimeout,
    BookingQueueService.handleNoMechanicsAvailable,
    BookingQueueService.cleanupQueue, BookingQueueService.saveQueueToRedis,
    BookingQueueService.clearTimerOf, BookingQueueService.currentMechanic,
    BookingQueueService.notifyUserQueueStatus, emitToUser, emitToMechanic,
    timerCallback in *.

Ltac unfold_prims :=
  unfold getQueue, setQueue, deleteQueue, now, emit, setTimeout, clearTimeout,
    redisSetQueue, redisSetCurrent, redisSetReject, redisGetQueue,
    redisDeleteQueue, redisDeleteCurrent, redisGuard, findById,
    findOneAndUpdateAccept, findByIdAndUpdateStatus in *;
  unfold tryCatch, bind, ret, throw in *.

Ltac exec_step :=
  first
    [ rewrite lookup_insert_eq
    | rewrite lookup_delete_eq
    | split_match ];
  simpl in *; simplify_eq/=.

Ltac exec := unfold_handlers; unfold_prims; simpl in *; repeat exec_step.

(** ** Acceptance *)

Section Acceptance.
Import BookingQueueService SocketService.

Lemma acceptFilter_spec bk :
  acceptFilter bk = true ↔
  (b_status bk = PENDING ∨ b_status bk = SEARCHING) ∧ b_mechanicId bk = None.
Proof.
  unfold acceptFilter.
  destruct (b_status bk), (b_mechanicId bk); intuition congruence.
Qed.

Lemma run_keepsAssignee evs w :
  keepsAssignee (bookings w) (bookings (run evs w)).
Proof.
  apply run_onBookings; unfold keepsAssignee.
  - eauto.
  - intros x y z Hxy Hyz b bk m Hb Hm.
    destruct (Hxy b bk m Hb Hm) as (bk' & Hb' & Hm'). eauto.
  - intros bks b0 bk0 m0 t Hb0 Hf b bk m Hb Hm.
    apply acceptFilter_spec in Hf as [_ Hnone].
    destruct (decide (b = b0)) as [->|Hne]; [congruence|].
    rewrite lookup_insert_ne by done. eauto.
  - intros bks b0 b bk m Hb Hm. rewrite lookup_alter.
    case_decide; subst; rewrite Hb; simpl; eauto.
  - intros bks b0 u Hb0 b bk m Hb Hm.
    destruct (decide (b = b0)) as [->|Hne]; [congruence|].
    rewrite lookup_insert_ne by done. eauto.
Qed.

(** What an accept attempt does to the collection: nothing, or the
    conditional update on a document that passes the filter. *)
Lemma handleBookingAccept_bookings m b w :
  bookings (fire (SocketAccept m b) w) = bookings w ∨
  ∃ bk, bookings w !! b = Some bk ∧ acceptFilter bk = true ∧
        bookings (fire (SocketAccept m b) w) =
          <[b := acceptSet m (clock w) bk]> (bookings w).
Proof.
  unfold fire; simpl. unfold handleBookingAccept, handleMechanicAccept.
  unfold tryCatch, bind, getQueue, findOneAndUpdateAccept, clearTimerOf,
    clearTimeout, ret, emitToUser, emit.
  simpl.
  repeat (split_match; simpl; simplify_eq/=; eauto).
  all: right; eexists; split; [done|]; split; [done|].
  all: repeat framed Frames.cleanupQueue_bookings.
  all: repeat framed Frames.notifyOthers_bookings.
  all: congruence.
Qed.

Lemma acceptSucceeds_inv m b w :
  acceptSucceeds m b w →
  ∃ bk, bookings w !! b = Some bk ∧ acceptFilter bk = true ∧
        bookings (fire (SocketAccept m b) w) !! b =
          Some (acceptSet m (clock w) bk).
Proof.
  unfold acceptSucceeds. intros Hne.
  destruct (handleBookingAccept_bookings m b w) as [Heq|(bk & Hb & Hf & Heq)].
  - by rewrite Heq in Hne.
  - exists bk. rewrite Heq, lookup_insert_eq. done.
Qed.

Lemma assigned_no_accept m b w bk m0 :
  bookings w !! b = Some bk → b_mechanicId bk = Some m0 →
  ¬ acceptSucceeds m b w.
Proof.
  unfold acceptSucceeds. intros Hb Hm Hne.
  destruct (handleBookingAccept_bookings m b w) as [Heq|(bk' & Hb' & Hf & _)].
  - by rewrite Heq in Hne.
  - apply acceptFilter_spec in Hf as [_ Hnone]. congruence.
Qed.

Lemma assigned_acceptances b evs w bk m0 :
  bookings w !! b = Some bk → b_mechanicId bk = Some m0 →
  acceptances b evs w = 0.
Proof.
  revert w bk. induction evs as [|ev evs IH]; intros w bk Hb Hm; [done|].
  simpl.
  destruct (run_keepsAssignee [ev] w b bk m0 Hb Hm) as (bk' & Hb' & Hm').
  simpl in Hb'. rewrite (IH _ bk' Hb' Hm').
  destruct ev; try done.
  case_decide as Hd; [|done]. destruct Hd as [-> Hacc].
  by destruct (assigned_no_accept _ _ _ _ _ Hb Hm Hacc).
Qed.

(** The accept check of [handleMechanicAccept] alone: a mechanic who is not
    the current candidate gets the error and nothing changes. *)
Lemma handleMechanicAccept_not_current b m w q :
  activeQueues w !! b = Some q →
  BookingQueueService.notCurrent q m = true →
  BookingQueueService.handleMechanicAccept b m w =
    Ok (AcceptErr "Not your turn to accept") w.
Proof. intros Hq Hn. by exec. Qed.

(** The fallback of [handleBookingAccept] is reached after any failure of
    [handleMechanicAccept]: an accept from a mechanic who is not the
    current candidate succeeds whenever the booking passes the filter. *)
Lemma stale_accept_falls_back b m w q bk :
  activeQueues w !! b = Some q →
  notCurrent q m = true →
  bookings w !! b = Some bk →
  acceptFilter bk = true →
  bookings (fire (SocketAccept m b) w) !! b = Some (acceptSet m (clock w) bk).
Proof.
  intros Hq Hn Hb Hf. by exec.
Qed.

End Acceptance.

(** ** Status writes *)

Lemma statusStep_refl s : statusStep s s.
Proof. by left. Qed.

Lemma statusStep_trans s1 s2 s3 :
  statusStep s1 s2 → statusStep s2 s3 → statusStep s1 s3.
Proof.
  unfold statusStep.
  intros [->|[[H1 ->]| ->]] [->|[[H2 ->]| ->]]; try tauto.
  destruct H2; discriminate.
Qed.

Lemma run_statusWrites evs w : statusWrites (bookings w) (bookings (run evs w)).
Proof.
  apply run_onBookings; unfold statusWrites.
  - intros bks b bk Hb. eauto using statusStep_refl.
  - intros x y z Hxy Hyz b bk Hb.
    destruct (Hxy b bk Hb) as (bk' & Hb' & Hs).
    destruct (Hyz b bk' Hb') as (bk'' & Hb'' & Hs').
    eauto using statusStep_trans.
  - intros bks b0 bk0 m0 t Hb0 Hf b bk Hb.
    apply acceptFilter_spec in Hf as [Hst _].
    destruct (decide (b = b0)) as [->|Hne].
    + rewrite lookup_insert_eq. eexists; split; [done|].
      simplify_eq. right; left. done.
    + rewrite lookup_insert_ne by done. eauto using statusStep_refl.
  - intros bks b0 b bk Hb. rewrite lookup_alter.
    case_decide; subst; rewrite Hb; simpl; eexists; split; try done.
    + by right; right.
    + by left.
  - intros bks b0 u Hb0 b bk Hb.
    destruct (decide (b = b0)) as [->|Hne]; [congruence|].
    rewrite lookup_insert_ne by done. eauto using statusStep_refl.
Qed.

(** Documents are never removed from the collection. *)
Lemma fire_keeps_documents ev w b :
  is_Some (bookings w !! b) → is_Some (bookings (fire ev w) !! b).
Proof.
  intros [bk Hb].
  destruct (run_statusWrites [ev] w b bk Hb) as (bk' & Hb' & _). by eexists.
Qed.

(** ** Recovery *)

(** [restoreOne] does what the recovery pass is meant to do: for a snapshot
    whose booking is SEARCHING it rebuilds the entry at the persisted index
    and offers to the mechanic at that index only. *)
Lemma restoreOne_resumes b w bk s ttl cur :
  redisConnected w = true →
  redisQueue w !! b = Some (s, ttl) →
  bookings w !! b = Some bk →
  b_status bk = SEARCHING →
  s_mechanics s !! s_currentIndex s = Some cur →
  let w' := world_of (BookingQueueService.restoreOne b w) in
  emitted w' =
    emitted w ++
      [(MechanicRoom (m_id cur),
        BookingNew (b_id bk) (m_distance cur) TIMEOUT_SECONDS);
       (UserRoom (b_userId bk),
        QueueStatus b "REQUESTING" (length (s_mechanics s))
          (s_currentIndex s + 1))] ∧
  activeQueues w' !! b =
    Some (mkQueue b bk (s_mechanics s) (s_currentIndex s) (s_startedAt s)
            (Some (nextTimer w))).
Proof.
  intros Hr Hs Hb Hst Hcur. simpl. unfold BookingQueueService.restoreOne.
  unfold redisGetQueue, findById, redisGuard, bind. rewrite Hr, Hs, Hb. simpl.
  rewrite Hst. rewrite decide_True by done.
  exec.
  all: try by (apply lookup_lt_Some in Hcur; lia).
  all: by rewrite <- app_assoc.
Qed.

(** A snapshot whose booking is no longer SEARCHING is passed over. *)
Lemma restoreOne_skips b w bk :
  redisConnected w = true →
  bookings w !! b = Some bk →
  b_status bk ≠ SEARCHING →
  BookingQueueService.restoreOne b w = Ok tt w.
Proof.
  intros Hr Hb Hst. unfold BookingQueueService.restoreOne.
  unfold redisGetQueue, findById, redisGuard, bind. rewrite Hr, Hb. simpl.
  destruct (redisQueue w !! b) as [[s ttl]|]; simpl; [|done].
  by rewrite decide_False by done.
Qed.

(** ** The queue invariant *)

Lemma holders_app l l' b :
  holders (l ++ l') b = foldl (offerStep b) (holders l b) l'.
Proof. unfold holders. by rewrite foldl_app. Qed.

Lemma quiet_shrinks b l h :
  Forall (fun e => isOffer e = false) l → foldl (offerStep b) h l ⊆ h.
Proof.
  revert h. induction l as [|e l IH]; intros h Hl; simpl; [done|].
  inversion Hl as [|? ? He Hl']; subst.
  etrans; [apply IH; done|].
  destruct e as [[u|m|m] msg]; destruct msg; simpl in *;
    try done; try case_decide; set_solver.
Qed.

Lemma curset_insert aq b q b' :
  curset (<[b := q]> aq) b' =
    if decide (b = b') then
      match BookingQueueService.currentMechanic q with
      | Some cur => {[ m_id cur ]}
      | None => ∅
      end
    else curset aq b'.
Proof.
  unfold curset. case_decide; subst.
  - by rewrite lookup_insert_eq.
  - by rewrite lookup_insert_ne.
Qed.

Lemma curset_delete aq b b' :
  curset (delete b aq) b' = if decide (b = b') then ∅ else curset aq b'.
Proof.
  unfold curset. case_decide; subst.
  - by rewrite lookup_delete_eq.
  - by rewrite lookup_delete_ne.
Qed.

Lemma Effect_Inv w w' :
  Inv w → Effect w w' →
  (∀ b, is_Some (bookings w !! b) → is_Some (bookings w' !! b)) →
  Inv w'.
Proof.
  intros [I1 I2 I3 I4] Heff Hmono.
  destruct Heff as
    [ l Haq Hem Hl
    | b0 q cur next t reason dist l Hq Hcur Hnext Haq Hem Hl
    | b0 q cur reason l Hq Hcur Hlen Haq Hem Hl
    | b0 q cur u l Hq Hcur Haq Hem Hl
    | b0 q cur dist l Hnone Hsome Haq Hidx Hcur Hid Hem Hl ].
  - split; rewrite ?Haq, ?Hem; eauto.
    intros b. rewrite holders_app.
    etrans; [by apply quiet_shrinks|]. apply I4.
  - assert (Hc0 : curset (activeQueues w) b0 = {[ m_id cur ]})
      by (unfold curset; rewrite Hq; simpl; by rewrite Hcur).
    split; rewrite ?Haq, ?Hem.
    + intros b q'. rewrite lookup_insert. case_decide; [|by eauto].
      intros [= <-]. simpl. apply lookup_lt_Some in Hnext. lia.
    + intros b q'. rewrite lookup_insert. case_decide; [|by eauto].
      intros [= <-]. simpl. subst. eauto.
    + intros b q'. rewrite lookup_insert. case_decide; [|by eauto].
      intros _. subst. eauto.
    + intros b. rewrite holders_app, curset_insert. simpl.
      etrans; [by apply quiet_shrinks|].
      unfold BookingQueueService.currentMechanic at 1. simpl. rewrite Hnext.
      specialize (I4 b). repeat case_decide; subst; try done.
      rewrite Hc0 in I4. set_solver.
  - assert (Hc0 : curset (activeQueues w) b0 = {[ m_id cur ]})
      by (unfold curset; rewrite Hq; simpl; by rewrite Hcur).
    split; rewrite ?Haq, ?Hem.
    + intros b q'. rewrite lookup_delete. case_decide; [done|eauto].
    + intros b q'. rewrite lookup_delete. case_decide; [done|eauto].
    + intros b q'. rewrite lookup_delete. case_decide; [done|eauto].
    + intros b. rewrite holders_app, curset_delete. simpl.
      etrans; [by apply quiet_shrinks|].
      specialize (I4 b). repeat case_decide; subst; try done.
      rewrite Hc0 in I4. set_solver.
  - assert (Hc0 : curset (activeQueues w) b0 = {[ m_id cur ]})
      by (unfold curset; rewrite Hq; simpl; by rewrite Hcur).
    split; rewrite ?Haq, ?Hem.
    + intros b q'. rewrite lookup_delete. case_decide; [done|eauto].
    + intros b q'. rewrite lookup_delete. case_decide; [done|eauto].
    + intros b q'. rewrite lookup_delete. case_decide; [done|eauto].
    + intros b. rewrite holders_app, curset_delete. simpl.
      etrans; [by apply quiet_shrinks|].
      specialize (I4 b). repeat case_decide; subst; try done.
      rewrite Hc0 in I4. set_solver.
  - assert (Hq0 : activeQueues w !! b0 = None).
    { destruct (activeQueues w !! b0) as [q0|] eqn:E; [|done].
      destruct (I3 _ _ E) as [bk Hbk]. congruence. }
    assert (Hc0 : curset (activeQueues w) b0 = ∅)
      by (unfold curset; by rewrite Hq0).
    split; rewrite ?Haq, ?Hem.
    + intros b q'. rewrite lookup_insert. case_decide; [|by eauto].
      intros [= <-]. rewrite Hidx.
      unfold BookingQueueService.currentMechanic in Hcur.
      apply lookup_lt_Some in Hcur. lia.
    + intros b q'. rewrite lookup_insert. case_decide; [|by eauto].
      intros [= <-]. congruence.
    + intros b q'. rewrite lookup_insert. case_decide; [|by eauto].
      intros _. by subst.
    + intros b. rewrite holders_app, curset_insert. simpl.
      etrans; [by apply quiet_shrinks|].
      rewrite Hcur. specialize (I4 b). repeat case_decide; subst; try done.
      rewrite Hc0 in I4. set_solver.
Qed.

Lemma Inv_core w0 w :
  activeQueues w0 = activeQueues w → emitted w0 = emitted w →
  bookings w0 = bookings w → Inv w → Inv w0.
Proof.
  intros Haq Hem Hbk [I1 I2 I3 I4].
  split; rewrite ?Haq, ?Hem, ?Hbk; done.
Qed.

Lemma Effect_core w0 w w' :
  activeQueues w0 = activeQueues w → emitted w0 = emitted w →
  bookings w0 = bookings w → Effect w w' → Effect w0 w'.
Proof.
  intros Haq Hem Hbk Heff.
  destruct Heff; rewrite <- ?Haq, <- ?Hem, <- ?Hbk in *;
    eauto using Effect.
Qed.

Lemma Effect_then_quiet w w1 w2 l :
  Effect w w1 → activeQueues w2 = activeQueues w1 →
  emitted w2 = emitted w1 ++ l →
  (∀ b, is_Some (bookings w1 !! b) → is_Some (bookings w2 !! b)) →
  Forall (fun e => isOffer e = false) l →
  Effect w w2.
Proof.
  intros Heff Haq Hem Hbk Hl.
  destruct Heff as
    [ l0 Haq0 Hem0 Hl0
    | b0 q cur next t reason dist l0 Hq Hcur Hnext Haq0 Hem0 Hl0
    | b0 q cur reason l0 Hq Hcur Hlen Haq0 Hem0 Hl0
    | b0 q cur u l0 Hq Hcur Haq0 Hem0 Hl0
    | b0 q cur dist l0 Hnone Hsome Haq0 Hidx Hcur Hid Hem0 Hl0 ].
  - apply (Quiet _ _ (l0 ++ l)); [congruence| |by apply Forall_app].
    by rewrite Hem, Hem0, <- app_assoc.
  - eapply (Advance _ _ b0 q cur next t reason dist (l0 ++ l)); eauto.
    + congruence.
    + by rewrite Hem, Hem0, <- app_assoc.
    + by apply Forall_app.
  - eapply (Exhaust _ _ b0 q cur reason (l0 ++ l)); eauto.
    + congruence.
    + by rewrite Hem, Hem0, <- app_assoc.
    + by apply Forall_app.
  - eapply (Accepted _ _ b0 q cur u (l0 ++ l)); eauto.
    + congruence.
    + by rewrite Hem, Hem0, <- app_assoc.
    + by apply Forall_app.
  - eapply (Created _ _ b0 q cur dist (l0 ++ l)); eauto.
    + congruence.
    + by rewrite Hem, Hem0, <- app_assoc.
    + by apply Forall_app.
Qed.

Lemma Effect_refl w : Effect w w.
Proof. apply (Quiet _ _ []); [done| by rewrite app_nil_r | done]. Qed.

Ltac quiet_list := repeat constructor.

Lemma skipToNextMechanic_effect b r w :
  Inv w → Effect w (world_of (BookingQueueService.skipToNextMechanic b r w)).
Proof.
  intros [I1 I2 I3 I4].
  destruct (activeQueues w !! b) as [q|] eqn:Hq.
  2: { unfold BookingQueueService.skipToNextMechanic, bind, getQueue.
       rewrite Hq. apply Effect_refl. }
  pose proof (I1 _ _ Hq) as Hidx. pose proof (I2 _ _ Hq) as Hid.
  destruct (q_mechanics q !! q_currentIndex q) as [cur|] eqn:Hcur.
  2: { apply lookup_ge_None in Hcur. lia. }
  destruct (q_mechanics q !! (q_currentIndex q + 1)) as [next|] eqn:Hnext.
  - assert (¬ length (q_mechanics q) ≤ q_currentIndex q + 1)
      by (apply lookup_lt_Some in Hnext; lia).
    exec.
    all: rewrite ?insert_insert_eq, <- ?app_assoc; simpl.
    all: eapply Advance; simpl; eauto; quiet_list.
  - apply lookup_ge_None in Hnext.
    exec.
    all: rewrite ?delete_insert_eq, <- ?app_assoc; simpl.
    all: eapply Exhaust; simpl; eauto; quiet_list.
Qed.

Lemma handleMechanicReject_effect b m reason w :
  Inv w →
  Effect w (world_of (BookingQueueService.handleMechanicReject b m reason w)).
Proof.
  intros HI. unfold BookingQueueService.handleMechanicReject, bind, getQueue.
  destruct (activeQueues w !! b) as [q|]; [|apply Effect_refl].
  destruct (BookingQueueService.notCurrent q m); [apply Effect_refl|].
  unfold now, redisSetReject, bind, redisGuard.
  destruct (redisConnected w); [|apply Effect_refl].
  eapply Effect_core; [..|apply skipToNextMechanic_effect]; try done.
  eapply Inv_core; [..|exact HI]; done.
Qed.

Lemma handleBookingReject_effect m b reason w :
  Inv w → Effect w (fire (SocketReject m b reason) w).
Proof.
  intros HI. pose proof (handleMechanicReject_effect b m reason w HI) as Heff.
  unfold fire, handler, SocketService.handleBookingReject, tryCatch, bind.
  destruct (BookingQueueService.handleMechanicReject b m reason w)
    as [[] w1|e w1]; simpl in *.
  all: eapply Effect_then_quiet; [exact Heff|done|done|done|repeat constructor].
Qed.

Lemma timerCallback_effect t w : Inv w → Effect w (fire (TimerFires t) w).
Proof.
  intros HI. unfold fire, handler, timerCallback.
  destruct (timers w !! t) as [b|]; [|apply Effect_refl].
  eapply Effect_core; [..|apply skipToNextMechanic_effect]; try done.
  eapply Inv_core; [..|exact HI]; done.
Qed.

Lemma notifyOthers_eq b rest w :
  BookingQueueService.notifyOthers b rest w =
    Ok tt (set_emitted w (emitted w ++ map (cancelledNotice b) rest)).
Proof.
  revert w. induction rest as [|m rest IH]; intros w; simpl.
  - unfold ret. rewrite app_nil_r. by destruct w.
  - unfold bind, emitToMechanic, emit. rewrite IH. simpl.
    by rewrite <- app_assoc.
Qed.

Lemma cancelled_quiet b rest :
  Forall (fun e => isOffer e = false) (map (cancelledNotice b) rest).
Proof. induction rest; constructor; done. Qed.

Lemma handleMechanicAccept_effect b m w :
  Inv w →
  Effect w (world_of (BookingQueueService.handleMechanicAccept b m w)).
Proof.
  intros [I1 I2 I3 I4].
  unfold BookingQueueService.handleMechanicAccept, bind, getQueue.
  destruct (activeQueues w !! b) as [q|] eqn:Hq; [|apply Effect_refl].
  destruct (BookingQueueService.notCurrent q m) eqn:Hn; [apply Effect_refl|].
  apply bool_decide_eq_false in Hn. apply dec_stable in Hn.
  destruct (BookingQueueService.currentMechanic q) as [cur|] eqn:Hcur;
    [|done].
  simpl in Hn. injection Hn as <-.
  pose proof (cancelled_quiet b
    (drop (q_currentIndex q + 1) (q_mechanics q))) as Hquiet.
  exec.
  all: try rewrite notifyOthers_eq in *; simplify_eq/=.
  all: try apply Effect_refl.
  all: try (apply (Quiet _ _ []); simpl; [done|by rewrite app_nil_r|done]).
  all: exec.
  all: rewrite <- ?app_assoc; simpl.
  all: eapply Accepted; simpl; eauto.
  all: unfold BookingQueueService.currentMechanic; eauto.
Qed.

Lemma handleBookingAccept_effect m b w :
  Inv w → Effect w (fire (SocketAccept m b) w).
Proof.
  intros HI. pose proof (handleMechanicAccept_effect b m w HI) as Heff.
  unfold fire, handler, SocketService.handleBookingAccept, tryCatch, bind.
  destruct (BookingQueueService.handleMechanicAccept b m w)
    as [[bk|err] w1|e w1]; simpl in *.
  - eapply Effect_then_quiet; [exact Heff|done|done|done|repeat constructor].
  - unfold findOneAndUpdateAccept.
    destruct (bookings w1 !! b) as [bk|] eqn:Hb; simpl.
    + destruct (acceptFilter bk); simpl.
      * eapply Effect_then_quiet; [exact Heff|done|..].
        -- by rewrite <- app_assoc.
        -- intros b'. simpl. rewrite lookup_insert.
           case_decide; [by eauto|done].
        -- repeat constructor.
      * eapply Effect_then_quiet;
          [exact Heff|done|done|done|repeat constructor].
    + eapply Effect_then_quiet;
        [exact Heff|done|done|done|repeat constructor].
  - eapply Effect_then_quiet; [exact Heff|done|done|done|repeat constructor].
Qed.

Lemma createBooking_effect b u nearby w :
  Inv w → Effect w (fire (CreateBooking b u nearby) w).
Proof.
  intros [I1 I2 I3 I4].
  unfold fire, handler, BookingController.createBooking,
    BookingController.createDocument, bind.
  destruct (bookings w !! b) as [bk|] eqn:Hb; [apply Effect_refl|].
  assert (Hq : activeQueues w !! b = None).
  { destruct (activeQueues w !! b) as [q|] eqn:E; [|done].
    destruct (I3 _ _ E) as [bk Hbk]. congruence. }
  destruct (decide (0 < length nearby)) as [Hpos|Hzero].
  - unfold BookingQueueService.startQueue.
    rewrite decide_False by lia.
    destruct (map BookingQueueService.toEntry nearby) as [|cur rest] eqn:Hms;
      [destruct nearby; simpl in *; [lia|done]|].
    clear Hpos. generalize (length nearby). intros len.
    exec.
    all: rewrite ?insert_insert_eq, <- ?app_assoc; simpl.
    all: eapply (Created _ _ b _ cur); simpl; eauto.
    all: try (by rewrite lookup_insert_eq).
    all: repeat constructor.
  - exec.
    all: rewrite (delete_id _ _ Hq).
    all: eapply Quiet; simpl; eauto; repeat constructor.
Qed.

Lemma fire_effect ev w : Inv w → Effect w (fire ev w).
Proof.
  intros HI. destruct ev.
  - by apply createBooking_effect.
  - by apply handleBookingAccept_effect.
  - by apply handleBookingReject_effect.
  - by apply timerCallback_effect.
  - apply (Quiet _ _ []); simpl; [done|by rewrite app_nil_r|done].
  - apply (Quiet _ _ []); simpl; [done|by rewrite app_nil_r|done].
Qed.

Lemma fire_Inv ev w : Inv w → Inv (fire ev w).
Proof.
  intros HI. eapply Effect_Inv; [exact HI|by apply fire_effect|].
  intros b. apply fire_keeps_documents.
Qed.

Lemma run_Inv evs w : Inv w → Inv (run evs w).
Proof.
  revert w. induction evs as [|ev evs IH]; intros w HI; simpl; [done|].
  apply IH. by apply fire_Inv.
Qed.

Lemma startServer_Inv s up t : Inv (startServer s up t).
Proof.
  split; simpl; try (intros b q Hq; by rewrite lookup_empty in Hq).
  intros b. unfold holders. simpl. set_solver.
Qed.

Lemma Effect_cursor w w' b q q' :
  Inv w → Effect w w' →
  activeQueues w !! b = Some q → activeQueues w' !! b = Some q' →
  q_mechanics q' = q_mechanics q ∧
  (q_currentIndex q' = q_currentIndex q ∨
   q_currentIndex q' = q_currentIndex q + 1).
Proof.
  intros [I1 I2 I3 I4] Heff Hq Hq'.
  destruct Heff as
    [ l Haq Hem Hl
    | b0 q0 cur next t reason dist l Hq0 Hcur Hnext Haq Hem Hl
    | b0 q0 cur reason l Hq0 Hcur Hlen Haq Hem Hl
    | b0 q0 cur u l Hq0 Hcur Haq Hem Hl
    | b0 q0 cur dist l Hnone Hsome Haq Hidx Hcur Hid Hem Hl ];
    rewrite Haq in Hq'.
  - simplify_eq. auto.
  - rewrite lookup_insert in Hq'. case_decide; simplify_eq/=; auto.
  - rewrite lookup_delete in Hq'. case_decide; simplify_eq/=; auto.
  - rewrite lookup_delete in Hq'. case_decide; simplify_eq/=; auto.
  - rewrite lookup_insert in Hq'. case_decide; simplify_eq/=; auto.
    destruct (I3 _ _ Hq) as [bk Hbk]. congruence.
Qed.

Lemma Effect_remaining w w' b :
  Inv w → Effect w w' → is_Some (bookings w !! b) →
  (if decide (cursor w' b = cursor w b) then 0 else 1) + remaining w' b
    ≤ remaining w b.
Proof.
  intros [I1 I2 I3 I4] Heff [bk Hbk]. unfold cursor, remaining.
  destruct Heff as
    [ l Haq Hem Hl
    | b0 q0 cur next t reason dist l Hq0 Hcur Hnext Haq Hem Hl
    | b0 q0 cur reason l Hq0 Hcur Hlen Haq Hem Hl
    | b0 q0 cur u l Hq0 Hcur Haq Hem Hl
    | b0 q0 cur dist l Hnone Hsome Haq Hidx Hcur Hid Hem Hl ];
    rewrite Haq.
  - rewrite decide_True by done. lia.
  - destruct (decide (b0 = b)) as [->|Hne].
    + rewrite lookup_insert_eq, Hq0. simpl. apply lookup_lt_Some in Hnext.
      case_decide; lia.
    + rewrite lookup_insert_ne by done. rewrite decide_True by done. lia.
  - destruct (decide (b0 = b)) as [->|Hne].
    + rewrite lookup_delete_eq, Hq0. simpl. pose proof (I1 _ _ Hq0).
      first [case_decide; [done|lia] | lia].
    + rewrite lookup_delete_ne by done. rewrite decide_True by done. lia.
  - destruct (decide (b0 = b)) as [->|Hne].
    + rewrite lookup_delete_eq, Hq0. simpl. pose proof (I1 _ _ Hq0).
      first [case_decide; [done|lia] | lia].
    + rewrite lookup_delete_ne by done. rewrite decide_True by done. lia.
  - destruct (decide (b0 = b)) as [->|Hne]; [congruence|].
    rewrite lookup_insert_ne by done. rewrite decide_True by done. lia.
Qed.

Lemma run_remaining b evs w :
  Inv w → is_Some (bookings w !! b) →
  moves b evs w + remaining (run evs w) b ≤ remaining w b.
Proof.
  revert w. induction evs as [|ev evs IH]; intros w HI Hb; simpl; [lia|].
  pose proof (Effect_remaining w (fire ev w) b HI (fire_effect ev w HI) Hb).
  pose proof (IH (fire ev w) (fire_Inv ev w HI) (fire_keeps_documents ev w b Hb)).
  lia.
Qed.

Lemma active_remaining w b q :
  Inv w → activeQueues w !! b = Some q → 0 < remaining w b.
Proof.
  intros HI Hq. unfold remaining. rewrite Hq.
  pose proof (inv_index w HI b q Hq). lia.
Qed.

Lemma run_cursor b evs w q q' :
  Inv w → activeQueues w !! b = Some q →
  activeQueues (run evs w) !! b = Some q' →
  q_mechanics q' = q_mechanics q ∧ q_currentIndex q ≤ q_currentIndex q'.
Proof.
  revert w q. induction evs as [|ev evs IH]; intros w q HI Hq Hq'; simpl in *.
  - simplify_eq. auto.
  - pose proof (inv_known w HI b q Hq) as Hb.
    destruct (activeQueues (fire ev w) !! b) as [q1|] eqn:Hq1.
    + destruct (Effect_cursor w (fire ev w) b q q1 HI (fire_effect ev w HI)
                  Hq Hq1) as [Hm Hc].
      destruct (IH (fire ev w) q1 (fire_Inv ev w HI) Hq1 Hq') as [Hm' Hc'].
      split; [congruence|lia].
    + pose proof (run_remaining b evs (fire ev w) (fire_Inv ev w HI)
                    (fire_keeps_documents ev w b Hb)) as Hrem.
      pose proof (active_remaining _ b q'
                    (run_Inv evs _ (fire_Inv ev w HI)) Hq') as Hpos.
      unfold remaining at 2 in Hrem. rewrite Hq1 in Hrem. lia.
Qed.

Lemma exclusive_nil : exclusive [].
Proof.
  intros k b. rewrite take_nil. unfold holders. cbn [foldl].
  rewrite size_empty. lia.
Qed.

Lemma exclusive_app_quiet l l' :
  exclusive l → Forall (fun e => isOffer e = false) l' → exclusive (l ++ l').
Proof.
  intros Hl Hq k b. rewrite take_app.
  rewrite holders_app.
  etrans; [apply subseteq_size, quiet_shrinks; by apply Forall_take|].
  apply Hl.
Qed.

Lemma exclusive_snoc l e :
  exclusive l → (∀ b, size (holders (l ++ [e]) b) ≤ 1) → exclusive (l ++ [e]).
Proof.
  intros Hl He k b.
  destruct (decide (k ≤ length l)) as [Hk|Hk].
  - rewrite take_app_le by done. apply Hl.
  - rewrite take_ge by (rewrite length_app; simpl; lia). apply He.
Qed.

Lemma Effect_exclusive w w' :
  Inv w → exclusive (emitted w) → Effect w w' → exclusive (emitted w').
Proof.
  intros [I1 I2 I3 I4] Hex Heff.
  destruct Heff as
    [ l Haq Hem Hl
    | b0 q cur next t reason dist l Hq Hcur Hnext Haq Hem Hl
    | b0 q cur reason l Hq Hcur Hlen Haq Hem Hl
    | b0 q cur u l Hq Hcur Haq Hem Hl
    | b0 q cur dist l Hnone Hsome Haq Hidx Hcur Hid Hem Hl ];
    rewrite Hem.
  - by apply exclusive_app_quiet.
  - assert (Hc0 : curset (activeQueues w) b0 = {[ m_id cur ]})
      by (unfold curset; rewrite Hq; simpl; by rewrite Hcur).
    change (?x :: ?y :: l) with ([x] ++ [y] ++ l). rewrite !app_assoc.
    apply exclusive_app_quiet; [|done].
    apply exclusive_snoc.
    + apply exclusive_app_quiet; [done|repeat constructor].
    + intros b. rewrite <- app_assoc, holders_app. simpl.
      pose proof (Hex (length (emitted w)) b) as Hb.
      rewrite firstn_all in Hb.
      destruct (decide (b0 = b)) as [<-|Hne]; [|done].
      specialize (I4 b0). rewrite Hc0 in I4.
      assert (holders (emitted w) b0 ∖ {[m_id cur]} ∪ {[m_id next]}
              ≡ {[m_id next]}) as -> by set_solver.
      by rewrite size_singleton.
  - change (?x :: l) with ([x] ++ l).
    apply exclusive_app_quiet; [done|].
    constructor; done.
  - change (?x :: l) with ([x] ++ l).
    apply exclusive_app_quiet; [done|].
    constructor; done.
  - assert (Hq0 : activeQueues w !! b0 = None).
    { destruct (activeQueues w !! b0) as [q0|] eqn:E; [|done].
      destruct (I3 _ _ E) as [bk Hbk]. congruence. }
    assert (Hc0 : curset (activeQueues w) b0 = ∅)
      by (unfold curset; by rewrite Hq0).
    change (?x :: l) with ([x] ++ l). rewrite app_assoc.
    apply exclusive_app_quiet; [|done].
    apply exclusive_snoc; [done|].
    intros b. rewrite holders_app. simpl.
    pose proof (Hex (length (emitted w)) b) as Hb.
    rewrite firstn_all in Hb.
    destruct (decide (b0 = b)) as [<-|Hne]; [|done].
    specialize (I4 b0). rewrite Hc0 in I4.
    assert (holders (emitted w) b0 ∪ {[m_id cur]} ≡ {[m_id cur]}) as ->
      by set_solver.
    by rewrite size_singleton.
Qed.

Lemma run_exclusive evs w :
  Inv w → exclusive (emitted w) → exclusive (emitted (run evs w)).
Proof.
  revert w. induction evs as [|ev evs IH]; intros w HI Hex; simpl; [done|].
  apply IH; [by apply fire_Inv|].
  eapply Effect_exclusive; [exact HI|exact Hex|by apply fire_effect].
Qed.

(** ** A handler in flight that runs alone *)

(** When no other handler runs between its suspensions, a handler with its
    [await]s does what the handler run as one step does. *)

Section Alone.
Import Concurrent.

Lemma alone_step {A} (x : Async A) s :
  alone x s = match step x s with
              | Awaiting rest s' => alone rest s'
              | o => o
              end.
Proof. by destruct x. Qed.

Lemma alone_await {A} (x : Async A) :
  ∀ s, alone (await x) s = alone x s.
Proof.
  revert x. fix IH 1. intros [body] s. simpl.
  destruct (body s); try reflexivity. apply IH.
Qed.

Lemma alone_andThen {A B} (x : Async A) (k : A → Async B) :
  ∀ s, alone (andThen x k) s =
         match alone x s with
         | Returned a s' => alone (k a) s'
         | Thrown e s' => Thrown e s'
         | Awaiting rest s' =>
             Awaiting (andThen rest k) s'
         end.
Proof.
  revert x. fix IH 1. intros [body] s. simpl.
  destruct (body s) as [a s'|e s'|rest s'].
  - by rewrite (alone_step (k a)).
  - reflexivity.
  - apply IH.
Qed.

Lemma alone_attempt {A} (x : Async A) (h : string → Async A) :
  ∀ s, alone (attempt x h) s =
         match alone x s with
         | Returned a s' => Returned a s'
         | Thrown e s' => alone (h e) s'
         | Awaiting rest s' =>
             Awaiting (attempt rest h) s'
         end.
Proof.
  revert x. fix IH 1. intros [body] s. simpl.
  destruct (body s) as [a s'|e s'|rest s'].
  - reflexivity.
  - by rewrite (alone_step (h e)).
  - apply IH.
Qed.

Lemma refines_sync {A} (m : M A) P : refines P (sync m) m.
Proof. intros s _. simpl. by destruct (m (world s)). Qed.

Lemma refines_resolve {A} (a : A) P : refines P (resolve a) (ret a).
Proof. by intros s _. Qed.

Lemma refines_reject {A} (e : string) P :
  refines P (@reject A e) (throw e).
Proof. by intros s _. Qed.

Lemma refines_await {A} (x : Async A) m P :
  refines P x m → refines P (await x) m.
Proof. intros H s Hs. rewrite alone_await. by apply H. Qed.

Lemma refines_andThen {A B} (x : Async A) (k : A → Async B) m mk P Q :
  refines P x m →
  (∀ w a w', P w → m w = Ok a w' → Q a w') →
  (∀ a, refines (Q a) (k a) (mk a)) →
  refines P (andThen x k) (bind m mk).
Proof.
  intros Hx HQ Hk s Hs. rewrite alone_andThen. unfold bind.
  pose proof (HQ (world s)) as HQ'.
  specialize (Hx s Hs).
  destruct (alone x s), (m (world s)); simpl in *; try done.
  destruct Hx as [-> <-]. apply Hk. by eapply HQ'.
Qed.

Lemma refines_attempt {A} (x : Async A) h m mh P :
  refines P x m → (∀ e, refines (fun _ => True) (h e) (mh e)) →
  refines P (attempt x h) (tryCatch m mh).
Proof.
  intros Hx Hh s Hs. rewrite alone_attempt. unfold tryCatch.
  specialize (Hx s Hs).
  destruct (alone x s), (m (world s)); simpl in *; try done.
  destruct Hx as [-> <-]. by apply Hh.
Qed.

Lemma refines_ext {A} (x : Async A) m m' P :
  (∀ w, P w → m w = m' w) → refines P x m → refines P x m'.
Proof. intros He H s Hs. rewrite <- He by done. by apply H. Qed.

Lemma refines_weaken {A} (x : Async A) m (P P' : World → Prop) :
  (∀ w, P' w → P w) → refines P x m → refines P' x m.
Proof. intros HP H s Hs. apply H. by apply HP. Qed.

(** The same with no condition on the state in between. *)
Lemma refines_then {A B} (x : Async A) (k : A → Async B) m mk P :
  refines P x m →
  (∀ a, refines (fun _ => True) (k a) (mk a)) →
  refines P (andThen x k) (bind m mk).
Proof.
  intros Hx Hk.
  by apply (refines_andThen x k m mk P (fun _ _ => True)).
Qed.

Ltac refine_step :=
  first
    [ apply refines_sync
    | apply refines_resolve
    | apply refines_reject
    | apply refines_await
    | apply refines_attempt; [|intros ?]
    | apply refines_then; [|intros ?] ].

Lemma saveQueueToRedis_refines b q P :
  refines P (Concurrent.saveQueueToRedis b q)
    (BookingQueueService.saveQueueToRedis b q).
Proof.
  unfold Concurrent.saveQueueToRedis, BookingQueueService.saveQueueToRedis.
  repeat refine_step.
Qed.

Lemma removeQueue_refines b P :
  refines P (removeQueue b) (deleteQueue b).
Proof. by intros s _. Qed.

Lemma cleanupQueue_refines b P :
  refines P (Concurrent.cleanupQueue b) (BookingQueueService.cleanupQueue b).
Proof.
  unfold Concurrent.cleanupQueue, BookingQueueService.cleanupQueue.
  refine_step. refine_step. refine_step. refine_step.
  apply refines_then; [apply removeQueue_refines|intros _].
  repeat refine_step.
Qed.

Lemma handleNoMechanicsAvailable_refines booking P :
  refines P (Concurrent.handleNoMechanicsAvailable booking)
    (BookingQueueService.handleNoMechanicsAvailable booking).
Proof.
  unfold Concurrent.handleNoMechanicsAvailable,
    BookingQueueService.handleNoMechanicsAvailable. cbv zeta.
  refine_step. refine_step. refine_step. refine_step. refine_step.
  refine_step. apply cleanupQueue_refines.
Qed.

Lemma sendToNextMechanic_refines b P :
  refines P (Concurrent.sendToNextMechanic b)
    (BookingQueueService.sendToNextMechanic b).
Proof.
  unfold Concurrent.sendToNextMechanic, BookingQueueService.sendToNextMechanic.
  refine_step; [refine_step|]. destruct a as [q|]; [|refine_step]. cbv zeta.
  case_decide.
  { refine_step. apply handleNoMechanicsAvailable_refines. }
  destruct (BookingQueueService.currentMechanic q); repeat refine_step.
Qed.

Lemma bind_assoc {A B C} (m : M A) (k : A → M B) (h : B → M C) w :
  bind (bind m k) h w = bind m (fun a => bind (k a) h) w.
Proof. unfold bind. by destruct (m w). Qed.

Lemma skipToNextMechanic_refines b reason P :
  refines P (Concurrent.skipToNextMechanic b reason)
    (BookingQueueService.skipToNextMechanic b reason).
Proof.
  unfold Concurrent.skipToNextMechanic, BookingQueueService.skipToNextMechanic.
  refine_step; [refine_step|]. destruct a as [q|]; [|refine_step]. cbv zeta.
  eapply refines_ext.
  2: { refine_step; [refine_step|]. refine_step.
       - refine_step. apply saveQueueToRedis_refines.
       - refine_step. apply sendToNextMechanic_refines. }
  intros w _. unfold bind.
  destruct (BookingQueueService.clearTimerOf q w); [|done].
  by destruct (BookingQueueService.currentMechanic q).
Qed.

Lemma handleMechanicReject_refines b m reason P :
  refines P (Concurrent.handleMechanicReject b m reason)
    (BookingQueueService.handleMechanicReject b m reason).
Proof.
  unfold Concurrent.handleMechanicReject,
    BookingQueueService.handleMechanicReject. cbv zeta.
  refine_step; [refine_step|]. destruct a as [q|]; [|refine_step].
  destruct (BookingQueueService.notCurrent q m); [refine_step|].
  refine_step; [refine_step|]. refine_step; [repeat refine_step|].
  refine_step. apply skipToNextMechanic_refines.
Qed.

Lemma handleBookingReject_refines m b reason P :
  refines P (Concurrent.handleBookingReject m b reason)
    (SocketService.handleBookingReject m b reason).
Proof.
  unfold Concurrent.handleBookingReject, SocketService.handleBookingReject.
  refine_step; [|refine_step].
  refine_step; [|refine_step].
  refine_step. apply handleMechanicReject_refines.
Qed.

Lemma objectOf_refines b q :
  refines (holds b q) (objectOf b) (ret (Some q)).
Proof. intros s Hs. simpl. unfold holds in Hs. by rewrite Hs. Qed.

Lemma handleMechanicAccept_refines b m P :
  refines P (Concurrent.handleMechanicAccept b m)
    (BookingQueueService.handleMechanicAccept b m).
Proof.
  unfold Concurrent.handleMechanicAccept,
    BookingQueueService.handleMechanicAccept.
  eapply (refines_andThen _ _ _ _ P
            (fun a w => match a with Some q => holds b q w | None => True end)).
  { refine_step. }
  { intros w a w' _ [= <- <-]. unfold holds.
    by destruct (activeQueues w !! b). }
  intros [q|]; [|refine_step].
  destruct (BookingQueueService.notCurrent q m); [refine_step|].
  eapply (refines_andThen _ _ _ _ _ (fun _ => holds b q)).
  { refine_step. }
  { intros w [] w' Hw. unfold BookingQueueService.clearTimerOf, holds in *.
    destruct (q_timer q); intros [= <-]; done. }
  intros _.
  eapply (refines_andThen _ _ _ _ _ (fun _ => holds b q)).
  { repeat refine_step. }
  { intros w a w' Hw. unfold findOneAndUpdateAccept, holds in *.
    destruct (bookings w !! b) as [bk|]; [destruct (acceptFilter bk)|];
      intros [= <- <-]; done. }
  intros [bk|]; [|refine_step].
  eapply (refines_andThen _ _ _ _ _ (fun _ => holds b q)).
  { refine_step. }
  { intros w [] w' Hw [= <-]. done. }
  intros _.
  eapply refines_ext.
  2: { eapply (refines_andThen _ _ (ret (Some q))
                 (fun object =>
                    BookingQueueService.notifyOthers b
                      (drop (q_currentIndex (default q object) + 1)
                         (q_mechanics q)) ;;
                    BookingQueueService.cleanupQueue b ;; ret (AcceptOk bk))
                 _ (fun _ _ => True)).
       - apply objectOf_refines.
       - done.
       - intros object. refine_step; [refine_step|].
         refine_step; [|refine_step].
         refine_step. apply cleanupQueue_refines. }
  done.
Qed.

Lemma handleBookingAccept_refines m b P :
  refines P (Concurrent.handleBookingAccept m b)
    (SocketService.handleBookingAccept m b).
Proof.
  unfold Concurrent.handleBookingAccept, SocketService.handleBookingAccept.
  refine_step; [|refine_step].
  refine_step; [refine_step; apply handleMechanicAccept_refines|].
  destruct a as [bk|e]; [refine_step|].
  refine_step; [repeat refine_step|].
  destruct a; refine_step.
Qed.

Lemma startQueue_refines booking nearby P :
  refines P (Concurrent.startQueue booking nearby)
    (BookingQueueService.startQueue booking nearby).
Proof.
  unfold Concurrent.startQueue, BookingQueueService.startQueue. cbv zeta.
  case_decide.
  { refine_step. apply handleNoMechanicsAvailable_refines. }
  refine_step; [refine_step|]. refine_step; [refine_step|].
  refine_step; [refine_step; apply saveQueueToRedis_refines|].
  refine_step; [refine_step; apply sendToNextMechanic_refines|].
  refine_step.
Qed.

Lemma createBooking_refines b u nearby P :
  refines P (Concurrent.createBooking b u nearby)
    (BookingController.createBooking b u nearby).
Proof.
  unfold Concurrent.createBooking, BookingController.createBooking.
  refine_step; [repeat refine_step|].
  eapply refines_ext.
  2: { apply (refines_then _ _ (ret tt)
                (fun _ =>
                   if decide (0 < length nearby) then
                     BookingQueueService.startQueue a nearby
                   else BookingQueueService.handleNoMechanicsAvailable a));
         [repeat refine_step|intros _].
       case_decide; refine_step;
         [apply startQueue_refines|apply handleNoMechanicsAvailable_refines]. }
  done.
Qed.

Lemma timerCallback_refines t P :
  refines P (timeoutCallback t) (timerCallback t).
Proof.
  intros s _. unfold timerCallback, timeoutCallback.
  rewrite alone_step. cbn [step].
  destruct (timers (world s) !! t) as [b|]; [|done].
  rewrite <- alone_step.
  exact (refines_await _ _ (fun _ => True)
           (skipToNextMechanic_refines b "timeout" _)
           (mkMemory _ _) I).
Qed.

(** A handler that is not overlapped by another one, going on as soon as
    it is suspended, returns or throws as the handler run as one step
    does, and leaves the same state. *)
Lemma handler_alone (p : Packet) (s : Memory) :
  agree (alone (handlerOf p) s)
    (handler (eventOf p) (world s)).
Proof.
  destruct p; simpl.
  - by apply (createBooking_refines _ _ _ (fun _ => True)).
  - by apply (handleBookingAccept_refines _ _ (fun _ => True)).
  - by apply (handleBookingReject_refines _ _ _ (fun _ => True)).
  - by apply (timerCallback_refines _ (fun _ => True)).
Qed.

End Alone.

(** * The claims *)

(** C1. Acceptance goes through one conditional update: an accept attempt
    changes the booking only if its status is PENDING or SEARCHING and it
    has no mechanic, and then sets status ACCEPTED and the mechanic;
    otherwise it writes nothing.  Once an attempt has succeeded, every later
    attempt for that booking, by any mechanic and after any events, fails;
    so at most one attempt of a run succeeds. *)
Theorem at_most_one_acceptance (m b : string) (w : World) :
  (acceptSucceeds m b w →
   ∃ bk bk',
     bookings w !! b = Some bk ∧
     (b_status bk = PENDING ∨ b_status bk = SEARCHING) ∧
     b_mechanicId bk = None ∧
     bookings (fire (SocketAccept m b) w) !! b = Some bk' ∧
     b_status bk' = ACCEPTED ∧ b_mechanicId bk' = Some m) ∧
  (¬ acceptSucceeds m b w →
   bookings (fire (SocketAccept m b) w) = bookings w) ∧
  (acceptSucceeds m b w →
   ∀ evs m', ¬ acceptSucceeds m' b (run evs (fire (SocketAccept m b) w))) ∧
  (∀ evs, acceptances b evs w ≤ 1).
Proof.
  split; [|split; [|split]].
  - intros (bk & Hb & Hf & Hb')%acceptSucceeds_inv.
    apply acceptFilter_spec in Hf as [Hst Hnone].
    exists bk, (acceptSet m (clock w) bk). done.
  - intros Hno.
    destruct (handleBookingAccept_bookings m b w) as [Heq|(bk & Hb & Hf & Heq)];
      [done|].
    destruct Hno. unfold acceptSucceeds.
    rewrite Heq, lookup_insert_eq, Hb. intros [= Hbk].
    apply acceptFilter_spec in Hf as [_ Hnone].
    rewrite <- Hbk in Hnone. done.
  - intros (bk & Hb & Hf & Hb')%acceptSucceeds_inv evs m'.
    destruct (run_keepsAssignee evs (fire (SocketAccept m b) w) b
                (acceptSet m (clock w) bk) m Hb' eq_refl) as (bk' & Hb'' & Hm').
    by eapply assigned_no_accept.
  - intros evs. revert w. induction evs as [|ev evs IH]; intros w; simpl; [lia|].
    destruct ev; simpl; try apply IH.
    case_decide as Hd; [|apply IH]. destruct Hd as [-> Hacc].
    apply acceptSucceeds_inv in Hacc as (bk & Hb & Hf & Hb').
    rewrite (assigned_acceptances _ evs _ _ mechanicId Hb' eq_refl). lia.
Qed.

Lemma at_most_one_acceptance_witness :
  acceptSucceeds "A" "bk1" world1 ∧
  ¬ acceptSucceeds "B" "bk1"
      (run [TimerFires 0] (fire (SocketAccept "A" "bk1") world1)).
Proof.
  assert (H : acceptSucceeds "A" "bk1" world1)
    by (unfold acceptSucceeds; vm_compute; discriminate).
  split; [exact H|].
  exact (proj1 (proj2 (proj2 (at_most_one_acceptance "A" "bk1" world1)))
           H [TimerFires 0] "B").
Defined.

(** Handlers that run one after the other.  An offer round,
    [sendToNextMechanic], sends [booking:new] to the candidate at the
    current index and to nobody else (to nobody at all when the booking has
    no queue or the index is past the end).  In every state between two
    handlers, and at every point of the emission log that led to it, at
    most one mechanic holds an offer for a booking: the current candidate
    of its queue, and nobody when the booking has no queue. *)
Lemma exclusive_between_handlers :
  (∀ b w, ∃ news,
     emitted (world_of (BookingQueueService.sendToNextMechanic b w)) =
       emitted w ++ news ∧
     offers news =
       match activeQueues w !! b with
       | Some q =>
           match BookingQueueService.currentMechanic q with
           | Some cur => [(m_id cur, b_id (q_booking q))]
           | None => []
           end
       | None => []
       end) ∧
  (∀ s up t evs b,
     let w := run evs (startServer s up t) in
     (∀ k, size (holders (take k (emitted w)) b) ≤ 1) ∧
     size (holders (emitted w) b) ≤ 1 ∧
     holders (emitted w) b ⊆ curset (activeQueues w) b ∧
     (activeQueues w !! b = None → holders (emitted w) b = ∅)).
Proof.
  split.
  - intros b w.
    destruct (activeQueues w !! b) as [q|] eqn:Hq.
    2: { exists []. exec. by rewrite app_nil_r. }
    destruct (BookingQueueService.currentMechanic q) as [cur|] eqn:Hcur.
    + assert (¬ length (q_mechanics q) ≤ q_currentIndex q)
        by (apply lookup_lt_Some in Hcur; lia).
      exec.
      all: rewrite <- ?app_assoc; eexists; split; reflexivity.
    + assert (length (q_mechanics q) ≤ q_currentIndex q)
        by (by apply lookup_ge_None in Hcur).
      exec.
      all: rewrite <- ?app_assoc; eexists; split; reflexivity.
  - intros s up t evs b. simpl.
    pose proof (run_Inv evs _ (startServer_Inv s up t)) as HI.
    pose proof (inv_holders _ HI b) as Hsub.
    split.
    { intros k.
      exact (run_exclusive evs _ (startServer_Inv s up t) exclusive_nil k b). }
    split; [|split; [done|]].
    + apply subseteq_size in Hsub. etrans; [exact Hsub|].
      unfold curset. destruct (_ ≫= _).
      * rewrite size_singleton. lia.
      * rewrite size_empty. lia.
    + intros Hnone. unfold curset in Hsub. rewrite Hnone in Hsub.
      simpl in Hsub. set_solver.
Qed.

Section OfferOutlivesJob.
Import Concurrent.

(** C2, at the failing inputs: the booking is settled and a mechanic still
    holds an offer for it.

    One handler after the other.  [bk1] is offered to A, and B, who is next
    in the queue, sends [booking:accept]: the fallback of
    [handleBookingAccept] writes ACCEPTED by B, and A keeps the offer.
    When A's timer fires, the accepted booking is offered to B.

    Handlers that overlap.  [bk1] is offered to A, first of the candidates
    A, B.  A accepts, and while the update of line 247 is awaited A's
    [booking:reject] arrives: A is still the current candidate, so the
    reject passes the test of lines 174-178, runs [skipToNextMechanic] and
    offers the booking to B.  The accept then goes on and removes the
    queue; the loop of line 284 starts after B, who is told nothing; the
    reject finds no queue to arm a timer on.  In the end the booking is
    ACCEPTED by A, there is no queue and no timer, and B holds an offer
    that nothing will withdraw; B's [booking:accept] is answered "Booking
    no longer available". *)
Theorem offer_outlives_the_job :
  (let w := run [SocketAccept "B" "bk1"] world1 in
   bookings w !! "bk1" =
     Some (mkBooking "bk1" "u1" (Some "B") ACCEPTED (Some 100)) ∧
   holders (emitted w) "bk1" = {[ "A" ]} ∧
   offers (drop (length (emitted w)) (emitted (run [TimerFires 0] w))) =
     [("B", "bk1")] ∧
   holders (emitted (run [TimerFires 0] w)) "bk1" = {[ "B" ]}) ∧
  (let p0 := created [annA; bobB] in
   (* the accept awaits the update of line 247, the reject the write of
      line 183 *)
   let p1 :=
     turns [Arrives (Accept "A" "bk1"); Arrives (Reject "A" "bk1" None)] p0 in
   (* the reject goes on, up to the [await] of line 122 *)
   let p2 := turns [Resumes 2; Resumes 2; Resumes 2] p1 in
   (* the accept goes on, up to the first [await] of [cleanupQueue] *)
   let p3 := turns [Resumes 1] p2 in
   (* the reject, then the accept, to the end *)
   let p4 :=
     turns [Resumes 2; Resumes 2; Resumes 2; Resumes 2;
            Resumes 1; Resumes 1; Resumes 1; Resumes 1] p3 in
   (* B answers the offer *)
   let p5 :=
     turns [Arrives (Accept "B" "bk1"); Resumes 3; Resumes 3; Resumes 3] p4 in
   state p0 = world1 ∧
   inFlight p0 = [false] ∧
   inFlight p1 = [false; true; true] ∧
   cursor (state p1) "bk1" = Some 0 ∧
   bookings (state p1) !! "bk1" =
     Some (mkBooking "bk1" "u1" (Some "A") ACCEPTED (Some 100)) ∧
   emitted (state p2) =
     emitted world1 ++
       [(MechanicRoom "A", BookingTimeout "bk1" "Moved to next mechanic");
        (MechanicRoom "B", BookingNew "bk1" None 10)] ∧
   cursor (state p2) "bk1" = Some 1 ∧
   emitted (state p3) =
     emitted (state p2) ++ [(UserRoom "u1", BookingAccepted "bk1" "A")] ∧
   activeQueues (state p3) = ∅ ∧
   inFlight p4 = [false; false; false] ∧
   emitted (state p4) =
     emitted (state p3) ++
       [(UserRoom "u1", QueueStatus "bk1" "REQUESTING" 2 2);
        (SocketOf "A", RejectAck None);
        (SocketOf "A",
         AcceptAck (AcceptOk (mkBooking "bk1" "u1" (Some "A") ACCEPTED
                                (Some 100))))] ∧
   holders (emitted (state p4)) "bk1" = {[ "B" ]} ∧
   activeQueues (state p4) = ∅ ∧
   timers (state p4) = ∅ ∧
   bookings (state p4) !! "bk1" =
     Some (mkBooking "bk1" "u1" (Some "A") ACCEPTED (Some 100)) ∧
   inFlight p5 = [false; false; false; false] ∧
   emitted (state p5) =
     emitted (state p4) ++
       [(SocketOf "B", AcceptAck (AcceptErr "Booking no longer available"))]).
Proof. vm_compute. repeat split; reflexivity. Qed.

End OfferOutlivesJob.

(** C3, at the failing input: candidates A, B with A current; B sends
    [booking:accept].  [handleMechanicAccept] answers "Not your turn to
    accept" and changes nothing, but [handleBookingAccept] then runs its
    fallback conditional update, which matches: the booking is ACCEPTED by
    B, B is acknowledged, and the queue still has A as current candidate. *)
Theorem stale_accept_reaches_fallback :
  BookingQueueService.handleMechanicAccept "bk1" "B" world1 =
    Ok (AcceptErr "Not your turn to accept") world1 ∧
  let w' := fire (SocketAccept "B" "bk1") world1 in
  bookings w' !! "bk1" =
    Some (mkBooking "bk1" "u1" (Some "B") ACCEPTED (Some 100)) ∧
  emitted w' =
    emitted world1 ++
      [(UserRoom "u1", BookingAccepted "bk1" "B");
       (SocketOf "B",
        AcceptAck
          (AcceptOk (mkBooking "bk1" "u1" (Some "B") ACCEPTED (Some 100))))] ∧
  activeQueues w' = activeQueues world1 ∧
  (m_id <$> (activeQueues w' !! "bk1" ≫= BookingQueueService.currentMechanic))
    = Some "A".
Proof. vm_compute. done. Qed.

(** C4 fails: A is the current candidate of [bk1] and accepts after the
    user cancelled; the conditional update does not match, and the queue
    neither moves its cursor nor offers the booking to B. *)
Lemma contention_no_advance_counterexample :
  let r := BookingQueueService.handleMechanicAccept "bk1" "A" world1_cancelled in
  findOneAndUpdateAccept "bk1" "A" world1_cancelled = Ok None world1_cancelled ∧
  q_currentIndex <$> activeQueues world1_cancelled !! "bk1" = Some 0 ∧
  ¬ (q_currentIndex <$> activeQueues (world_of r) !! "bk1" = Some 1) ∧
  q_currentIndex <$> activeQueues (world_of r) !! "bk1" = Some 0 ∧
  emitted (world_of r) = emitted world1_cancelled.
Proof. vm_compute. repeat split; done. Qed.

(** C4, amended. When the conditional update does not match for the current
    candidate, [handleMechanicAccept] clears the timer and returns
    "Booking no longer available": the queue entry, its cursor, the
    collection and the emission log are as before. *)
Theorem contention_returns_failure (b m : string) (w : World) (q : QueueData) :
  activeQueues w !! b = Some q →
  BookingQueueService.notCurrent q m = false →
  (∀ bk, bookings w !! b = Some bk → acceptFilter bk = false) →
  ∃ w', BookingQueueService.handleMechanicAccept b m w =
          Ok (AcceptErr "Booking no longer available") w' ∧
        activeQueues w' = activeQueues w ∧
        emitted w' = emitted w ∧
        bookings w' = bookings w ∧
        timers w' = match q_timer q with
                    | Some t => delete t (timers w)
                    | None => timers w
                    end.
Proof.
  intros Hq Hcur Hf. exec; eauto 10.
  all: by rewrite (Hf _ eq_refl) in *.
Qed.

Lemma contention_returns_failure_witness :
  ∃ w', BookingQueueService.handleMechanicAccept "bk1" "A" world1_cancelled =
          Ok (AcceptErr "Booking no longer available") w' ∧
        activeQueues w' = activeQueues world1_cancelled ∧
        emitted w' = emitted world1_cancelled ∧
        bookings w' = bookings world1_cancelled ∧
        timers w' = delete 0 (timers world1_cancelled).
Proof.
  refine (contention_returns_failure "bk1" "A" world1_cancelled
            (mkQueue "bk1" (mkBooking "bk1" "u1" None SEARCHING None)
               [mkEntry "A" (Some 3) "Ann"; mkEntry "B" None "Mechanic"]
               0 100 (Some 0)) eq_refl eq_refl _).
  intros bk Hbk. vm_compute in Hbk. by simplify_eq.
Defined.

(** C5 fails: [startQueue] is called again for [bk1] while its queue is at
    B.  The entry is replaced by a new one at index 0, the offer goes to A
    again, and the timer of the replaced entry stays pending next to the
    new one. *)
Lemma restart_replaces_counterexample :
  let w' := world_of (BookingQueueService.startQueue booking1 [annA; bobB] world2) in
  q_currentIndex <$> activeQueues world2 !! "bk1" = Some 1 ∧
  q_timer <$> activeQueues world2 !! "bk1" = Some (Some 1) ∧
  activeQueues w' !! "bk1" ≠ activeQueues world2 !! "bk1" ∧
  q_currentIndex <$> activeQueues w' !! "bk1" = Some 0 ∧
  q_timer <$> activeQueues w' !! "bk1" = Some (Some 2) ∧
  timers w' !! 1 = Some "bk1" ∧
  timers w' !! 2 = Some "bk1".
Proof. vm_compute. repeat split; done. Qed.

(** C5, amended. [startQueue] on a booking that has a queue installs a new
    entry at index 0 over the new candidates in its place and offers to the
    first of them; the timers that were pending stay pending; the table
    still has one entry per booking id, and no other entry changes. *)
Theorem restart_replaces_queue (booking : Booking)
    (nearby : list NearbyMechanic) (w : World) (q : QueueData) :
  nearby ≠ [] →
  activeQueues w !! b_id booking = Some q →
  timersFresh w →
  let w' := world_of (BookingQueueService.startQueue booking nearby w) in
  (∃ q', activeQueues w' !! b_id booking = Some q' ∧
         q_mechanics q' = map BookingQueueService.toEntry nearby ∧
         q_currentIndex q' = 0 ∧
         q_booking q' = booking) ∧
  (∀ b, b ≠ b_id booking → activeQueues w' !! b = activeQueues w !! b) ∧
  (∀ t b, timers w !! t = Some b → timers w' !! t = Some b) ∧
  (∃ m rest, map BookingQueueService.toEntry nearby = m :: rest ∧
     ∃ tail, emitted w' =
       emitted w ++
         (MechanicRoom (m_id m),
          BookingNew (b_id booking) (m_distance m) TIMEOUT_SECONDS) :: tail).
Proof.
  intros Hne Hq Hfresh. simpl. unfold BookingQueueService.startQueue.
  destruct (decide (length nearby = 0)) as [Hz|_];
    [by destruct nearby|].
  destruct (map BookingQueueService.toEntry nearby) as [|m rest] eqn:Hms;
    [by destruct nearby|].
  generalize (length nearby). intros len.
  exec.
  all: repeat split; eauto; try (intros; by rewrite ?lookup_insert_ne by done).
  all: try (intros t b Ht; rewrite lookup_insert_ne; [done|];
            apply Hfresh in Ht; simpl in Ht; lia).
  all: eexists _, _; split; [done|]; rewrite <- ?app_assoc; simpl; eauto.
Qed.

Lemma restart_replaces_queue_witness :
  ∃ q', activeQueues
          (world_of (BookingQueueService.startQueue booking1 [annA; bobB] world2))
          !! "bk1" = Some q' ∧
        q_mechanics q' = map BookingQueueService.toEntry [annA; bobB] ∧
        q_currentIndex q' = 0 ∧
        q_booking q' = booking1.
Proof.
  refine (proj1 (restart_replaces_queue booking1 [annA; bobB] world2
            (mkQueue "bk1" booking1
               [mkEntry "A" (Some 3) "Ann"; mkEntry "B" None "Mechanic"]
               1 100 (Some 1)) _ eq_refl _)).
  - discriminate.
  - unfold timersFresh. apply map_Forall_to_list. vm_compute.
    repeat constructor.
Defined.

(** C6, at the failing input: the stores hold the snapshot of [bk1] at
    index 1 and the booking is SEARCHING, yet the started server has no
    queue, no timer and has offered nothing: [startServer] never calls
    [restoreQueues].  Had it been called, B, the mechanic at the persisted
    index, would have been offered the booking. *)
Theorem startup_runs_no_recovery :
  s_currentIndex ∘ fst <$> redisQueue world2_restarted !! "bk1" = Some 1 ∧
  b_status <$> bookings world2_restarted !! "bk1" = Some SEARCHING ∧
  activeQueues world2_restarted = ∅ ∧
  timers world2_restarted = ∅ ∧
  emitted world2_restarted = [] ∧
  let w' := world_of (BookingQueueService.restoreQueues world2_restarted) in
  emitted w' =
    [(MechanicRoom "B", BookingNew "bk1" None 10);
     (UserRoom "u1", QueueStatus "bk1" "REQUESTING" 2 2)] ∧
  q_currentIndex <$> activeQueues w' !! "bk1" = Some 1.
Proof. vm_compute. repeat split; done. Qed.

(** C7. [startQueue] with an empty candidate list goes straight to the
    "no mechanic" outcome: the requester is told, the status is written,
    no offer is sent, no timer is armed and no entry of [activeQueues] is
    created; [createBooking] reaches the same outcome for an empty list. *)
Theorem empty_candidates_no_dispatch (booking : Booking) (w : World) :
  let w' := world_of (BookingQueueService.startQueue booking [] w) in
  emitted w' =
    emitted w ++
      [(UserRoom (b_userId booking), BookingNoMechanic (b_id booking))] ∧
  activeQueues w' = delete (b_id booking) (activeQueues w) ∧
  bookings w' =
    alter (setStatus NO_MECHANIC_AVAILABLE) (b_id booking) (bookings w) ∧
  nextTimer w' = nextTimer w ∧
  (∀ b u, bookings w !! b = None →
     let w'' := fire (CreateBooking b u []) w in
     emitted w'' = emitted w ++ [(UserRoom u, BookingNoMechanic b)] ∧
     activeQueues w'' = delete b (activeQueues w) ∧
     bookings w'' !! b = Some (mkBooking b u None NO_MECHANIC_AVAILABLE None) ∧
     nextTimer w'' = nextTimer w).
Proof.
  simpl. repeat split.
  1-4: exec; done.
  all: revert H; exec; intros; simplify_eq/=; try done.
  all: by rewrite lookup_alter, decide_True, lookup_insert_eq.
Qed.

Lemma empty_candidates_no_dispatch_witness :
  bookings world1 !! "bk2" = None ∧
  emitted (fire (CreateBooking "bk2" "u2" []) world1) =
    emitted world1 ++ [(UserRoom "u2", BookingNoMechanic "bk2")].
Proof.
  split; [reflexivity|].
  exact (proj1 (proj2 (proj2 (proj2 (proj2
           (empty_candidates_no_dispatch
              (mkBooking "bk2" "u2" None SEARCHING None) world1))))
           "bk2" "u2" eq_refl)).
Defined.

Section Advance.
Import BookingQueueService SocketService.

(** A handler that runs alone, on an active queue.  A reject from a
    mechanic who is not the current candidate changes nothing and is
    acknowledged without error; a reject from the current candidate
    (recorded in Redis) and the firing of the queue's timer both run
    [skipToNextMechanic], which cancels the pending timer, tells the
    skipped candidate that the offer is withdrawn, moves the index by one,
    persists the snapshot, and then offers to the candidate at the new
    index, or ends in the "no mechanic" outcome when there is none (for a
    queue stored under the id of its booking). *)
Lemma advance_of_a_handler_alone (b : string) (w : World) (q : QueueData) :
  activeQueues w !! b = Some q →
  (∀ m reason, notCurrent q m = true →
     handleMechanicReject b m reason w = Ok tt w ∧
     handleBookingReject m b reason w =
       Ok tt (set_emitted w (emitted w ++ [(SocketOf m, RejectAck None)]))) ∧
  (∀ m reason, notCurrent q m = false → redisConnected w = true →
     handleMechanicReject b m reason w =
       skipToNextMechanic b (default "rejected" reason)
         (set_redisReject w
            (<[(b, m) := (mkReject (default "rejected" reason) (clock w), 3600)]>
               (redisReject w)))) ∧
  (∀ t, timers w !! t = Some b →
     timerCallback t w =
       skipToNextMechanic b "timeout"
         (set_timers w (delete t (timers w)) (nextTimer w))) ∧
  (∀ reason cur, currentMechanic q = Some cur → redisConnected w = true →
     let q' := with_index (with_timer q None) (q_currentIndex q + 1) in
     let pending := match q_timer q with
                    | Some t => delete t (timers w)
                    | None => timers w
                    end in
     let withdrawn :=
       (MechanicRoom (m_id cur), BookingTimeout b (withdrawReason reason)) in
     (∀ next, q_mechanics q !! (q_currentIndex q + 1) = Some next →
        ∃ w', skipToNextMechanic b reason w = Ok tt w' ∧
        emitted w' =
          emitted w ++
            [withdrawn;
             (MechanicRoom (m_id next),
              BookingNew (b_id (q_booking q)) (m_distance next) TIMEOUT_SECONDS);
             (UserRoom (b_userId (q_booking q)),
              QueueStatus b "REQUESTING" (length (q_mechanics q))
                (q_currentIndex q + 1 + 1))] ∧
        activeQueues w' =
          <[b := with_timer q' (Some (nextTimer w))]> (activeQueues w) ∧
        timers w' = <[nextTimer w := b]> pending ∧
        redisQueue w' = <[b := (toSnapshot q', 600)]> (redisQueue w)) ∧
     (length (q_mechanics q) ≤ q_currentIndex q + 1 →
      b_id (q_booking q) = b →
        ∃ w', skipToNextMechanic b reason w = Ok tt w' ∧
        emitted w' =
          emitted w ++
            [withdrawn;
             (UserRoom (b_userId (q_booking q)), BookingNoMechanic b)] ∧
        activeQueues w' = delete b (activeQueues w) ∧
        timers w' = pending ∧
        bookings w' =
          alter (setStatus NO_MECHANIC_AVAILABLE) b (bookings w))).
Proof.
  intros Hq. split; [|split; [|split]].
  - intros m reason Hn. split; by exec.
  - intros m reason Hn Hr. unfold handleMechanicReject.
    unfold bind at 1. unfold getQueue at 1. rewrite Hq, Hn.
    unfold bind at 1. unfold now at 1.
    unfold bind at 1. unfold redisSetReject, bind, redisGuard. by rewrite Hr.
  - intros t Ht. unfold timerCallback. by rewrite Ht.
  - intros reason cur Hcur Hr. simpl. split.
    + intros next Hnext.
      assert (¬ length (q_mechanics q) ≤ q_currentIndex q + 1)
        by (apply lookup_lt_Some in Hnext; lia).
      destruct (q_timer q) as [t|] eqn:Ht.
      all: eexists; split; [exec; reflexivity|]; simpl.
      all: by rewrite insert_insert_eq, <- !app_assoc.
    + intros Hlen Hid.
      destruct (q_timer q) as [t|] eqn:Ht.
      all: eexists; split; [exec; reflexivity|]; simpl.
      all: by rewrite ?delete_insert_eq, <- ?app_assoc, Hid.
Qed.

End Advance.

Section OverlappingRejects.
Import Concurrent.

(** C8, at the failing input.  [bk1] is offered to A, first of the
    candidates A, B, C, and two [booking:reject] of A arrive one behind the
    other.  Both pass the test of lines 174-178 while the index is 0, and
    each awaits its write to Redis.  When they go on, each runs
    [skipToNextMechanic]: the first withdraws the offer from A and moves
    the index to 1; the second, which is stale by now, withdraws it from B,
    to whom the booking was never offered, and moves the index to 2.  Both
    then offer the booking to C.  Handled one after the other, the second
    reject changes nothing: the index is 1 and the booking is offered to
    B. *)
Theorem overlapping_rejects_withdraw_an_unoffered_candidate :
  let p0 := created [annA; bobB; calC] in
  (* both rejects await the write of line 183 *)
  let p1 :=
    turns [Arrives (Reject "A" "bk1" None); Arrives (Reject "A" "bk1" None)]
      p0 in
  (* each goes on, up to the [await] of line 355 *)
  let p2 := turns [Resumes 1; Resumes 2] p1 in
  (* each up to the [await] of line 122, then each to the end *)
  let p3 :=
    turns [Resumes 1; Resumes 1; Resumes 2; Resumes 2;
           Resumes 1; Resumes 1; Resumes 1; Resumes 1;
           Resumes 2; Resumes 2; Resumes 2; Resumes 2] p2 in
  inFlight p0 = [false] ∧
  cursor (state p0) "bk1" = Some 0 ∧
  offers (emitted (state p0)) = [("A", "bk1")] ∧
  timers (state p0) = {[ 0 := "bk1" ]} ∧
  inFlight p1 = [false; true; true] ∧
  cursor (state p1) "bk1" = Some 0 ∧
  emitted (state p1) = emitted (state p0) ∧
  cursor (state p2) "bk1" = Some 2 ∧
  emitted (state p2) =
    emitted (state p0) ++
      [(MechanicRoom "A", BookingTimeout "bk1" "Moved to next mechanic");
       (MechanicRoom "B", BookingTimeout "bk1" "Moved to next mechanic")] ∧
  inFlight p3 = [false; false; false] ∧
  cursor (state p3) "bk1" = Some 2 ∧
  emitted (state p3) =
    emitted (state p2) ++
      [(MechanicRoom "C", BookingNew "bk1" (Some 7) 10);
       (MechanicRoom "C", BookingNew "bk1" (Some 7) 10);
       (UserRoom "u1", QueueStatus "bk1" "REQUESTING" 3 3);
       (SocketOf "A", RejectAck None);
       (UserRoom "u1", QueueStatus "bk1" "REQUESTING" 3 3);
       (SocketOf "A", RejectAck None)] ∧
  offers (emitted (state p3)) = [("A", "bk1"); ("C", "bk1"); ("C", "bk1")] ∧
  (let w :=
     run [SocketReject "A" "bk1" None; SocketReject "A" "bk1" None]
       (state p0) in
   cursor w "bk1" = Some 1 ∧
   offers (emitted w) = [("A", "bk1"); ("B", "bk1")]).
Proof. vm_compute. repeat split; reflexivity. Qed.

End OverlappingRejects.

(** Handlers that run one after the other.  In every state between two
    handlers the index of a queue is at most the number of its candidates.
    From there on the candidates stay the same and the index never
    decreases; one event leaves it or adds exactly one.  The events that
    move the index or end the queue number at most
    [length candidates - index], and when that many have happened the queue
    is gone. *)
Lemma cursor_between_handlers (s : Stores) (up : bool) (t : nat)
    (evs0 : list Event) (b : string) (q : QueueData) :
  let w := run evs0 (startServer s up t) in
  activeQueues w !! b = Some q →
  q_currentIndex q ≤ length (q_mechanics q) ∧
  (∀ ev q', activeQueues (fire ev w) !! b = Some q' →
     q_mechanics q' = q_mechanics q ∧
     (q_currentIndex q' = q_currentIndex q ∨
      q_currentIndex q' = q_currentIndex q + 1)) ∧
  (∀ evs q', activeQueues (run evs w) !! b = Some q' →
     q_mechanics q' = q_mechanics q ∧
     q_currentIndex q ≤ q_currentIndex q' ≤ length (q_mechanics q)) ∧
  (∀ evs,
     moves b evs w ≤ length (q_mechanics q) - q_currentIndex q ∧
     moves b evs w ≤ length (q_mechanics q) + 1 ∧
     (moves b evs w = length (q_mechanics q) - q_currentIndex q →
      activeQueues (run evs w) !! b = None)).
Proof.
  simpl. intros Hq.
  pose proof (run_Inv evs0 _ (startServer_Inv s up t)) as HI.
  set (w := run evs0 (startServer s up t)) in *.
  pose proof (inv_index w HI b q Hq) as Hidx.
  pose proof (inv_known w HI b q Hq) as Hb.
  split; [lia|]. split; [|split].
  - intros ev q' Hq'.
    exact (Effect_cursor w (fire ev w) b q q' HI (fire_effect ev w HI) Hq Hq').
  - intros evs q' Hq'.
    destruct (run_cursor b evs w q q' HI Hq Hq') as [Hm Hc].
    pose proof (inv_index _ (run_Inv evs w HI) b q' Hq') as Hidx'.
    rewrite Hm in Hidx'. split; [done|lia].
  - intros evs. pose proof (run_remaining b evs w HI Hb) as Hrem.
    unfold remaining at 2 in Hrem. rewrite Hq in Hrem.
    split; [lia|]. split; [lia|].
    intros Heq.
    destruct (activeQueues (run evs w) !! b) as [q'|] eqn:Hq'; [|done].
    pose proof (active_remaining _ b q' (run_Inv evs w HI) Hq'). lia.
Qed.

Section RejectsPastTheEnd.
Import Concurrent.

(** C9, at the failing input.  [bk1] has the single candidate A, and three
    [booking:reject] of A arrive before the first of them has advanced the
    queue.  Each passes the test of lines 174-178 and each advances: the
    index becomes 1, 2 and 3 in a list of one candidate, three advances
    where [length + 1] is two, and the booking is still SEARCHING.  Each of
    the three then finds the list exhausted, and the requester is told
    [booking:no-mechanic] three times.  Handled one after the other, the
    first reject ends the queue and the other two change nothing. *)
Theorem overlapping_rejects_run_past_the_end :
  let p0 := created [annA] in
  (* the three rejects await the write of line 183 *)
  let p1 :=
    turns [Arrives (Reject "A" "bk1" None); Arrives (Reject "A" "bk1" None);
           Arrives (Reject "A" "bk1" None)] p0 in
  (* the first two go on, up to the [await] of line 355 *)
  let p2 := turns [Resumes 1; Resumes 2] p1 in
  (* and the third *)
  let p3 := turns [Resumes 3] p2 in
  (* each up to the [await] of line 304, of line 339 and of line 340, then
     each to the end *)
  let p4 :=
    turns [Resumes 1; Resumes 1; Resumes 2; Resumes 2; Resumes 3; Resumes 3;
           Resumes 1; Resumes 2; Resumes 3; Resumes 1; Resumes 2; Resumes 3;
           Resumes 1; Resumes 1; Resumes 1; Resumes 1; Resumes 1; Resumes 1;
           Resumes 2; Resumes 2; Resumes 2; Resumes 2; Resumes 2; Resumes 2;
           Resumes 3; Resumes 3; Resumes 3; Resumes 3; Resumes 3; Resumes 3]
      p3 in
  inFlight p0 = [false] ∧
  activeQueues (state p0) !! "bk1" =
    Some (mkQueue "bk1" booking1 [mkEntry "A" (Some 3) "Ann"] 0 100 (Some 0)) ∧
  inFlight p1 = [false; true; true; true] ∧
  cursor (state p1) "bk1" = Some 0 ∧
  activeQueues (state p2) !! "bk1" =
    Some (mkQueue "bk1" booking1 [mkEntry "A" (Some 3) "Ann"] 2 100 None) ∧
  activeQueues (state p3) !! "bk1" =
    Some (mkQueue "bk1" booking1 [mkEntry "A" (Some 3) "Ann"] 3 100 None) ∧
  b_status <$> bookings (state p3) !! "bk1" = Some SEARCHING ∧
  emitted (state p3) =
    emitted (state p0) ++
      [(MechanicRoom "A", BookingTimeout "bk1" "Moved to next mechanic")] ∧
  inFlight p4 = [false; false; false; false] ∧
  activeQueues (state p4) = ∅ ∧
  b_status <$> bookings (state p4) !! "bk1" = Some NO_MECHANIC_AVAILABLE ∧
  emitted (state p4) =
    emitted (state p3) ++
      [(UserRoom "u1", BookingNoMechanic "bk1");
       (UserRoom "u1", BookingNoMechanic "bk1");
       (UserRoom "u1", BookingNoMechanic "bk1");
       (SocketOf "A", RejectAck None);
       (SocketOf "A", RejectAck None);
       (SocketOf "A", RejectAck None)] ∧
  (let w :=
     run [SocketReject "A" "bk1" None; SocketReject "A" "bk1" None;
          SocketReject "A" "bk1" None] (state p0) in
   activeQueues w = ∅ ∧
   emitted w =
     emitted (state p0) ++
       [(MechanicRoom "A", BookingTimeout "bk1" "Moved to next mechanic");
        (UserRoom "u1", BookingNoMechanic "bk1");
        (SocketOf "A", RejectAck None);
        (SocketOf "A", RejectAck None);
        (SocketOf "A", RejectAck None)]).
Proof. vm_compute. repeat split; reflexivity. Qed.

End RejectsPastTheEnd.

(** C10, at the failing inputs.  On exhaustion
    [handleNoMechanicsAvailable] writes NO_MECHANIC_AVAILABLE to the
    booking, tells the requester and removes the queue entry.  The update
    of lines 304-315 has no filter on the status, unlike the accept update,
    which admits PENDING and SEARCHING bookings and leaves every other
    alone; so the exhaustion write also lands on a booking that is no
    longer SEARCHING.  [bk1], cancelled by the user while it was offered to
    A, becomes NO_MECHANIC_AVAILABLE when the timers of A and B have fired.
    [bk1], accepted by B through the fallback of [handleBookingAccept]
    while it was offered to A, becomes NO_MECHANIC_AVAILABLE as well, with
    B as its mechanic.  The accept update for its part moves a PENDING
    booking to ACCEPTED, as its filter says. *)
Theorem exhaustion_overwrites_settled_bookings :
  (∀ booking w,
     let w' :=
       world_of (BookingQueueService.handleNoMechanicsAvailable booking w) in
     bookings w' =
       alter (setStatus NO_MECHANIC_AVAILABLE) (b_id booking) (bookings w) ∧
     emitted w' =
       emitted w ++
         [(UserRoom (b_userId booking), BookingNoMechanic (b_id booking))] ∧
     activeQueues w' = delete (b_id booking) (activeQueues w)) ∧
  (bookings world1_cancelled !! "bk1" =
     Some (mkBooking "bk1" "u1" None CANCELLED None) ∧
   findOneAndUpdateAccept "bk1" "A" world1_cancelled =
     Ok None world1_cancelled ∧
   bookings (run [TimerFires 0; TimerFires 1] world1_cancelled) !! "bk1" =
     Some (mkBooking "bk1" "u1" None NO_MECHANIC_AVAILABLE None)) ∧
  (let w := run [SocketAccept "B" "bk1"] world1 in
   bookings w !! "bk1" =
     Some (mkBooking "bk1" "u1" (Some "B") ACCEPTED (Some 100)) ∧
   bookings (run [TimerFires 0; TimerFires 1] w) !! "bk1" =
     Some (mkBooking "bk1" "u1" (Some "B") NO_MECHANIC_AVAILABLE
             (Some 100))) ∧
  (b_status <$> bookings world_pending !! "bk9" = Some PENDING ∧
   b_status <$> bookings (fire (SocketAccept "A" "bk9") world_pending) !! "bk9"
     = Some ACCEPTED).
Proof.
  split; [|vm_compute; repeat split; reflexivity].
  intros booking w. simpl. repeat split; exec; done.
Qed.

(** * Further properties *)

(** ** Symbolic execution by head reduction *)

(** Symbolic execution, one head step at a time: the handler under
    [world_of] is reduced to weak head normal form, unfolding the monad,
    the primitives and the handlers only; the term it is stuck on is then
    split (or rewritten with a hypothesis that gives its value). *)
Ltac red_world :=
  cbn beta iota zeta delta
    [bookings activeQueues redisConnected redisQueue redisCurrent redisReject
     timers nextTimer clock emitted set_bookings set_activeQueues
     set_redisConnected set_redisQueue set_redisCurrent set_redisReject
     set_timers set_clock set_emitted world_of returns
     q_bookingId q_booking q_mechanics q_currentIndex q_startedAt q_timer
     b_id b_userId b_mechanicId b_status b_acceptedAt
     m_id m_distance m_name s_mechanics s_currentIndex s_startedAt
     BookingQueueService.with_timer BookingQueueService.with_index
     BookingQueueService.toSnapshot default length].

Ltac head_reduce X :=
  let X' := eval lazy head beta iota zeta delta
    [bind ret throw tryCatch
     getQueue setQueue deleteQueue now emit emitToUser emitToMechanic
     setTimeout clearTimeout redisGuard redisSetQueue redisSetCurrent
     redisSetReject redisGetQueue redisDeleteQueue redisDeleteCurrent
     findById findOneAndUpdateAccept findByIdAndUpdateStatus
     BookingQueueService.clearTimerOf
     BookingQueueService.notifyUserQueueStatus
     BookingQueueService.saveQueueToRedis
     BookingQueueService.cleanupQueue
     BookingQueueService.handleNoMechanicsAvailable
     BookingQueueService.startTimeout
     BookingQueueService.sendToNextMechanic
     BookingQueueService.skipToNextMechanic
     BookingQueueService.handleMechanicReject
     BookingQueueService.handleMechanicAccept
     BookingQueueService.startQueue
     BookingQueueService.currentMechanic
     BookingQueueService.restoreOne
     SocketService.handleBookingAccept SocketService.handleBookingReject
     BookingController.createDocument BookingController.createBooking
     timerCallback handler] in X in
  progress (change X with X').

Ltac head_step :=
  match goal with
  | |- context [world_of ?X] => head_reduce X
  | |- context [returns ?X] => head_reduce X
  | |- @eq (Result _) ?X _ => head_reduce X
  end.

(** A lookup in a list that starts with a known element. *)
Ltac list_lookup_step :=
  match goal with
  | |- context [(?a :: ?l) !! 0] =>
      change ((a :: l) !! 0) with (Some a)
  | |- context [(?a :: ?l) !! S ?n] =>
      change ((a :: l) !! S n) with (l !! n)
  end.

Ltac head_exec :=
  unfold fire;
  repeat first
    [ progress red_world
    | rewrite notifyOthers_eq
    | rewrite lookup_insert_eq
    | rewrite lookup_delete_eq
    | list_lookup_step
    | head_step
    | split_match ].

(** ** The status a queue reports *)


(** ** Recovery *)

Lemma holders_other b b' m dist n h :
  b' ≠ b → offerStep b h (MechanicRoom m, BookingNew b' dist n) = h.
Proof. intros Hne. simpl. by rewrite decide_False. Qed.











(** ** Pending timers *)














(** ** Snapshots *)

Ltac mirror_solve HM :=
  split; simpl; [done|];
  rewrite ?insert_insert_eq, ?delete_insert_eq;
  rewrite HM, ?fmap_insert, ?fmap_delete; done.

Lemma mirrored_core w0 w :
  redisConnected w0 = redisConnected w → redisQueue w0 = redisQueue w →
  activeQueues w0 = activeQueues w → mirrored w → mirrored w0.
Proof. intros H1 H2 H3 [Hr HM]. split; congruence. Qed.

Lemma skipToNextMechanic_mirrored b r w :
  Inv w → mirrored w →
  mirrored (world_of (BookingQueueService.skipToNextMechanic b r w)).
Proof.
  intros HI [Hr HM].
  destruct (activeQueues w !! b) as [q|] eqn:Hq; [|head_exec; done].
  pose proof (inv_key w HI b q Hq) as Hid.
  pose proof (inv_index w HI b q Hq) as Hidx. subst b.
  destruct (q_mechanics q !! q_currentIndex q) as [cur|] eqn:Hcur;
    [|apply lookup_ge_None in Hcur; lia].
  destruct (q_mechanics q !! (q_currentIndex q + 1)) as [next|] eqn:Hnext.
  - assert (¬ length (q_mechanics q) ≤ q_currentIndex q + 1)
      by (apply lookup_lt_Some in Hnext; lia).
    head_exec.
    all: mirror_solve HM.
  - apply lookup_ge_None in Hnext.
    head_exec.
    all: mirror_solve HM.
Qed.

Lemma handleMechanicReject_mirrored b m reason w :
  Inv w → mirrored w →
  mirrored (world_of (BookingQueueService.handleMechanicReject b m reason w)).
Proof.
  intros HI HM. unfold BookingQueueService.handleMechanicReject, bind, getQueue.
  destruct (activeQueues w !! b) as [q|]; [|done].
  destruct (BookingQueueService.notCurrent q m); [done|].
  unfold now, redisSetReject, bind, redisGuard.
  destruct (redisConnected w) eqn:Hr; [|done].
  apply skipToNextMechanic_mirrored.
  - eapply Inv_core; [..|exact HI]; done.
  - eapply mirrored_core; [..|exact HM]; done.
Qed.

Lemma handleBookingReject_mirrored m b reason w :
  Inv w → mirrored w → mirrored (fire (SocketReject m b reason) w).
Proof.
  intros HI HM.
  pose proof (handleMechanicReject_mirrored b m reason w HI HM) as H.
  unfold fire, handler, SocketService.handleBookingReject, tryCatch, bind.
  destruct (BookingQueueService.handleMechanicReject b m reason w)
    as [[] w1|e w1]; simpl in *.
  all: eapply mirrored_core; [..|exact H]; done.
Qed.

Lemma timerCallback_mirrored t w :
  Inv w → mirrored w → mirrored (fire (TimerFires t) w).
Proof.
  intros HI HM. unfold fire, handler, timerCallback.
  destruct (timers w !! t) as [b|] eqn:Ht; [|done].
  apply skipToNextMechanic_mirrored.
  - eapply Inv_core; [..|exact HI]; done.
  - eapply mirrored_core; [..|exact HM]; done.
Qed.

Lemma handleMechanicAccept_mirrored b m w :
  mirrored w →
  mirrored (world_of (BookingQueueService.handleMechanicAccept b m w)).
Proof.
  intros [Hr HM].
  unfold BookingQueueService.handleMechanicAccept, bind, getQueue.
  destruct (activeQueues w !! b) as [q|] eqn:Hq; [|done].
  destruct (BookingQueueService.notCurrent q m) eqn:Hn; [done|].
  head_exec.
  all: mirror_solve HM.
Qed.

Lemma handleBookingAccept_mirrored m b w :
  mirrored w → mirrored (fire (SocketAccept m b) w).
Proof.
  intros HM.
  pose proof (handleMechanicAccept_mirrored b m w HM) as H.
  unfold fire, handler, SocketService.handleBookingAccept, tryCatch, bind.
  destruct (BookingQueueService.handleMechanicAccept b m w)
    as [[bk|err] w1|e w1]; simpl in *.
  - eapply mirrored_core; [..|exact H]; done.
  - unfold findOneAndUpdateAccept.
    destruct (bookings w1 !! b) as [bk|]; simpl;
      [destruct (acceptFilter bk); simpl|].
    all: eapply mirrored_core; [..|exact H]; done.
  - eapply mirrored_core; [..|exact H]; done.
Qed.

Lemma createBooking_mirrored b u nearby w :
  mirrored w → mirrored (fire (CreateBooking b u nearby) w).
Proof.
  intros [Hr HM].
  unfold fire, handler, BookingController.createBooking,
    BookingController.createDocument, bind.
  destruct (bookings w !! b) as [bk|] eqn:Hb; [done|].
  destruct (decide (0 < length nearby)) as [Hpos|Hzero].
  - unfold BookingQueueService.startQueue.
    rewrite decide_False by lia.
    destruct (map BookingQueueService.toEntry nearby) as [|cur rest] eqn:Hms;
      [destruct nearby; simpl in *; [lia|done]|].
    clear Hpos. generalize (length nearby). intros len.
    head_exec.
    all: mirror_solve HM.
  - head_exec.
    all: mirror_solve HM.
Qed.

Lemma run_mirrored evs w :
  linkStaysUp evs → Inv w → mirrored w → mirrored (run evs w).
Proof.
  revert w. induction evs as [|ev evs IH]; intros w Hup HI HM; simpl; [done|].
  apply Forall_cons in Hup as [Hev Hup].
  apply IH; [done|by apply fire_Inv|].
  destruct ev.
  - by apply createBooking_mirrored.
  - by apply handleBookingAccept_mirrored.
  - by apply handleBookingReject_mirrored.
  - by apply timerCallback_mirrored.
  - destruct up; [|done]. destruct HM as [Hr HM]. split; done.
  - done.
Qed.

(** X4. A server has started with a Redis client and no snapshot and has
    handled events one after another, and the client was not lost.  For a
    queue that started less than 600 seconds ago, so that the TTL of its
    snapshot has not run out, Redis holds under [booking:queue:<id>] the
    snapshot of the queue as it is now: candidates, current index and start
    time, written with a TTL of 600 seconds; reading it gives the live
    index and candidate.  A booking without a queue has no snapshot. *)
Theorem snapshots_mirror_queues (s : Stores) (t : nat) (evs : list Event) :
  st_redisQueue s = ∅ → linkStaysUp evs →
  let w := run evs (startServer s true t) in
  (∀ b q, activeQueues w !! b = Some q →
     clock w < q_startedAt q + SNAPSHOT_TTL_SECONDS * 1000 →
     redisQueue w !! b =
       Some (mkSnapshot (q_mechanics q) (q_currentIndex q) (q_startedAt q),
             SNAPSHOT_TTL_SECONDS) ∧
     ∃ snap, redisGetQueue b w = Ok (Some snap) w ∧
             s_mechanics snap = q_mechanics q ∧
             s_currentIndex snap = q_currentIndex q ∧
             s_mechanics snap !! s_currentIndex snap =
               BookingQueueService.currentMechanic q) ∧
  (∀ b, activeQueues w !! b = None →
     redisQueue w !! b = None ∧ redisGetQueue b w = Ok None w).
Proof.
  intros Hempty Hup w0. subst w0.
  destruct (run_mirrored evs (startServer s true t) Hup
              (startServer_Inv s true t)) as [Hr HM].
  { split; simpl; [done|]. by rewrite Hempty, fmap_empty. }
  set (w := run evs (startServer s true t)) in *.
  assert (Hlook : ∀ b, redisQueue w !! b = persistedEntry <$> activeQueues w !! b)
    by (intros b; by rewrite HM, lookup_fmap).
  split.
  - intros b q Hq _. split; [by rewrite Hlook, Hq|]. eexists.
    unfold redisGetQueue, redisGuard, bind. rewrite Hr, Hlook, Hq. simpl.
    split; [reflexivity|]. done.
  - intros b Hq. split; [by rewrite Hlook, Hq|].
    unfold redisGetQueue, redisGuard, bind. by rewrite Hr, Hlook, Hq.
Qed.

Lemma snapshots_mirror_queues_witness :
  let w := run [CreateBooking "bk1" "u1" [annA; bobB]; TimerFires 0]
             (startServer (mkStores ∅ ∅ ∅ ∅) true 100) in
  let q := mkQueue "bk1" booking1
             [mkEntry "A" (Some 3) "Ann"; mkEntry "B" None "Mechanic"]
             1 100 (Some 1) in
  st_redisQueue (mkStores ∅ ∅ ∅ ∅) = ∅ ∧
  linkStaysUp [CreateBooking "bk1" "u1" [annA; bobB]; TimerFires 0] ∧
  activeQueues w !! "bk1" = Some q ∧
  clock w < q_startedAt q + SNAPSHOT_TTL_SECONDS * 1000 ∧
  redisQueue w !! "bk1" =
    Some (mkSnapshot [mkEntry "A" (Some 3) "Ann"; mkEntry "B" None "Mechanic"]
            1 100, SNAPSHOT_TTL_SECONDS).
Proof.
  intros w q.
  assert (Hup : linkStaysUp [CreateBooking "bk1" "u1" [annA; bobB]; TimerFires 0])
    by (repeat constructor; discriminate).
  assert (Hq : activeQueues w !! "bk1" = Some q) by (vm_compute; reflexivity).
  assert (Hclock : clock w < q_startedAt q + SNAPSHOT_TTL_SECONDS * 1000).
  { replace (clock w) with 100 by (vm_compute; reflexivity).
    unfold SNAPSHOT_TTL_SECONDS. simpl q_startedAt. lia. }
  split; [reflexivity|]. split; [exact Hup|]. split; [exact Hq|].
  split; [exact Hclock|].
  exact (proj1 (proj1 (snapshots_mirror_queues (mkStores ∅ ∅ ∅ ∅) 100
           [CreateBooking "bk1" "u1" [annA; bobB]; TimerFires 0] eq_refl Hup)
           "bk1" q Hq Hclock)).
Defined.

(** ** The accept of the current candidate *)

Section AcceptedOffer.

Import BookingQueueService SocketService.


End AcceptedOffer.


(** ** A queue nobody answers *)

Lemma offers_app l l' : offers (l ++ l') = offers l ++ offers l'.
Proof. unfold offers. by rewrite omap_app. Qed.

Section Walk.

Import BookingQueueService.

Lemma createBooking_stands b u cur rest nearby w :
  bookings w !! b = None →
  redisConnected w = true →
  map toEntry nearby = cur :: rest →
  let w' := fire (CreateBooking b u nearby) w in
  standsAt w' b u (cur :: rest) 0 (nextTimer w) ∧
  bookings w' = <[b := mkBooking b u None SEARCHING None]> (bookings w) ∧
  emitted w' =
    emitted w ++
      [(MechanicRoom (m_id cur), BookingNew b (m_distance cur) TIMEOUT_SECONDS);
       (UserRoom u, QueueStatus b "REQUESTING" (length nearby) 1);
       (UserRoom u, QueueStatus b "SEARCHING" (length nearby) 1)].
Proof.
  intros Hb Hr Hms. simpl.
  assert (Hlen : length nearby = S (length rest)).
  { apply (f_equal length) in Hms. by rewrite length_map in Hms. }
  unfold fire, handler, BookingController.createBooking,
    BookingController.createDocument, bind. rewrite Hb.
  rewrite decide_True by lia.
  unfold startQueue. rewrite decide_False by lia. rewrite Hms.
  head_exec.
  rewrite insert_insert_eq, <- !app_assoc. simpl.
  split; [|split; [done|by rewrite Hlen]].
  split; simpl; try done.
  - eexists. rewrite lookup_insert_eq. split; [done|]. done.
  - by rewrite lookup_insert_eq.
Qed.

Lemma timeout_advances w b u ms k t next :
  standsAt w b u ms k t →
  ms !! S k = Some next →
  let w' := fire (TimerFires t) w in
  standsAt w' b u ms (S k) (S t) ∧
  bookings w' = bookings w ∧
  ∃ cur, ms !! k = Some cur ∧
    emitted w' =
      emitted w ++
        [(MechanicRoom (m_id cur), BookingTimeout b "Time expired");
         (MechanicRoom (m_id next),
          BookingNew b (m_distance next) TIMEOUT_SECONDS);
         (UserRoom u, QueueStatus b "REQUESTING" (length ms) (S k + 1))].
Proof.
  intros [(q & Hq & Hms & Hk & Hqt & Hid & Hu) Ht Hn Hr] Hnext. simpl.
  subst ms k b u.
  destruct (q_mechanics q !! q_currentIndex q) as [cur|] eqn:Hcur.
  2: { apply lookup_ge_None in Hcur. apply lookup_lt_Some in Hnext. lia. }
  assert (¬ length (q_mechanics q) ≤ q_currentIndex q + 1)
    by (apply lookup_lt_Some in Hnext; lia).
  replace (S (q_currentIndex q)) with (q_currentIndex q + 1) in * by lia.
  unfold fire, handler, timerCallback. rewrite Ht.
  head_exec.
  rewrite insert_insert_eq, <- !app_assoc, Hn. simpl.
  split; [|split; [done|]].
  2: { exists cur. split; [done|].
       replace (S (q_currentIndex q + 1)) with (q_currentIndex q + 1 + 1)
         by lia.
       reflexivity. }
  split; simpl; try done.
  - eexists. rewrite lookup_insert_eq. split; [done|]. done.
  - by rewrite lookup_insert_eq.
Qed.

Lemma timeout_exhausts w b u ms k t :
  standsAt w b u ms k t →
  length ms = S k →
  let w' := fire (TimerFires t) w in
  activeQueues w' = delete b (activeQueues w) ∧
  bookings w' = alter (setStatus NO_MECHANIC_AVAILABLE) b (bookings w) ∧
  timers w' = delete t (timers w) ∧
  ∃ cur, ms !! k = Some cur ∧
    emitted w' =
      emitted w ++
        [(MechanicRoom (m_id cur), BookingTimeout b "Time expired");
         (UserRoom u, BookingNoMechanic b)].
Proof.
  intros [(q & Hq & Hms & Hk & Hqt & Hid & Hu) Ht Hn Hr] Hlen. simpl.
  subst ms k b u.
  destruct (q_mechanics q !! q_currentIndex q) as [cur|] eqn:Hcur.
  2: { apply lookup_ge_None in Hcur. lia. }
  assert (length (q_mechanics q) ≤ q_currentIndex q + 1) by lia.
  unfold fire, handler, timerCallback. rewrite Ht.
  head_exec.
  rewrite delete_insert_eq, delete_delete_eq, <- !app_assoc. simpl.
  repeat split; try done. by eauto.
Qed.

Lemma timeouts_S t k : timeouts t (S k) = TimerFires t :: timeouts (S t) k.
Proof. reflexivity. Qed.

Lemma timeouts_snoc t k :
  timeouts t (S k) = timeouts t k ++ [TimerFires (t + k)].
Proof. unfold timeouts. by rewrite seq_S, fmap_app. Qed.

Lemma run_snoc evs ev w : run (evs ++ [ev]) w = fire ev (run evs w).
Proof. revert w. induction evs as [|e evs IH]; intros w; simpl; [done|apply IH]. Qed.

Lemma walk_steps w b u ms k0 t k :
  standsAt w b u ms k0 t →
  k0 + k < length ms →
  standsAt (run (timeouts t k) w) b u ms (k0 + k) (t + k) ∧
  (∃ l, emitted (run (timeouts t k) w) = emitted w ++ l ∧
        offers l = (fun m => (m_id m, b)) <$> take k (drop (S k0) ms)) ∧
  bookings (run (timeouts t k) w) = bookings w.
Proof.
  revert w k0 t. induction k as [|k IH]; intros w k0 t Hst Hlt.
  - rewrite !Nat.add_0_r. split; [done|]. split; [|done].
    exists []. by rewrite app_nil_r.
  - assert (is_Some (ms !! S k0)) as [next Hnext]
      by (apply lookup_lt_is_Some; lia).
    destruct (timeout_advances w b u ms k0 t next Hst Hnext)
      as (Hst' & Hbk & cur & Hcur & Hem).
    cbv zeta in Hst', Hbk, Hem.
    destruct (IH (fire (TimerFires t) w) (S k0) (S t) Hst')
      as (Hfin & (l & Hl & Hoff) & Hbk'); [lia|].
    rewrite timeouts_S. cbn [run].
    replace (k0 + S k) with (S k0 + k) by lia.
    replace (t + S k) with (S t + k) by lia.
    split; [done|]. split; [|congruence].
    eexists. split.
    + rewrite Hl, Hem, <- app_assoc. reflexivity.
    + rewrite offers_app, Hoff. cbn.
      rewrite (drop_S _ _ _ Hnext). done.
Qed.

End Walk.

(** X8. A booking created with the candidates [m_0 .. m_(n-1)], [n > 0],
    that nobody answers.  After the timers of the first [k < n] offers have
    fired, the offers made are those to [m_0 .. m_k], in this order and once
    each, the queue stands at [m_k] and the booking is SEARCHING.  When the
    timer of the last offer has fired too, every candidate has been offered
    the booking once, the last emission is [booking:no-mechanic] to the
    requester, the queue is gone and the booking is
    NO_MECHANIC_AVAILABLE. *)
Theorem timeouts_walk_the_queue (w : World) (b u : string)
    (nearby : list NearbyMechanic) :
  bookings w !! b = None →
  redisConnected w = true →
  nearby ≠ [] →
  let ms := map BookingQueueService.toEntry nearby in
  let w1 := fire (CreateBooking b u nearby) w in
  (∀ k, k < length nearby →
     let wk := run (timeouts (nextTimer w) k) w1 in
     (∃ l, emitted wk = emitted w ++ l ∧ offers l = offersUpTo b ms k) ∧
     cursor wk b = Some k ∧
     b_status <$> bookings wk !! b = Some SEARCHING) ∧
  (let wn := run (timeouts (nextTimer w) (length nearby)) w1 in
   (∃ l, emitted wn = emitted w ++ l ++ [(UserRoom u, BookingNoMechanic b)] ∧
         offers l = offersUpTo b ms (length nearby - 1)) ∧
   activeQueues wn !! b = None ∧
   b_status <$> bookings wn !! b = Some NO_MECHANIC_AVAILABLE).
Proof.
  intros Hb Hr Hne. cbv zeta.
  destruct (map BookingQueueService.toEntry nearby) as [|cur rest] eqn:Hms;
    [by destruct nearby|].
  assert (Hlen : length nearby = S (length rest)).
  { apply (f_equal length) in Hms. by rewrite length_map in Hms. }
  destruct (createBooking_stands b u cur rest nearby w Hb Hr Hms)
    as (Hst & Hbk & Hem).
  cbv zeta in Hst, Hbk, Hem.
  set (w1 := fire (CreateBooking b u nearby) w) in *.
  assert (Hwalk : ∀ k, k < length nearby →
    standsAt (run (timeouts (nextTimer w) k) w1) b u (cur :: rest) k
      (nextTimer w + k) ∧
    (∃ l, emitted (run (timeouts (nextTimer w) k) w1) = emitted w ++ l ∧
          offers l = offersUpTo b (cur :: rest) k) ∧
    bookings (run (timeouts (nextTimer w) k) w1) = bookings w1).
  { intros k Hk.
    destruct (walk_steps w1 b u (cur :: rest) 0 (nextTimer w) k Hst)
      as (Hfin & (l & Hl & Hoff) & Hbk'); [simpl; lia|].
    split; [done|]. split; [|done].
    eexists. split.
    - rewrite Hl, Hem, <- app_assoc. reflexivity.
    - rewrite offers_app, Hoff. unfold offersUpTo. cbn. by rewrite drop_0. }
  split.
  - intros k Hk. destruct (Hwalk k Hk) as (Hfin & Hoff & Hbk').
    split; [done|].
    destruct Hfin as [(q & Hq & _ & Hidx & _) _ _ _].
    unfold cursor. rewrite Hq, Hbk', Hbk, lookup_insert_eq. simpl.
    by rewrite Hidx.
  - destruct (Hwalk (length rest)) as (Hfin & (l & Hl & Hoff) & Hbk'); [lia|].
    rewrite Hlen, timeouts_snoc, run_snoc.
    set (wk := run (timeouts (nextTimer w) (length rest)) w1) in *.
    destruct (timeout_exhausts wk b u (cur :: rest) (length rest)
                (nextTimer w + length rest) Hfin)
      as (Haq & Hbks & Hts & last_c & Hlast & Hem'); [done|].
    cbv zeta in Haq, Hbks, Hts, Hem'.
    replace (S (length rest) - 1) with (length rest) by lia.
    split; [|split].
    + exists (l ++ [(MechanicRoom (m_id last_c), BookingTimeout b "Time expired")]).
      split.
      * rewrite Hem', Hl, <- !app_assoc. reflexivity.
      * rewrite offers_app, Hoff. cbn. by rewrite app_nil_r.
    + rewrite Haq. apply lookup_delete_eq.
    + rewrite Hbks, lookup_alter_eq, Hbk', Hbk, lookup_insert_eq. done.
Qed.

Lemma timeouts_walk_the_queue_witness :
  cursor (run (timeouts (nextTimer world0) 1)
            (fire (CreateBooking "bk1" "u1" [annA; bobB]) world0)) "bk1"
    = Some 1 ∧
  activeQueues (run (timeouts (nextTimer world0) 2)
                  (fire (CreateBooking "bk1" "u1" [annA; bobB]) world0))
    !! "bk1" = None.
Proof.
  assert (Hb : bookings world0 !! "bk1" = None) by (vm_compute; reflexivity).
  assert (Hr : redisConnected world0 = true) by reflexivity.
  assert (Hne : [annA; bobB] ≠ []) by discriminate.
  destruct (timeouts_walk_the_queue world0 "bk1" "u1" [annA; bobB] Hb Hr Hne)
    as [Hk (_ & Hq & _)].
  split; [|exact Hq].
  exact (proj1 (proj2 (Hk 1 ltac:(simpl; lia)))).
Defined.

(** ** The booking after dispatch *)

Module LifecycleProofs.
Import Lifecycle LifecycleRuns.

Lemma named_Some allowed name st :
  named allowed name = Some st → st ∈ allowed ∧ statusName st = name.
Proof.
  unfold named. intros H. apply find_some in H as [Hin Hn].
  split; [by apply list_elem_of_In|]. by apply bool_decide_eq_true in Hn.
Qed.

Lemma statusName_inj st st' : statusName st = statusName st' → st = st'.
Proof. destruct st, st'; simpl; intros H; try done; discriminate. Qed.

Lemma named_statusName allowed st :
  st ∈ allowed → named allowed (statusName st) = Some st.
Proof.
  unfold named. induction allowed as [|a l IH]; intros Hin.
  - by apply elem_of_nil in Hin.
  - simpl. case_bool_decide as Ha.
    + by apply statusName_inj in Ha as ->.
    + apply elem_of_cons in Hin as [->|Hin]; [done|]. by apply IH.
Qed.

Lemma updateStatus_job st ad now d :
  b_id (job (updateStatus st ad now d)) = b_id (job d) ∧
  b_userId (job (updateStatus st ad now d)) = b_userId (job d) ∧
  b_mechanicId (job (updateStatus st ad now d)) = b_mechanicId (job d) ∧
  status (updateStatus st ad now d) = st.
Proof.
  unfold updateStatus, status.
  destruct st; simpl; try done.
  destruct (startedAt d); done.
Qed.

Lemma findForUser_Some id u s d :
  findForUser id u s = Some d → docs s !! id = Some d ∧ b_userId (job d) = u.
Proof.
  unfold findForUser. destruct (docs s !! id) as [d0|]; [|done].
  case_decide; [|done]. by intros [= <-].
Qed.

Lemma findForMechanic_Some id m s d :
  findForMechanic id m s = Some d →
  docs s !! id = Some d ∧ b_mechanicId (job d) = Some m.
Proof.
  unfold findForMechanic. destruct (docs s !! id) as [d0|]; [|done].
  case_decide; [|done]. by intros [= <-].
Qed.

Lemma cancelBooking_Moved u id reason s :
  keyed s → Moved s (BookingController.cancelBooking u id reason s).2.
Proof.
  intros Hk. unfold BookingController.cancelBooking.
  destruct (findForUser id u s) as [d|] eqn:Hf; [|by apply Unmoved].
  apply findForUser_Some in Hf as [Hd Hu].
  pose proof (Hk _ _ Hd) as Hid.
  case_bool_decide as Hc; [|by apply Unmoved].
  destruct (updateStatus_job CANCELLED (mkCancellation reason (Some BY_USER))
              (today s) d) as (Hi & _ & Hm & Hst).
  set (d' := updateStatus CANCELLED _ (today s) d) in *.
  assert (Hlt : stage (status d) < stage (status d') ∧ stage (status d) < 7).
  { rewrite Hst. unfold BookingController.cancellableStatuses in Hc.
    set_unfold in Hc. destruct Hc as [->|[->|[->|[->|[]]]]]; simpl; lia. }
  destruct Hlt as [Hlt Hlt7].
  destruct (BookingController.refundDue d') as [a|] eqn:Hr;
    destruct (b_mechanicId (job d')) as [m|] eqn:Hm'; simpl.
  all: eapply (Forward _ _ id d d'); simpl; eauto; try congruence.
  all: try (by rewrite app_nil_r).
  all: right; split; [done|]; rewrite ?Hi, ?Hid; eauto.
Qed.

Lemma BC_stamp_job st now d :
  job (BookingController.stamp st now d) = job d.
Proof. by destruct st. Qed.

Lemma applyStatus_Moved name st d0 d s :
  keyed s → docs s !! b_id (job d) = Some d0 →
  stage (status d0) < stage st → stage (status d0) < 7 →
  Moved s (BookingController.applyStatus name st d s).2.
Proof.
  intros Hk Hd Hlt Hlt7. unfold BookingController.applyStatus.
  destruct (updateStatus_job st noData (today s)
              (BookingController.stamp st (today s) d)) as (Hi & _ & _ & Hst).
  rewrite BC_stamp_job in Hi.
  set (d' := updateStatus st noData (today s) _) in *.
  destruct (decide (st = COMPLETED)) as [->|Hne].
  - simpl. destruct (b_mechanicId (job d')); simpl.
    all: eapply (Forward _ _ (b_id (job d)) d0
                   (with_paymentStatus d' PAYMENT_PENDING) []);
           simpl; eauto;
           rewrite ?Hi, ?insert_insert_eq, ?app_nil_r, ?Hst; try done.
    all: change (status (with_paymentStatus d' PAYMENT_PENDING))
           with (status d'); by rewrite Hst.
  - destruct (BookingController.notificationMessages st) as [[title body]|];
      simpl.
    all: eapply (Forward _ _ (b_id (job d)) d0 d' []);
           simpl; eauto;
           rewrite ?Hi, ?insert_insert_eq, ?app_nil_r, ?Hst; done.
Qed.

Lemma verifyOtp_job trim otp now d d' :
  BookingController.verifyOtp trim otp now d = inr d' → job d' = job d.
Proof.
  unfold BookingController.verifyOtp.
  destruct (BookingController.truthy _); [|done].
  destruct otp; [|done]. case_decide; [|done]. by intros [= <-].
Qed.

Lemma updateJobStatus_Moved trim m id name otp s :
  keyed s → Moved s (BookingController.updateJobStatus trim m id name otp s).2.
Proof.
  intros Hk. unfold BookingController.updateJobStatus.
  case_decide; [by apply Unmoved|].
  destruct (findForMechanic id m s) as [d|] eqn:Hf; [|by apply Unmoved].
  apply findForMechanic_Some in Hf as [Hd Hm].
  pose proof (Hk _ _ Hd) as Hid.
  destruct (BookingController.validTransitions (status d) ≫= _)
    as [st|] eqn:Hv; [|by apply Unmoved].
  assert (Hlt : stage (status d) < stage st ∧ stage (status d) < 7).
  { destruct (BookingController.validTransitions (status d)) as [allowed|] eqn:Ha;
      [|done]. simpl in Hv. apply named_Some in Hv as [Hin _].
    destruct (status d); simplify_eq/=; set_unfold in Hin;
      intuition subst; simpl; lia. }
  destruct Hlt as [Hlt Hlt7].
  case_decide as Hip.
  - destruct (BookingController.verifyOtp trim otp (today s) d) as [err|d1] eqn:Ho;
      [by apply Unmoved|].
    apply verifyOtp_job in Ho.
    apply (applyStatus_Moved _ _ d); [done| |done|done]. by rewrite Ho, Hid.
  - apply (applyStatus_Moved _ _ d); [done| |done|done]. by rewrite Hid.
Qed.

Lemma rejectJob_Moved m id s :
  keyed s → Moved s (BookingController.rejectJob m id s).2.
Proof.
  intros Hk. unfold BookingController.rejectJob.
  destruct (findForMechanic id m s) as [d|] eqn:Hf; [|by apply Unmoved].
  apply findForMechanic_Some in Hf as [Hd Hm].
  pose proof (Hk _ _ Hd) as Hid.
  case_decide as Hst; [|by apply Unmoved].
  eapply (Forward _ _ id d
            (with_searchStartedAt (with_status (without_mechanic d) SEARCHING)
               (Some (today s))) []); simpl; eauto.
  - unfold status in *. simpl. rewrite Hst. simpl. lia.
  - rewrite Hst. simpl. lia.
  - by rewrite Hid.
  - by rewrite app_nil_r.
Qed.

Lemma SS_stamp_job st now d : job (StatusSocket.stamp st now d) = job d.
Proof. by destruct st. Qed.

Lemma handleBookingStatusUpdate_Moved sender id received notes s :
  keyed s →
  Moved s (StatusSocket.handleBookingStatusUpdate sender id received notes s).
Proof.
  intros Hk. unfold StatusSocket.handleBookingStatusUpdate.
  destruct (docs s !! id) as [d|] eqn:Hd; [|by apply Unmoved].
  pose proof (Hk _ _ Hd) as Hid.
  destruct (StatusSocket.validTransitions (status d) ≫= _)
    as [st|] eqn:Hv; [|by apply Unmoved].
  assert (Hlt : stage (status d) < stage st ∧ stage (status d) < 7).
  { destruct (StatusSocket.validTransitions (status d)) as [allowed|] eqn:Ha;
      [|done]. destruct received as [name|]; [|done].
    simpl in Hv. apply named_Some in Hv as [Hin _].
    destruct (status d); simplify_eq/=; set_unfold in Hin;
      intuition subst; simpl; lia. }
  destruct Hlt as [Hlt Hlt7].
  set (d' := match notes with
             | Some n =>
                 with_mechanicNotes
                   (StatusSocket.stamp st (today s) (with_status d st)) (Some n)
             | None => StatusSocket.stamp st (today s) (with_status d st)
             end).
  assert (Hj : job d' = setStatus st (job d)).
  { unfold d'. destruct notes; simpl; by rewrite SS_stamp_job. }
  eapply (Forward _ _ id d d' []).
  - done.
  - rewrite Hj. simpl. done.
  - unfold status at 2. by rewrite Hj.
  - done.
  - simpl. fold d'. rewrite Hj. simpl. by rewrite Hid.
  - simpl. by rewrite app_nil_r.
  - by left.
Qed.

Lemma act_Moved trim a s : keyed s → Moved s (act trim a s).
Proof.
  intros Hk. destruct a; simpl.
  - by apply cancelBooking_Moved.
  - by apply updateJobStatus_Moved.
  - by apply rejectJob_Moved.
  - by apply handleBookingStatusUpdate_Moved.
  - by apply Unmoved.
Qed.

Lemma Moved_keyed s s' : keyed s → Moved s s' → keyed s'.
Proof.
  intros Hk [Hd _|k d d' rs Hd Hid _ _ Hds _ _] id x; rewrite ?Hd, ?Hds.
  - apply Hk.
  - rewrite lookup_insert. case_decide; [|apply Hk].
    intros [= <-]. congruence.
Qed.

Lemma acts_keyed trim l s : keyed s → keyed (acts trim l s).
Proof.
  revert s. induction l as [|a l IH]; intros s Hk; simpl; [done|].
  apply IH. eapply Moved_keyed; [done|]. by apply act_Moved.
Qed.

Lemma refundsOf_app s s' id rs :
  refunds s' = refunds s ++ rs →
  refundsOf s' id = refundsOf s id ++ filter (fun r => rf_bookingId r = id) rs.
Proof. unfold refundsOf. intros ->. by rewrite filter_app. Qed.

(** One step, seen from one booking: it is untouched, or it moves forward
    from a status before COMPLETED, with a refund only when it becomes
    CANCELLED. *)
Lemma Moved_at s s' id d :
  Moved s s' → docs s !! id = Some d →
  ∃ d' rs, docs s' !! id = Some d' ∧
    refundsOf s' id = refundsOf s id ++ rs ∧
    (status d' = status d ∧ rs = [] ∨
     stage (status d) < stage (status d') ∧ stage (status d) < 7 ∧
     (rs = [] ∨ status d' = CANCELLED ∧ length rs = 1)).
Proof.
  intros [Hd Hr|k dk dk' rs Hk Hid Hlt Hlt7 Hds Hrs Hcase] Hdoc.
  - exists d, []. rewrite Hd. split; [done|]. split; [|by left].
    unfold refundsOf. by rewrite Hr, app_nil_r.
  - destruct (decide (k = id)) as [->|Hne].
    + rewrite Hdoc in Hk. injection Hk as <-.
      exists dk', rs. rewrite Hds, lookup_insert_eq. split; [done|].
      split.
      * rewrite (refundsOf_app s s' id rs Hrs). f_equal.
        destruct Hcase as [->|(_ & u & a & desc & ->)]; [done|].
        rewrite filter_cons. simpl. by rewrite decide_True.
      * right. split; [done|]. split; [done|].
        destruct Hcase as [->|(Hc & u & a & desc & ->)]; [by left|by right].
    + exists d, []. rewrite Hds, lookup_insert_ne by done. split; [done|].
      split; [|by left].
      rewrite (refundsOf_app s s' id rs Hrs). f_equal.
      destruct Hcase as [->|(_ & u & a & desc & ->)]; [done|].
      rewrite filter_cons. simpl. by rewrite decide_False.
Qed.

Lemma Moved_absent s s' id :
  Moved s s' → docs s !! id = None →
  docs s' !! id = None ∧ refundsOf s' id = refundsOf s id.
Proof.
  intros [Hd Hr|k dk dk' rs Hk Hid Hlt Hlt7 Hds Hrs Hcase] Hdoc.
  - rewrite Hd. split; [done|]. unfold refundsOf. by rewrite Hr.
  - assert (k ≠ id) by congruence.
    rewrite Hds, lookup_insert_ne by done. split; [done|].
    rewrite (refundsOf_app s s' id rs Hrs).
    destruct Hcase as [->|(_ & u & a & desc & ->)]; [by rewrite app_nil_r|].
    rewrite filter_cons. simpl. by rewrite decide_False, app_nil_r.
Qed.

Lemma stage_le_8 st : stage st ≤ 8.
Proof. destruct st; simpl; lia. Qed.

(** A whole run, seen from one booking. *)
Lemma acts_trace trim l : ∀ s id d,
  keyed s → docs s !! id = Some d →
  ∃ d' rs, docs (acts trim l s) !! id = Some d' ∧
    refundsOf (acts trim l s) id = refundsOf s id ++ rs ∧
    (status d' = status d ∧ rs = [] ∧ changes trim id l s = 0 ∨
     stage (status d) < stage (status d') ∧ stage (status d) < 7 ∧
     changes trim id l s + stage (status d) ≤ stage (status d') ∧
     (rs = [] ∨ status d' = CANCELLED ∧ length rs = 1)).
Proof.
  induction l as [|a l IH]; intros s id d Hk Hd.
  - exists d, []. simpl. rewrite app_nil_r. split; [done|]. split; [done|].
    by left.
  - pose proof (act_Moved trim a s Hk) as Hm.
    pose proof (Moved_keyed _ _ Hk Hm) as Hk1.
    destruct (Moved_at _ _ id d Hm Hd) as (d1 & rs1 & Hd1 & Hr1 & Hc1).
    destruct (IH _ id d1 Hk1 Hd1) as (d' & rs & Hd' & Hr & Hc).
    exists d', (rs1 ++ rs). simpl. split; [done|]. split.
    { by rewrite Hr, Hr1, app_assoc. }
    assert (Hs0 : statusOf s id = Some (status d))
      by (unfold statusOf; by rewrite Hd).
    assert (Hs1' : statusOf (act trim a s) id = Some (status d1))
      by (unfold statusOf; by rewrite Hd1).
    rewrite Hs1', Hs0.
    destruct Hc1 as [(Hs1 & ->)|(Hlt1 & Hlt7 & Hrs1)].
    + rewrite decide_True by congruence. simpl. rewrite <- Hs1. done.
    + right.
      assert (Hne : Some (status d1) ≠ Some (status d)).
      { intros [= He]. rewrite He in Hlt1. lia. }
      rewrite decide_False by done.
      destruct Hc as [(Hs & -> & ->)|(Hlt & Hlt7' & Hch & Hrs)].
      * rewrite Hs, app_nil_r. repeat split; [done|done|simpl; lia|done].
      * split; [lia|]. split; [done|]. split; [simpl; lia|].
        destruct Hrs1 as [->|[Hcan _]]; [done|].
        rewrite Hcan in Hlt7'. simpl in Hlt7'. lia.
Qed.

Lemma acts_absent trim l : ∀ s id,
  keyed s → docs s !! id = None →
  docs (acts trim l s) !! id = None ∧
  refundsOf (acts trim l s) id = refundsOf s id.
Proof.
  induction l as [|a l IH]; intros s id Hk Hd; [done|].
  pose proof (act_Moved trim a s Hk) as Hm.
  destruct (Moved_absent _ _ id Hm Hd) as [Hd1 Hr1].
  destruct (IH _ id (Moved_keyed _ _ Hk Hm) Hd1) as [Hd' Hr'].
  simpl. by rewrite Hr', Hr1.
Qed.

(** X9. Over any sequence of calls of [cancelBooking], [updateJobStatus],
    [rejectJob] and of the socket handler [handleBookingStatusUpdate], with
    any arguments and by anybody, a booking is never removed and its status
    only moves forward in the order PENDING, ASSIGNED, SEARCHING, ACCEPTED,
    EN_ROUTE, ARRIVED, IN_PROGRESS, COMPLETED, CANCELLED: at the end it has
    the status it had or a later one.  The number of calls that change the
    status is at most the distance covered, hence at most 8.  A booking that
    is COMPLETED, CANCELLED, EXPIRED or NO_MECHANIC_AVAILABLE keeps its
    status whatever is called. *)
Theorem booking_only_moves_forward trim l s id d :
  keyed s → docs s !! id = Some d →
  ∃ d', docs (acts trim l s) !! id = Some d' ∧
    b_id (job d') = id ∧
    (status d' = status d ∨ stage (status d) < stage (status d')) ∧
    changes trim id l s ≤ stage (status d') - stage (status d) ∧
    changes trim id l s ≤ 8 ∧
    (status d ∈ [COMPLETED; CANCELLED; EXPIRED; NO_MECHANIC_AVAILABLE] →
     status d' = status d ∧ changes trim id l s = 0).
Proof.
  intros Hk Hd.
  destruct (acts_trace trim l s id d Hk Hd) as (d' & rs & Hd' & _ & Hc).
  exists d'. split; [done|].
  split; [by apply (acts_keyed trim l s Hk)|].
  pose proof (stage_le_8 (status d')).
  destruct Hc as [(Hs & _ & ->)|(Hlt & Hlt7 & Hch & _)].
  - split; [by left|]. repeat split; try lia. done.
  - split; [by right|]. repeat split; try lia.
    all: set_unfold in H0; destruct H0 as [H0|[H0|[H0|[H0|[]]]]];
      rewrite H0 in Hlt7; simpl in Hlt7; lia.
Qed.

Lemma booking_only_moves_forward_witness :
  keyed site1 ∧
  ∃ d', docs (acts (fun x => x)
                [UpdateJob "A" "bk1" "IN_PROGRESS" (Some "4821");
                 SocketStatus "Z" "bk1" (Some "COMPLETED") None;
                 Cancel "u1" "bk1" None] site1) !! "bk1" = Some d' ∧
        b_id (job d') = "bk1".
Proof.
  assert (Hk : keyed site1).
  { intros b d. simpl. intros [<- <-]%lookup_singleton_Some. reflexivity. }
  assert (Hd : docs site1 !! "bk1" = Some doc1) by (vm_compute; reflexivity).
  split; [exact Hk|].
  destruct (booking_only_moves_forward (fun x => x)
              [UpdateJob "A" "bk1" "IN_PROGRESS" (Some "4821");
               SocketStatus "Z" "bk1" (Some "COMPLETED") None;
               Cancel "u1" "bk1" None] site1 "bk1" doc1 Hk Hd)
    as (d' & Hd' & Hid & _).
  exists d'. split; [exact Hd' | exact Hid].
Defined.

(** X10. Over any sequence of calls of these handlers, at most one wallet
    refund is asked for a booking; when one is asked the booking ends
    CANCELLED, and it existed and was not yet COMPLETED or beyond at the
    start.  No refund is asked for a booking that does not exist. *)
Theorem at_most_one_refund_per_booking trim l s id :
  keyed s →
  ∃ rs, refundsOf (acts trim l s) id = refundsOf s id ++ rs ∧
    length rs ≤ 1 ∧
    (rs ≠ [] →
     statusOf (acts trim l s) id = Some CANCELLED ∧
     ∃ st, statusOf s id = Some st ∧ stage st < 7).
Proof.
  intros Hk. destruct (docs s !! id) as [d|] eqn:Hd.
  - destruct (acts_trace trim l s id d Hk Hd) as (d' & rs & Hd' & Hr & Hc).
    exists rs. split; [done|].
    destruct Hc as [(_ & -> & _)|(Hlt & Hlt7 & _ & [->|[Hcan Hlen]])];
      try (split; [simpl; lia|done]).
    split; [lia|]. intros _. unfold statusOf. rewrite Hd', Hd. simpl.
    split; [by rewrite Hcan|]. by exists (status d).
  - destruct (acts_absent trim l s id Hk Hd) as [_ Hr].
    exists []. rewrite app_nil_r. split; [done|]. split; [simpl; lia|done].
Qed.

Lemma at_most_one_refund_per_booking_witness :
  keyed site1 ∧
  ∃ rs, refundsOf (acts (fun x => x)
                     [Cancel "u1" "bk1" None; Cancel "u1" "bk1" None] site1)
          "bk1" = refundsOf site1 "bk1" ++ rs ∧
        length rs ≤ 1.
Proof.
  assert (Hk : keyed site1).
  { intros b d. simpl. intros [<- <-]%lookup_singleton_Some. reflexivity. }
  split; [exact Hk|].
  destruct (at_most_one_refund_per_booking (fun x => x)
              [Cancel "u1" "bk1" None; Cancel "u1" "bk1" None] site1 "bk1" Hk)
    as (rs & Hr & Hlen & _).
  exists rs. split; [exact Hr | exact Hlen].
Defined.

Lemma findForMechanic_at id m s d :
  docs s !! id = Some d →
  findForMechanic id m s =
    if decide (b_mechanicId (job d) = Some m) then Some d else None.
Proof. unfold findForMechanic. by intros ->. Qed.

Lemma applyStatus_docs name st d s :
  docs (BookingController.applyStatus name st d s).2 =
    <[b_id (job d) := applied st (today s) d]> (docs s) ∧
  refunds (BookingController.applyStatus name st d s).2 = refunds s ∧
  (BookingController.applyStatus name st d s).1 =
    success ("Status updated to " +:+ name).
Proof.
  unfold BookingController.applyStatus, applied.
  destruct (updateStatus_job st noData (today s)
              (BookingController.stamp st (today s) d)) as (Hi & _ & _ & _).
  rewrite BC_stamp_job in Hi.
  set (d' := updateStatus st noData (today s) _) in *.
  destruct (decide (st = COMPLETED)) as [->|Hne].
  - simpl. destruct (b_mechanicId (job d')); simpl;
      by rewrite Hi, insert_insert_eq.
  - destruct (BookingController.notificationMessages st) as [[t b]|]; simpl;
      by rewrite Hi.
Qed.

Lemma applied_status st now d : status (applied st now d) = st.
Proof.
  unfold applied.
  destruct (updateStatus_job st noData now (BookingController.stamp st now d))
    as (_ & _ & _ & Hst).
  by case_decide.
Qed.

(** X11. [updateJobStatus] and the OTP.  A call that is not answered with
    200 writes nothing.  A booking that was not IN_PROGRESS is IN_PROGRESS
    after the call exactly when the caller is the mechanic of the booking,
    the status asked is IN_PROGRESS, the booking was ACCEPTED, EN_ROUTE or
    ARRIVED, the booking has a non-empty verification OTP, and the OTP sent
    equals it once both are trimmed.  The booking then carries the time of
    the call as [otpVerifiedAt] and [startedAt], and its OTP is kept. *)
Theorem work_starts_only_with_the_otp trim m id name otp s d :
  docs s !! id = Some d → b_id (job d) = id → status d ≠ IN_PROGRESS →
  let r := BookingController.updateJobStatus trim m id name otp s in
  (code r.1 ≠ 200 → r.2 = s) ∧
  (statusOf r.2 id = Some IN_PROGRESS ↔
     b_mechanicId (job d) = Some m ∧ name = "IN_PROGRESS" ∧
     status d ∈ [ACCEPTED; EN_ROUTE; ARRIVED] ∧
     ∃ stored provided,
       verificationOtp d = Some stored ∧ stored ≠ "" ∧
       otp = Some provided ∧ trim provided = trim stored) ∧
  (statusOf r.2 id = Some IN_PROGRESS →
     ∃ d', docs r.2 = <[id := d']> (docs s) ∧
       otpVerifiedAt d' = Some (today s) ∧ startedAt d' = Some (today s) ∧
       verificationOtp d' = verificationOtp d).
Proof.
  intros Hd Hid Hnot r.
  assert (Hsame : statusOf s id ≠ Some IN_PROGRESS).
  { unfold statusOf. rewrite Hd. simpl. congruence. }
  unfold r, BookingController.updateJobStatus.
  case_decide as Hname.
  { simpl. split; [done|]. split; [|done]. split; [done|].
    intros (_ & -> & _). done. }
  rewrite (findForMechanic_at id m s d Hd).
  case_decide as Hm; simpl.
  2:{ split; [done|]. split; [|done]. split; [done|]. by intros (? & _). }
  destruct (BookingController.validTransitions (status d) ≫= _)
    as [st|] eqn:Hv; simpl.
  2:{ split; [done|]. split; [|done]. split; [done|].
      intros (_ & -> & Hin & _). exfalso.
      set_unfold in Hin.
      destruct Hin as [H|[H|[H|[]]]]; rewrite H in Hv; simpl in Hv;
        discriminate. }
  assert (Hst : st ∈ default [] (BookingController.validTransitions (status d))
                ∧ statusName st = name).
  { destruct (BookingController.validTransitions (status d)); [|done].
    simpl in Hv. by apply named_Some in Hv. }
  destruct Hst as [Hin Hn].
  assert (Hname' : name = "IN_PROGRESS" ↔ st = IN_PROGRESS).
  { rewrite <- Hn. split; [apply (statusName_inj st IN_PROGRESS)|by intros ->]. }
  case_decide as Hip.
  - subst st.
    assert (Hfrom : status d ∈ [ACCEPTED; EN_ROUTE; ARRIVED]).
    { destruct (status d); simpl in Hin; set_unfold in Hin; set_unfold;
        intuition congruence. }
    unfold BookingController.verifyOtp.
    destruct (verificationOtp d) as [stored|] eqn:Hstored.
    2:{ simpl. split; [done|]. split; [|done]. split; [done|].
        intros (_ & _ & _ & ? & ? & ? & _). done. }
    destruct (decide (stored = "")) as [->|Hne].
    { simpl. split; [done|]. split; [|done]. split; [done|].
      intros (_ & _ & _ & ? & ? & [= <-] & Hne & _). done. }
    replace (BookingController.truthy (Some stored)) with (Some stored)
      by (by destruct stored).
    destruct otp as [provided|].
    2:{ simpl. split; [done|]. split; [|done]. split; [done|].
        intros (_ & _ & _ & ? & ? & _ & _ & ? & _). done. }
    case_decide as Heq.
    2:{ simpl. split; [done|]. split; [|done]. split; [done|].
        intros (_ & _ & _ & ? & ? & [= <-] & _ & [= <-] & ?). done. }
    set (d1 := with_startedAt (with_otpVerifiedAt d (Some (today s)))
                 (Some (today s))).
    destruct (applyStatus_docs name IN_PROGRESS d1 s) as (Hdocs & _ & Hrep).
    change (b_id (job d1)) with (b_id (job d)) in Hdocs. rewrite Hid in Hdocs.
    assert (Hnow : statusOf (BookingController.applyStatus name IN_PROGRESS d1 s).2
                     id = Some IN_PROGRESS).
    { unfold statusOf. rewrite Hdocs, lookup_insert_eq. simpl.
      by rewrite applied_status. }
    split; [by rewrite Hrep|]. split.
    + split; [|done]. intros _. split; [done|]. split; [by apply Hname'|].
      split; [done|]. by exists stored, provided.
    + intros _. eexists. split; [exact Hdocs|]. done.
  - destruct (applyStatus_docs name st d s) as (Hdocs & _ & Hrep).
    rewrite Hid in Hdocs.
    assert (Hnow : statusOf (BookingController.applyStatus name st d s).2 id
                   = Some st).
    { unfold statusOf. rewrite Hdocs, lookup_insert_eq. simpl.
      by rewrite applied_status. }
    rewrite Hnow. split; [by rewrite Hrep|]. split.
    + split; [by intros [= ->]|]. intros (_ & Hn' & _). by apply Hname' in Hn'.
    + by intros [= ->].
Qed.

Lemma work_starts_only_with_the_otp_witness :
  docs site1 !! "bk1" = Some doc1 ∧
  (code (BookingController.updateJobStatus (fun x => x) "A" "bk1" "IN_PROGRESS"
           (Some "0000") site1).1 ≠ 200 →
   (BookingController.updateJobStatus (fun x => x) "A" "bk1" "IN_PROGRESS"
      (Some "0000") site1).2 = site1).
Proof.
  assert (Hd : docs site1 !! "bk1" = Some doc1) by (vm_compute; reflexivity).
  assert (Hs : status doc1 ≠ IN_PROGRESS) by discriminate.
  split; [exact Hd|].
  exact (proj1 (work_starts_only_with_the_otp (fun x => x) "A" "bk1"
                  "IN_PROGRESS" (Some "0000") site1 doc1 Hd eq_refl Hs)).
Defined.

Lemma socket_table from name st :
  StatusSocket.validTransitions from ≫= (fun allowed => named allowed name)
    = Some st ↔
  statusName st = name ∧ (from, st) ∈ socketMoves.
Proof.
  unfold socketMoves. split.
  - destruct from; try done; unfold mbind, option_bind;
      cbn [StatusSocket.validTransitions];
      intros [Hin Hn]%named_Some; (split; [done|]); set_unfold; naive_solver.
  - intros [<- Hin]. set_unfold in Hin.
    destruct Hin as [H|[H|[H|[H|[H|[H|[H|[H|[]]]]]]]]];
      injection H as -> ->; reflexivity.
Qed.

(** X12. The socket handler [handleBookingStatusUpdate] checks its table
    of transitions and nothing else.  If the status received is a name and
    the pair (current status, status asked) is in the table, the status is
    written, whoever the sender is and without any OTP: [otpVerifiedAt],
    [cancelledAt], [cancelledBy], [actualDuration] and [paymentStatus] stay
    as they were and the mechanic stays on the booking; the notes, if any,
    replace the mechanic's notes; the requester gets [booking:status] and
    the sender the acknowledgement, in this order; no notification is
    created and no refund asked.  Otherwise the booking is not written and
    the sender is told "Cannot transition from .. to .." with the value
    received, which reads "undefined" for a packet without a status.  What
    is written does not depend on the sender. *)
Theorem socket_status_update_checks_only_the_table sender id received notes
    s d :
  docs s !! id = Some d → b_id (job d) = id →
  let s' := StatusSocket.handleBookingStatusUpdate sender id received notes s in
  (∀ st, received = Some (statusName st) → (status d, st) ∈ socketMoves →
     ∃ d', docs s' = <[id := d']> (docs s) ∧ status d' = st ∧
       b_mechanicId (job d') = b_mechanicId (job d) ∧
       otpVerifiedAt d' = otpVerifiedAt d ∧
       cancelledAt d' = cancelledAt d ∧ cancelledBy d' = cancelledBy d ∧
       actualDuration d' = actualDuration d ∧
       paymentStatus d' = paymentStatus d ∧
       mechanicNotes d' = from_option Some (mechanicNotes d) notes ∧
       pushed s' = pushed s ++
         [(UserRoom (b_userId (job d)),
           StatusPush id (statusName st)
             (StatusSocket.getStatusMessage (statusName st)) None);
          (SocketOf sender, StatusAck (inl (statusName st)))] ∧
       notices s' = notices s ∧ refunds s' = refunds s) ∧
  ((∀ st, received = Some (statusName st) → (status d, st) ∉ socketMoves) →
     docs s' = docs s ∧
     pushed s' = pushed s ++
       [(SocketOf sender,
         StatusAck (inr ("Cannot transition from " +:+ statusName (status d)
                         +:+ " to " +:+
                         StatusSocket.interpolated received)))]) ∧
  (received = None →
     docs s' = docs s ∧
     pushed s' = pushed s ++
       [(SocketOf sender,
         StatusAck (inr ("Cannot transition from " +:+ statusName (status d)
                         +:+ " to undefined")))]) ∧
  (∀ other,
     docs (StatusSocket.handleBookingStatusUpdate other id received notes s)
     = docs s').
Proof.
  intros Hd Hid s'. unfold s', StatusSocket.handleBookingStatusUpdate.
  rewrite Hd.
  destruct received as [name|].
  2: { assert (Hnone : StatusSocket.validTransitions (status d) ≫=
                       (fun allowed => None ≫= named allowed) = None)
         by (by destruct (StatusSocket.validTransitions (status d))).
       rewrite Hnone. repeat split; done. }
  replace (StatusSocket.validTransitions (status d) ≫=
           (fun allowed => Some name ≫= named allowed))
    with (StatusSocket.validTransitions (status d) ≫=
          (fun allowed => named allowed name)) by done.
  destruct (StatusSocket.validTransitions (status d) ≫= _) as [st|] eqn:Hv.
  - apply socket_table in Hv as [Hn Hin].
    split; [|split; [|split; [done|done]]].
    + intros st' [= Hn'] _. rewrite <- Hn in Hn'. apply statusName_inj in Hn'.
      subst st'.
      destruct notes as [n|]; eexists;
        (split;
         [simpl; rewrite SS_stamp_job; simpl; rewrite Hid; reflexivity|]);
        simpl; rewrite ?SS_stamp_job; simpl; rewrite ?Hid, <- ?Hn;
        unfold status; simpl; rewrite ?SS_stamp_job; simpl;
        rewrite <- ?app_assoc; simpl; by destruct st.
    + intros Hno. by destruct (Hno st (f_equal Some (eq_sym Hn))).
  - split; [|split; [|split; [done|done]]].
    + intros st [= Hn] Hin. exfalso.
      assert (H : StatusSocket.validTransitions (status d) ≫=
                  (fun allowed => named allowed name) = Some st)
        by (apply socket_table; by split).
      congruence.
    + done.
Qed.

Lemma socket_status_update_checks_only_the_table_witness :
  docs site1 !! "bk1" = Some doc1 ∧
  (docs (StatusSocket.handleBookingStatusUpdate "Z" "bk1" None None site1)
   = docs site1 ∧
   pushed (StatusSocket.handleBookingStatusUpdate "Z" "bk1" None None site1)
   = pushed site1 ++
       [(SocketOf "Z",
         StatusAck (inr ("Cannot transition from " +:+
                         statusName (status doc1) +:+ " to undefined")))]) ∧
  ∀ other,
    docs (StatusSocket.handleBookingStatusUpdate other "bk1"
            (Some "EN_ROUTE") None site1)
    = docs (StatusSocket.handleBookingStatusUpdate "Z" "bk1"
              (Some "EN_ROUTE") None site1).
Proof.
  assert (Hd : docs site1 !! "bk1" = Some doc1) by (vm_compute; reflexivity).
  split; [exact Hd|]. split.
  - exact (proj1 (proj2 (proj2
             (socket_status_update_checks_only_the_table "Z" "bk1" None None
                site1 doc1 Hd eq_refl))) eq_refl).
  - exact (proj2 (proj2 (proj2
             (socket_status_update_checks_only_the_table "Z" "bk1"
                (Some "EN_ROUTE") None site1 doc1 Hd eq_refl)))).
Defined.

(** X13. [cancelBooking].  For somebody else's booking the answer is 404
    "Booking not found", and for a booking that is not PENDING, SEARCHING,
    ASSIGNED or ACCEPTED it is 400; in both cases nothing is written.
    Otherwise the booking becomes CANCELLED by USER at the time of the call
    with the reason given; its mechanic stays on it and is sent a "Booking
    Cancelled" job notification; the wallet amount is refunded to the caller
    exactly when the booking is PAID and that amount is positive; nothing is
    emitted on the sockets.  Any further call of [cancelBooking] for this
    booking is refused and changes nothing. *)
Theorem cancel_is_for_the_owner_before_work_starts u id reason s d :
  docs s !! id = Some d → b_id (job d) = id →
  let r := BookingController.cancelBooking u id reason s in
  (b_userId (job d) ≠ u → r = (notFound "Booking not found", s)) ∧
  (b_userId (job d) = u →
   status d ∉ [PENDING; SEARCHING; ASSIGNED; ACCEPTED] →
   r = (badRequest "Booking cannot be cancelled at this stage", s)) ∧
  (b_userId (job d) = u →
   status d ∈ [PENDING; SEARCHING; ASSIGNED; ACCEPTED] →
   r.1 = success "Booking cancelled successfully" ∧
   ∃ d', docs r.2 = <[id := d']> (docs s) ∧
     status d' = CANCELLED ∧ cancelledAt d' = Some (today s) ∧
     cancelledBy d' = Some BY_USER ∧ cancellationReason d' = reason ∧
     b_mechanicId (job d') = b_mechanicId (job d) ∧
     paymentStatus d' = paymentStatus d ∧
     refunds r.2 = refunds s ++
       match BookingController.refundDue d with
       | Some a => [mkRefund u a id "Booking cancellation refund"]
       | None => []
       end ∧
     (∀ a, BookingController.refundDue d = Some a ↔
           walletAmount d = Some a ∧ paymentStatus d = PAID ∧ (0 < a)%Q) ∧
     notices r.2 = notices s ++
       match b_mechanicId (job d) with
       | Some m =>
           [JobNotice m "Booking Cancelled"
              "Customer has cancelled the booking" id "NORMAL"]
       | None => []
       end ∧
     pushed r.2 = pushed s ∧
     ∀ u' reason',
       (BookingController.cancelBooking u' id reason' r.2).2 = r.2 ∧
       code (BookingController.cancelBooking u' id reason' r.2).1 ≠ 200).
Proof.
  intros Hd Hid r. unfold r, BookingController.cancelBooking, findForUser.
  rewrite Hd. split; [|split].
  - intros Hu. by rewrite decide_False.
  - intros Hu Hst. rewrite decide_True by done.
    by rewrite bool_decide_eq_false_2.
  - intros Hu Hst. rewrite decide_True by done.
    rewrite bool_decide_eq_true_2 by done.
    destruct (updateStatus_job CANCELLED (mkCancellation reason (Some BY_USER))
                (today s) d) as (Hi & Hus & Hm & Hs).
    set (d' := updateStatus CANCELLED _ (today s) d) in *.
    assert (Hr : BookingController.refundDue d' = BookingController.refundDue d)
      by done.
    assert (Hdue : ∀ a, BookingController.refundDue d = Some a ↔
              walletAmount d = Some a ∧ paymentStatus d = PAID ∧ (0 < a)%Q).
    { intros a. unfold BookingController.refundDue.
      destruct (walletAmount d) as [a0|]; [|naive_solver].
      destruct (decide (paymentStatus d = PAID)) as [Hp|Hp]; [|naive_solver].
      destruct (Qlt_le_dec 0 a0) as [Hlt|Hle]; [naive_solver|].
      split; [done|]. intros ([= ->] & _ & Hlt).
      by apply Qlt_not_le in Hlt. }
    split.
    { by destruct (BookingController.refundDue d'), (b_mechanicId (job d')). }
    exists d'. rewrite Hr, Hm, Hi, Hid.
    assert (Hafter : ∀ s1, docs s1 = <[id := d']> (docs s) →
              ∀ u' reason',
                (BookingController.cancelBooking u' id reason' s1).2 = s1 ∧
                code (BookingController.cancelBooking u' id reason' s1).1 ≠ 200).
    { intros s1 Hs1 u' reason'. unfold BookingController.cancelBooking, findForUser.
      rewrite Hs1, lookup_insert_eq. case_decide; [|done].
      rewrite bool_decide_eq_false_2; [done|]. rewrite Hs.
      unfold BookingController.cancellableStatuses. set_solver. }
    destruct (BookingController.refundDue d) as [a|];
      destruct (b_mechanicId (job d)) as [m|];
      repeat (split; [by simpl; rewrite ?app_nil_r, ?Hid|]);
      apply Hafter; simpl; by rewrite ?Hid.
Qed.

Lemma cancel_is_for_the_owner_before_work_starts_witness :
  docs site1 !! "bk1" = Some doc1 ∧
  BookingController.cancelBooking "u9" "bk1" None site1
    = (notFound "Booking not found", site1).
Proof.
  assert (Hd : docs site1 !! "bk1" = Some doc1) by (vm_compute; reflexivity).
  assert (Hu : b_userId (job doc1) ≠ "u9") by discriminate.
  split; [exact Hd|].
  exact (proj1 (cancel_is_for_the_owner_before_work_starts "u9" "bk1" None
                  site1 doc1 Hd eq_refl) Hu).
Defined.

(** X14. The mechanic of a booking that is IN_PROGRESS and has a start
    time completes it through [updateJobStatus]: the answer is 200, the
    booking is COMPLETED at the time of the call with payment status
    PENDING, the start time is kept, [actualDuration] is set and equals the
    [duration] virtual, namely the number of minutes nearest to the time
    between start and completion (at most half a minute away, a half going
    up), and the last emission asks the mechanic to collect the payment.
    No OTP is looked at. *)
Theorem completion_records_the_duration trim m id otp s d t0 :
  docs s !! id = Some d → b_id (job d) = id →
  b_mechanicId (job d) = Some m → status d = IN_PROGRESS →
  startedAt d = Some t0 →
  let r := BookingController.updateJobStatus trim m id "COMPLETED" otp s in
  r.1 = success "Status updated to COMPLETED" ∧
  ∃ d' mins, docs r.2 = <[id := d']> (docs s) ∧
    status d' = COMPLETED ∧ completedAt d' = Some (today s) ∧
    startedAt d' = Some t0 ∧ paymentStatus d' = PAYMENT_PENDING ∧
    actualDuration d' = Some mins ∧ duration d' = Some mins ∧
    (60000 * mins - 30000 ≤ Z.of_nat (today s) - Z.of_nat t0
       < 60000 * mins + 30000)%Z ∧
    last (pushed r.2) = Some (MechanicRoom m, CollectPayment id).
Proof.
  intros Hd Hid Hm Hst Ht0 r. unfold r, BookingController.updateJobStatus.
  rewrite decide_False by done.
  rewrite (findForMechanic_at id m s d Hd), decide_True by done.
  rewrite Hst.
  assert (Hv : BookingController.validTransitions IN_PROGRESS ≫=
               (fun allowed => named allowed "COMPLETED") = Some COMPLETED)
    by reflexivity.
  rewrite Hv, decide_False by done.
  destruct (applyStatus_docs "COMPLETED" COMPLETED d s) as (Hdocs & _ & Hrep).
  split; [exact Hrep|].
  exists (applied COMPLETED (today s) d),
         (roundMinutes (Z.of_nat (today s) - Z.of_nat t0)).
  rewrite Hid in Hdocs. split; [exact Hdocs|].
  unfold applied, status, duration. do 3 (simpl; rewrite ?Ht0).
  repeat (split; [done|]). split.
  - unfold roundMinutes.
    pose proof (Z.div_mod (Z.of_nat (today s) - Z.of_nat t0 + 30000) 60000).
    pose proof (Z.mod_pos_bound
                  (Z.of_nat (today s) - Z.of_nat t0 + 30000) 60000).
    lia.
  - unfold BookingController.applyStatus. do 3 (simpl; rewrite ?Ht0).
    rewrite ?Hm, ?Hid. simpl. by rewrite ?Hm, ?Hid, last_snoc.
Qed.

Lemma completion_records_the_duration_witness :
  docs site2 !! "bk2" = Some doc2 ∧
  (BookingController.updateJobStatus (fun x => x) "B" "bk2" "COMPLETED" None
     site2).1 = success "Status updated to COMPLETED".
Proof.
  assert (Hd : docs site2 !! "bk2" = Some doc2) by (vm_compute; reflexivity).
  split; [exact Hd|].
  exact (proj1 (completion_records_the_duration (fun x => x) "B" "bk2" None
                  site2 doc2 400 Hd eq_refl eq_refl eq_refl eq_refl)).
Defined.

End LifecycleProofs.

(** ** The socket hub *)

Module HubProofs.
Import Hub HubFacts.

Lemma steady_refl k : steady k k.
Proof. repeat split; try done. exists []. by rewrite app_nil_r. Qed.

Lemma homeRoom_steady k k' :
  userId k' = userId k → userType k' = userType k → homeRoom k' = homeRoom k.
Proof. unfold homeRoom. by intros -> ->. Qed.

Lemma steady_trans k1 k2 k3 : steady k1 k2 → steady k2 k3 → steady k1 k3.
Proof.
  intros (Hu & Ht & [l Hl] & Hr) (Hu' & Ht' & [l' Hl'] & Hr').
  pose proof (homeRoom_steady _ _ Hu Ht) as Hh.
  repeat split; try congruence.
  - exists (l ++ l'). by rewrite Hl', Hl, app_assoc.
  - intros H. rewrite <- Hh. apply Hr'. rewrite Hh. by apply Hr.
Qed.

Lemma Steady_refl h : Steady h h.
Proof.
  repeat split. intros id. destruct (sockets h !! id); [apply steady_refl|done].
Qed.

Lemma Steady_trans h1 h2 h3 : Steady h1 h2 → Steady h2 h3 → Steady h1 h3.
Proof.
  intros (Hu & Hm & Hs) (Hu' & Hm' & Hs').
  repeat split; try congruence. intros id.
  specialize (Hs id). specialize (Hs' id).
  destruct (sockets h1 !! id), (sockets h2 !! id), (sockets h3 !! id);
    try done. by eapply steady_trans.
Qed.

Lemma Steady_Sound h h' : Steady h h' → Sound h → Sound h'.
Proof.
  intros (Hu & Hm & Hs) [Sm Su Sh]. split.
  - intros m id. rewrite Hm. intros H.
    destruct (Sm m id H) as (Hne & k & Hk & Hid & Ht). split; [done|].
    specialize (Hs id). rewrite Hk in Hs.
    destruct (sockets h' !! id) as [k'|]; [|done].
    destruct Hs as (Hu' & Ht' & _). exists k'. repeat split; congruence.
  - intros u id. rewrite Hu. intros H.
    destruct (Su u id H) as (Hne & k & Hk & Hid & Ht). split; [done|].
    specialize (Hs id). rewrite Hk in Hs.
    destruct (sockets h' !! id) as [k'|]; [|done].
    destruct Hs as (Hu' & Ht' & _). exists k'. repeat split; congruence.
  - intros id k' Hk'. specialize (Hs id). rewrite Hk' in Hs.
    destruct (sockets h !! id) as [k|] eqn:Hk; [|done].
    destruct Hs as (Hu' & Ht' & _ & Hr).
    rewrite (homeRoom_steady _ _ Hu' Ht'). apply Hr. by eapply Sh.
Qed.

(** [socket.emit], [join] and a [leave] of another room than the home room
    keep a socket steady. *)
Lemma onSocket_Steady id f h :
  (∀ k, steady k (f k)) → Steady h (onSocket id f h).
Proof.
  intros Hf. repeat split. intros x. simpl.
  destruct (decide (id = x)) as [->|Hne].
  - rewrite lookup_alter_eq. destruct (sockets h !! x); simpl; [apply Hf|done].
  - rewrite lookup_alter_ne by done.
    destruct (sockets h !! x); [apply steady_refl|done].
Qed.

Lemma deliver_steady e k : steady k (deliver e k).
Proof. repeat split; try done. by exists [e]. Qed.

Lemma joined_steady r k : steady k (joined r k).
Proof.
  repeat split; try done.
  - exists []. simpl. by rewrite app_nil_r.
  - simpl. set_solver.
Qed.

Lemma tracking_not_home m k : "tracking:" +:+ m ≠ homeRoom k.
Proof. unfold homeRoom. case_decide; simpl; discriminate. Qed.

Lemma left_steady m k : steady k (left ("tracking:" +:+ m) k).
Proof.
  repeat split; try done.
  - exists []. simpl. by rewrite app_nil_r.
  - simpl. pose proof (tracking_not_home m k). set_solver.
Qed.

Lemma emitTo_Steady r e h : Steady h (emitTo r e h).
Proof.
  repeat split. intros x. simpl. rewrite lookup_fmap.
  destruct (sockets h !! x) as [k|]; simpl; [|done].
  case_decide; [apply deliver_steady|apply steady_refl].
Qed.

Lemma set_lastLocation_Steady h x : Steady h (set_lastLocation h x).
Proof. exact (Steady_refl h). Qed.

Lemma sendNew_Steady b h m : Steady h (sendNew b h m).
Proof.
  unfold sendNew. destruct (cached _ _) as [id|].
  - destruct (sockets h !! id); [|apply Steady_refl].
    eapply Steady_trans; apply onSocket_Steady;
      [apply joined_steady|apply deliver_steady].
  - apply emitTo_Steady.
Qed.

Lemma broadcastNewBooking_Steady b l : ∀ h, Steady h (broadcastNewBooking b l h).
Proof.
  unfold broadcastNewBooking.
  induction l as [|m l IH]; intros h; simpl; [apply Steady_refl|].
  eapply Steady_trans; [apply sendNew_Steady|apply IH].
Qed.

Lemma notifyPaymentReceived_Steady m b a h :
  Steady h (notifyPaymentReceived m b a h).
Proof.
  unfold notifyPaymentReceived. destruct m as [m|]; [|apply Steady_refl].
  case_decide; [apply Steady_refl|].
  eapply Steady_trans; [|apply emitTo_Steady].
  destruct (cached _ _) as [id|]; [|apply Steady_refl].
  destruct (sockets h !! id); [|apply Steady_refl].
  apply onSocket_Steady, deliver_steady.
Qed.

Lemma handleUserTracking_Steady id m action h :
  Steady h (handleUserTracking id m action h).
Proof.
  unfold handleUserTracking. case_decide.
  - eapply Steady_trans; apply onSocket_Steady;
      [apply joined_steady|apply deliver_steady].
  - eapply Steady_trans; apply onSocket_Steady;
      [apply left_steady|apply deliver_steady].
Qed.

Lemma handleMechanicLocation_Steady k p h :
  Steady h (handleMechanicLocation k p h).
Proof.
  unfold handleMechanicLocation. destruct (isConnected h); [apply Steady_refl|].
  eapply Steady_trans; [apply set_lastLocation_Steady|apply emitTo_Steady].
Qed.

Lemma onConnection_sockets id uid utype h x :
  sockets (onConnection id uid utype h) !! x =
    if decide (x = id) then
      Some (joined uid
              (joined (homeRoom (mkSocket uid utype ∅ []))
                 (mkSocket uid utype {[ id ]} [])))
    else sockets h !! x.
Proof.
  unfold onConnection, homeRoom. simpl.
  destruct (decide (utype = "MECHANIC")); simpl; case_decide as Hx; subst.
  all: by rewrite ?lookup_alter_eq, ?lookup_insert_eq, ?lookup_alter_ne,
            ?lookup_insert_ne.
Qed.

Lemma onConnection_mechanicSockets id uid utype h :
  mechanicSockets (onConnection id uid utype h) =
    if decide (utype = "MECHANIC") then <[uid := id]> (mechanicSockets h)
    else mechanicSockets h.
Proof. unfold onConnection. by case_decide. Qed.

Lemma onConnection_userSockets id uid utype h :
  userSockets (onConnection id uid utype h) =
    if decide (utype = "MECHANIC") then userSockets h
    else <[uid := id]> (userSockets h).
Proof. unfold onConnection. by case_decide. Qed.

Lemma onConnection_Sound id uid utype h :
  id ≠ "" → sockets h !! id = None → Sound h →
  Sound (onConnection id uid utype h).
Proof.
  intros Hne Hfresh [Sm Su Sh].
  assert (Hother : ∀ x k, sockets h !! x = Some k → x ≠ id) by congruence.
  split.
  - intros m x. rewrite onConnection_mechanicSockets. intros H.
    assert (Hcase : m = uid ∧ x = id ∧ utype = "MECHANIC" ∨
                    mechanicSockets h !! m = Some x).
    { case_decide; [|by right]. rewrite lookup_insert in H.
      case_decide; [|by right]. left. by simplify_eq. }
    destruct Hcase as [(-> & -> & Ht)|Hold].
    + split; [done|]. rewrite onConnection_sockets, decide_True by done.
      eexists. split; [reflexivity|done].
    + destruct (Sm _ _ Hold) as (Hx & k & Hk & Hid & Hty). split; [done|].
      exists k. rewrite onConnection_sockets, decide_False by eauto. done.
  - intros u x. rewrite onConnection_userSockets. intros H.
    assert (Hcase : u = uid ∧ x = id ∧ utype ≠ "MECHANIC" ∨
                    userSockets h !! u = Some x).
    { case_decide; [by right|]. rewrite lookup_insert in H.
      case_decide; [|by right]. left. by simplify_eq. }
    destruct Hcase as [(-> & -> & Ht)|Hold].
    + split; [done|]. rewrite onConnection_sockets, decide_True by done.
      eexists. split; [reflexivity|done].
    + destruct (Su _ _ Hold) as (Hx & k & Hk & Hid & Hty). split; [done|].
      exists k. rewrite onConnection_sockets, decide_False by eauto. done.
  - intros x k. rewrite onConnection_sockets. case_decide; [|apply Sh].
    intros [= <-]. unfold homeRoom at 1. simpl. fold (homeRoom (mkSocket uid utype ∅ [])).
    set_solver.
Qed.

Lemma disconnect_Sound id k h :
  sockets h !! id = Some k → Sound h →
  Sound (handleDisconnect k (set_sockets h (delete id (sockets h)))).
Proof.
  intros Hk [Sm Su Sh]. unfold handleDisconnect.
  case_decide as Ht; split; simpl.
  - intros m x. rewrite lookup_delete. case_decide; [done|]. intros Hc.
    destruct (Sm _ _ Hc) as (Hx & k' & Hk' & Hid & Hty). split; [done|].
    exists k'. rewrite lookup_delete_ne; [done|]. intros ->. congruence.
  - intros u x H.
    destruct (Su _ _ H) as (Hx & k' & Hk' & Hid & Hty). split; [done|].
    exists k'. rewrite lookup_delete_ne; [done|]. intros ->. congruence.
  - intros x k'. rewrite lookup_delete. case_decide; [done|]. apply Sh.
  - intros m x H.
    destruct (Sm _ _ H) as (Hx & k' & Hk' & Hid & Hty). split; [done|].
    exists k'. rewrite lookup_delete_ne; [done|]. intros ->. congruence.
  - intros u x. rewrite lookup_delete. case_decide; [done|]. intros Hc.
    destruct (Su _ _ Hc) as (Hx & k' & Hk' & Hid & Hty). split; [done|].
    exists k'. rewrite lookup_delete_ne; [done|]. intros ->. congruence.
  - intros x k'. rewrite lookup_delete. case_decide; [done|]. apply Sh.
Qed.

Lemma happen_Sound e h : Sound h → Sound (happen e h).
Proof.
  intros S. destruct e; simpl.
  - case_decide; [done|].
    destruct (sockets h !! id) eqn:Hid; [done|]. by apply onConnection_Sound.
  - destruct (sockets h !! id) eqn:Hid; [|done]. by apply disconnect_Sound.
  - destruct (sockets h !! id); [|done].
    eapply Steady_Sound; [apply handleUserTracking_Steady|done].
  - destruct (sockets h !! id); [|done].
    eapply Steady_Sound; [apply handleMechanicLocation_Steady|done].
  - eapply Steady_Sound; [apply broadcastNewBooking_Steady|done].
  - eapply Steady_Sound; [apply notifyPaymentReceived_Steady|done].
  - eapply Steady_Sound; [apply emitTo_Steady|done].
  - by destruct S.
Qed.

Lemma happens_Sound l : ∀ h, Sound h → Sound (happens l h).
Proof.
  unfold happens. induction l as [|e l IH]; intros h S; simpl; [done|].
  by apply IH, happen_Sound.
Qed.

Lemma started_Sound up located : Sound (started up located).
Proof. split; simpl; intros ??; by rewrite lookup_empty. Qed.

Lemma cached_Sound h m :
  Sound h → cached (mechanicSockets h) m = mechanicSockets h !! m.
Proof.
  intros S. unfold cached.
  destruct (mechanicSockets h !! m) as [id|] eqn:Hm; [|done].
  destruct (sound_mechanic h S m id Hm) as [Hne _]. by destruct id.
Qed.

Lemma homeRoom_mechanic k :
  userType k = "MECHANIC" → homeRoom k = "mechanic:" +:+ userId k.
Proof. unfold homeRoom. intros ->. by rewrite decide_True. Qed.

(** X15. Whatever connections, disconnections, tracking requests, location
    updates, broadcasts and notifications a hub has seen since it started,
    a socket id cached in [mechanicSockets] for a mechanic is that of a
    connected socket of this mechanic, of type MECHANIC, which is in the
    room [mechanic:<id>]; likewise for [userSockets], the other types and
    [user:<id>]; and every connected socket is in the room of its user.  So
    the "Socket not found" branch of [broadcastNewBooking] is never
    taken. *)
Theorem cached_sockets_are_connected up located l x id :
  let h := happens l (started up located) in
  (mechanicSockets h !! x = Some id →
     ∃ k, sockets h !! id = Some k ∧ userId k = x ∧
          userType k = "MECHANIC" ∧ "mechanic:" +:+ x ∈ rooms k) ∧
  (userSockets h !! x = Some id →
     ∃ k, sockets h !! id = Some k ∧ userId k = x ∧
          userType k ≠ "MECHANIC" ∧ "user:" +:+ x ∈ rooms k) ∧
  (∀ k, sockets h !! id = Some k →
     (if decide (userType k = "MECHANIC") then "mechanic:" +:+ userId k
      else "user:" +:+ userId k) ∈ rooms k).
Proof.
  intros h.
  assert (S : Sound h) by apply happens_Sound, started_Sound.
  split; [|split].
  - intros H. destruct (sound_mechanic h S x id H) as (_ & k & Hk & Hu & Ht).
    exists k. repeat split; try done.
    pose proof (sound_home h S id k Hk) as Hh.
    by rewrite (homeRoom_mechanic k Ht), Hu in Hh.
  - intros H. destruct (sound_user h S x id H) as (_ & k & Hk & Hu & Ht).
    exists k. repeat split; try done.
    pose proof (sound_home h S id k Hk) as Hh.
    unfold homeRoom in Hh. by rewrite decide_False, Hu in Hh.
  - intros k Hk. exact (sound_home h S id k Hk).
Qed.

(** X16. [notifyPaymentReceived] for a mechanic, in any state a hub
    reaches: the socket cached for the mechanic receives [payment:received]
    twice, once directly and once through the room; every other connected
    socket in the room [mechanic:<id>] receives it once, and so every
    connected socket of the mechanic receives it at least once; the other
    sockets receive nothing.  No socket is added or removed, no room and no
    cache changes. *)
Theorem payment_notice_comes_twice_to_the_cached_socket
    up located l m b a :
  m ≠ "" →
  let h := happens l (started up located) in
  let h' := notifyPaymentReceived (Some m) b a h in
  mechanicSockets h' = mechanicSockets h ∧ userSockets h' = userSockets h ∧
  ∀ id,
    match sockets h !! id with
    | None => sockets h' !! id = None
    | Some k =>
        sockets h' !! id =
          Some (mkSocket (userId k) (userType k) (rooms k)
                  (inbox k ++
                   if decide (mechanicSockets h !! m = Some id) then
                     [PaymentReceived b a; PaymentReceived b a]
                   else if decide ("mechanic:" +:+ m ∈ rooms k) then
                     [PaymentReceived b a]
                   else [])) ∧
        (userType k = "MECHANIC" → userId k = m →
         "mechanic:" +:+ m ∈ rooms k)
    end.
Proof.
  intros Hm h h'.
  assert (S : Sound h) by apply happens_Sound, started_Sound.
  assert (Hhome : ∀ id k, sockets h !! id = Some k →
            userType k = "MECHANIC" → userId k = m →
            "mechanic:" +:+ m ∈ rooms k).
  { intros id k Hk Ht Hu. pose proof (sound_home h S id k Hk) as Hh.
    by rewrite (homeRoom_mechanic k Ht), Hu in Hh. }
  unfold h', notifyPaymentReceived. rewrite decide_False by done.
  rewrite (cached_Sound h m S).
  destruct (mechanicSockets h !! m) as [sid|] eqn:Hc.
  - destruct (sound_mechanic h S m sid Hc) as (_ & ks & Hks & Hu & Ht).
    rewrite Hks. split; [done|]. split; [done|].
    intros id. simpl. rewrite lookup_fmap.
    destruct (decide (sid = id)) as [->|Hne].
    + rewrite lookup_alter_eq, Hks. simpl.
      rewrite !decide_True by eauto. split; [|by eauto].
      unfold deliver. simpl. by rewrite <- app_assoc.
    + rewrite lookup_alter_ne by done.
      destruct (sockets h !! id) as [k|] eqn:Hk; simpl; [|done].
      rewrite (decide_False (P := Some sid = Some id)) by congruence.
      split; [|by eauto].
      case_decide; simpl; [done|]. rewrite app_nil_r. by destruct k.
  - split; [done|]. split; [done|]. intros id. simpl. rewrite lookup_fmap.
    destruct (sockets h !! id) as [k|] eqn:Hk; simpl; [|done].
    split; [|by eauto].
    case_decide; simpl; [done|]. rewrite app_nil_r. by destruct k.
Qed.

Lemma payment_notice_comes_twice_to_the_cached_socket_witness :
  mechanicSockets
    (notifyPaymentReceived (Some "A") "bk1" (5 # 1)%Q
       (happens [Connect "s1" "A" "MECHANIC"; Connect "s2" "u1" "USER"]
          (started false ∅)))
  = mechanicSockets
      (happens [Connect "s1" "A" "MECHANIC"; Connect "s2" "u1" "USER"]
         (started false ∅)).
Proof.
  assert (Hm : "A" ≠ "") by discriminate.
  exact (proj1 (payment_notice_comes_twice_to_the_cached_socket false ∅
                  [Connect "s1" "A" "MECHANIC"; Connect "s2" "u1" "USER"]
                  "A" "bk1" (5 # 1)%Q Hm)).
Defined.

Lemma sendNew_reaches b h nm id k :
  Sound h → sockets h !! id = Some k → userId k = nm_id nm →
  userType k = "MECHANIC" →
  ∃ id' k0 k1, sockets h !! id' = Some k0 ∧ userId k0 = nm_id nm ∧
    userType k0 = "MECHANIC" ∧
    sockets (sendNew b h nm) !! id' = Some k1 ∧
    inbox k1 = inbox k0 ++ [NewBooking b (sentDistance nm)].
Proof.
  intros S Hk Hu Ht. unfold sendNew. rewrite (cached_Sound h _ S).
  destruct (mechanicSockets h !! nm_id nm) as [sid|] eqn:Hc.
  - destruct (sound_mechanic h S _ sid Hc) as (_ & ks & Hks & Hus & Hts).
    rewrite Hks. exists sid, ks. eexists. repeat (split; [done|]).
    simpl. rewrite !lookup_alter_eq, Hks. simpl. split; reflexivity.
  - exists id, k. eexists. repeat (split; [done|]).
    simpl. rewrite lookup_fmap, Hk. simpl.
    pose proof (sound_home h S id k Hk) as Hh.
    rewrite (homeRoom_mechanic k Ht), Hu in Hh.
    rewrite decide_True by done. split; reflexivity.
Qed.

(** X17. [broadcastNewBooking], in any state a hub reaches: for every
    mechanic of the list who has a connected socket of type MECHANIC, some
    connected socket of this mechanic receives [booking:new] for the
    booking, with the distance of the list ([null] for a distance of 0 or
    none).  The caches are left as they were. *)
Theorem broadcast_reaches_each_connected_mechanic
    up located l b nearby nm id k :
  let h := happens l (started up located) in
  let h' := broadcastNewBooking b nearby h in
  nm ∈ nearby → sockets h !! id = Some k → userId k = nm_id nm →
  userType k = "MECHANIC" →
  mechanicSockets h' = mechanicSockets h ∧ userSockets h' = userSockets h ∧
  ∃ id' k0 k1, sockets h !! id' = Some k0 ∧ userId k0 = nm_id nm ∧
    userType k0 = "MECHANIC" ∧ sockets h' !! id' = Some k1 ∧
    ∃ l1 l2,
      inbox k1 =
        inbox k0 ++ l1 ++ NewBooking b (nm_distance nm ≫= fun d =>
                                         if decide (d = 0) then None
                                         else Some d) :: l2.
Proof.
  intros h h' Hin Hk Hu Ht.
  assert (S : Sound h) by apply happens_Sound, started_Sound.
  destruct (broadcastNewBooking_Steady b nearby h) as (Hus & Hms & _).
  split; [done|]. split; [done|].
  apply list_elem_of_split in Hin as (pre & post & ->).
  unfold h', broadcastNewBooking. rewrite fold_left_app. simpl.
  fold (broadcastNewBooking b pre h).
  set (hp := broadcastNewBooking b pre h).
  fold (broadcastNewBooking b post (sendNew b hp nm)).
  pose proof (broadcastNewBooking_Steady b pre h) as Sp. fold hp in Sp.
  pose proof (Steady_Sound _ _ Sp S) as S'.
  destruct Sp as (_ & _ & Hsp).
  pose proof (Hsp id) as Hid. rewrite Hk in Hid.
  destruct (sockets hp !! id) as [kp|] eqn:Hkp; [|done].
  destruct Hid as (Hup & Htp & _).
  destruct (sendNew_reaches b hp nm id kp S' Hkp) as
    (id' & k0' & k1' & Hk0' & Hu0 & Ht0 & Hk1' & Hin1); [congruence..|].
  pose proof (Hsp id') as Hid'. rewrite Hk0' in Hid'.
  destruct (sockets h !! id') as [k0|] eqn:Hk0; [|done].
  destruct Hid' as (Hu0' & Ht0' & [l1 Hl1] & _).
  destruct (broadcastNewBooking_Steady b post (sendNew b hp nm))
    as (_ & _ & Hpost).
  specialize (Hpost id'). rewrite Hk1' in Hpost.
  destruct (sockets (broadcastNewBooking b post (sendNew b hp nm)) !! id')
    as [k1|] eqn:Hk1; [|done].
  destruct Hpost as (_ & _ & [l2 Hl2] & _).
  exists id', k0, k1.
  split; [done|]. split; [congruence|]. split; [congruence|].
  split; [done|]. exists l1, l2.
  rewrite Hl2, Hin1, Hl1, <- !app_assoc. simpl.
  unfold sentDistance. by destruct (nm_distance nm) as [[|d]|].
Qed.

Lemma broadcast_reaches_each_connected_mechanic_witness :
  sockets (happens [Connect "s1" "A" "MECHANIC"; Connect "s2" "u1" "USER"]
             (started false ∅)) !! "s1" = Some socket1 ∧
  userSockets
    (broadcastNewBooking "bk1" [annA; bobB]
       (happens [Connect "s1" "A" "MECHANIC"; Connect "s2" "u1" "USER"]
          (started false ∅)))
  = userSockets
      (happens [Connect "s1" "A" "MECHANIC"; Connect "s2" "u1" "USER"]
         (started false ∅)).
Proof.
  assert (Hk : sockets (happens [Connect "s1" "A" "MECHANIC";
                                 Connect "s2" "u1" "USER"]
                          (started false ∅)) !! "s1" = Some socket1)
    by (vm_compute; reflexivity).
  assert (Hin : annA ∈ [annA; bobB]) by (left).
  split; [exact Hk|].
  exact (proj1 (proj2 (broadcast_reaches_each_connected_mechanic false ∅
                         [Connect "s1" "A" "MECHANIC"; Connect "s2" "u1" "USER"]
                         "bk1" [annA; bobB] annA "s1" socket1
                         Hin Hk eq_refl eq_refl))).
Defined.

(** X18. A user asks to track a mechanic and the mechanic then sends a
    location.  While [redisService.isConnected] holds, the location update
    changes nothing at all: no stored location, and nothing to anybody.
    Otherwise the location of the mechanic's document is set to the
    latitude and longitude sent; a user who asked to start tracking has
    received the acknowledgement and then [mechanic:location], and a user
    who sent any other action has received the acknowledgement only. *)
Theorem location_updates_are_dropped_while_redis_is_connected
    id ms action p h k km :
  sockets h !! id = Some k → sockets h !! ms = Some km →
  let m := userId km in
  let h1 := happen (Track id m action) h in
  let h2 := happen (Location ms p) h1 in
  (isConnected h = true → h2 = h1) ∧
  (isConnected h = false →
   lastLocation h2 =
     alter (fun _ => Some (latitude p, longitude p)) m (lastLocation h) ∧
   ∃ k2, sockets h2 !! id = Some k2 ∧
     inbox k2 =
       inbox k ++
       if decide (action = "start")
       then [TrackAck true; MechanicLocation m p] else [TrackAck false]).
Proof.
  intros Hk Hkm m h1 h2.
  assert (Hst : Steady h h1).
  { unfold h1. simpl. rewrite Hk. apply handleUserTracking_Steady. }
  assert (Hc : isConnected h1 = isConnected h ∧ lastLocation h1 = lastLocation h).
  { unfold h1. simpl. rewrite Hk. unfold handleUserTracking. by case_decide. }
  destruct Hc as [Hc Hl].
  destruct Hst as (_ & _ & Hs). pose proof (Hs ms) as Hms. rewrite Hkm in Hms.
  destruct (sockets h1 !! ms) as [km1|] eqn:Hkm1; [|done].
  destruct Hms as (Hum & _).
  assert (H2 : h2 = handleMechanicLocation km1 p h1).
  { unfold h2. simpl. by rewrite Hkm1. }
  rewrite H2. unfold handleMechanicLocation. rewrite Hc, Hum. fold m.
  split; [by intros ->|]. intros ->. simpl. rewrite Hl. split; [done|].
  rewrite lookup_fmap. unfold h1. simpl. rewrite Hk.
  unfold handleUserTracking. case_decide; simpl;
    rewrite !lookup_alter_eq, Hk; simpl.
  - rewrite decide_True by set_solver. eexists. split; [reflexivity|].
    simpl. by rewrite <- app_assoc.
  - rewrite decide_False by set_solver. eexists. split; reflexivity.
Qed.

Lemma location_updates_are_dropped_while_redis_is_connected_witness :
  sockets (set_isConnected hub1 true) !! "s2" = Some socket2 ∧
  sockets (set_isConnected hub1 true) !! "s1" = Some socket1 ∧
  happen (Location "s1" (mkPosition (1 # 2) (3 # 4) 0 0)%Q)
    (happen (Track "s2" (userId socket1) "start") (set_isConnected hub1 true))
  = happen (Track "s2" (userId socket1) "start") (set_isConnected hub1 true).
Proof.
  assert (Hk : sockets (set_isConnected hub1 true) !! "s2" = Some socket2)
    by (vm_compute; reflexivity).
  assert (Hm : sockets (set_isConnected hub1 true) !! "s1" = Some socket1)
    by (vm_compute; reflexivity).
  split; [exact Hk|]. split; [exact Hm|].
  exact (proj1 (location_updates_are_dropped_while_redis_is_connected
                  "s2" "s1" "start" (mkPosition (1 # 2) (3 # 4) 0 0)%Q
                  (set_isConnected hub1 true) socket2 socket1 Hk Hm) eq_refl).
Defined.

End HubProofs.
